(** * s3-site-cache-optimizer: a shallow embedding of [optimize.py]

    The development follows the module top to bottom: the helpers
    [hashfile] and [convert_filename], the [Optimizer] constructor, the
    four pipeline stages ([_index_source_dir], [_calculate_fingerprints],
    [_write_dirs] / [_write_files], [_upload_to_bucket]), [run] and [main].
    The library functions the module calls ([os.path.splitext],
    [fnmatch.fnmatch], [str.replace], [os.walk], [hashlib.sha256]) are
    modelled from their definitions in the standard library.

    Python values are represented as follows.
    - [str] and the bytes of a file: lists of 8-bit characters
      ([list ascii]); a text is kept as its UTF-8 encoding.  A file
      opened in text mode is decoded as CPython 3 does under a UTF-8
      locale: bytes that are no UTF-8 raise [UnicodeDecodeError], and the
      line ends [CR LF] and [CR] are read as [LF].  What is written in
      text mode is encoded again, each [LF] as it is (POSIX).
    - lists: [list].  The dictionary [_assets_map]: an association list
      with unique keys, iterated in the order in which the keys were
      inserted (as CPython 3.7 and later iterate a [dict]); the order
      matters, because it is the order of the substitutions.
    - the file system: a tree of named entries, each directory in the
      order in which the operating system lists it.
    - the bucket: a finite map from keys to stored objects, and the log
      of the requests that changed it.
    - exceptions: the type [result], a value or a raised exception.

    The first part holds the definitions, the second the properties. *)

From Stdlib Require Import List Ascii String ZArith NArith Lia Bool.
From Equations Require Import Equations.
From stdpp Require Import gmap strings list.

Open Scope Z_scope.
Open Scope list_scope.

(** ** Strings *)

Abbreviation str := (list ascii).

(** A string literal as a Python string. *)
Definition lit (s : string) : str := list_ascii_of_string s.

Definition chr_dot : ascii := "."%char.
Definition chr_sep : ascii := "/"%char.
Definition chr_nl : ascii := "010"%char.

Definition str_eqb (a b : str) : bool := bool_decide (a = b).

(** [s.rfind(c)] for a one-character needle: the highest index at which
    [c] occurs, [-1] when it does not occur. *)
Fixpoint rfind_from (c : ascii) (s : str) (i acc : Z) : Z :=
  match s with
  | [] => acc
  | x :: s' => rfind_from c s' (i + 1) (if Ascii.eqb x c then i else acc)
  end.

Definition rfind (c : ascii) (s : str) : Z := rfind_from c s 0 (-1).

(** Slices [p[:i]], [p[i:]] and [p[i:i+1]] for [0 <= i]. *)
Definition slice_to (p : str) (i : Z) : str := firstn (Z.to_nat i) p.
Definition slice_from (p : str) (i : Z) : str := skipn (Z.to_nat i) p.
Definition slice_one (p : str) (i : Z) : str := firstn 1 (skipn (Z.to_nat i) p).

(** The [while filenameIndex < dotIndex] loop of [genericpath._splitext]:
    [true] when it leaves through its [return], that is when some character
    of [p[filenameIndex:dotIndex]] is not a dot.  [n] counts the iterations
    that remain. *)
Fixpoint splitext_scan (p : str) (filenameIndex : Z) (n : nat) : bool :=
  match n with
  | O => false
  | S n' =>
      if negb (str_eqb (slice_one p filenameIndex) [chr_dot]) then true
      else splitext_scan p (filenameIndex + 1) n'
  end.

(** [os.path.splitext] of [posixpath] ([sep = '/'], no [altsep],
    [extsep = '.']). *)
Definition splitext (p : str) : str * str :=
  let sepIndex := rfind chr_sep p in
  let dotIndex := rfind chr_dot p in
  if (dotIndex >? sepIndex) &&
     splitext_scan p (sepIndex + 1) (Z.to_nat (dotIndex - (sepIndex + 1)))
  then (slice_to p dotIndex, slice_from p dotIndex)
  else (p, []).

(** [convert_filename(filename, filehash)], lines 42-48. *)
Definition convert_filename (filename filehash : str) : str :=
  let ftup := splitext filename in
  fst ftup ++ [chr_dot] ++ filehash ++ snd ftup.

(** ** SHA-256 ([hashlib.sha256])

    Words are 32-bit integers held in [N]; every addition is reduced
    modulo [2^32]. *)

Module SHA256.

Definition w32 (x : N) : N := N.land x 0xffffffff.
Definition add32 (x y : N) : N := w32 (x + y).
Definition rotr (n x : N) : N := w32 (N.lor (N.shiftr x n) (N.shiftl x (32 - n))).
Definition not32 (x : N) : N := N.lxor x 0xffffffff.

Definition Ch (x y z : N) : N := N.lxor (N.land x y) (N.land (not32 x) z).
Definition Maj (x y z : N) : N :=
  N.lxor (N.lxor (N.land x y) (N.land x z)) (N.land y z).
Definition bsig0 (x : N) : N := N.lxor (N.lxor (rotr 2 x) (rotr 13 x)) (rotr 22 x).
Definition bsig1 (x : N) : N := N.lxor (N.lxor (rotr 6 x) (rotr 11 x)) (rotr 25 x).
Definition ssig0 (x : N) : N := N.lxor (N.lxor (rotr 7 x) (rotr 18 x)) (N.shiftr x 3).
Definition ssig1 (x : N) : N := N.lxor (N.lxor (rotr 17 x) (rotr 19 x)) (N.shiftr x 10).

(** The first [n] primes at or above 2, by trial division. *)
Definition is_prime (p : N) : bool :=
  forallb (fun d => negb (N.eqb (N.modulo p d) 0)) (List.map N.of_nat (seq 2 (N.to_nat p - 2))).
Definition primes (n : nat) : list N :=
  firstn n (List.filter is_prime (List.map N.of_nat (seq 2 310))).

(** The integer cube root of a number below [2^(3 * bits)], one bit at a
    time from the top. *)
Fixpoint icbrt (bits : nat) (n r : N) : N :=
  match bits with
  | O => r
  | S b =>
      let r' := (r + N.pow 2 (N.of_nat b))%N in
      if (r' * r' * r' <=? n)%N then icbrt b n r' else icbrt b n r
  end.

(** The round constants: the first 32 bits of the fractional parts of the
    cube roots of the first 64 primes. *)
Definition K : list N :=
  Eval vm_compute in List.map (fun p => w32 (icbrt 36 (p * N.pow 2 96) 0)) (primes 64).

(** The eight chaining words. *)
Record regs := Regs { ra : N; rb : N; rc : N; rd : N; re : N; rf : N; rg : N; rh : N }.

(** The initial chaining words: the first 32 bits of the fractional parts
    of the square roots of the first 8 primes. *)
Definition frac_sqrt (p : N) : N := w32 (N.sqrt (p * N.pow 2 64)).
Definition H0 : regs :=
  Eval vm_compute in
    Regs (frac_sqrt 2) (frac_sqrt 3) (frac_sqrt 5) (frac_sqrt 7)
         (frac_sqrt 11) (frac_sqrt 13) (frac_sqrt 17) (frac_sqrt 19).

(** Big-endian words of a block of bytes. *)
Fixpoint words_of (bs : list N) : list N :=
  match bs with
  | b0 :: b1 :: b2 :: b3 :: rest =>
      (N.shiftl b0 24 + N.shiftl b1 16 + N.shiftl b2 8 + b3)%N :: words_of rest
  | _ => []
  end.

(** The message schedule, newest word first: [n] further words are
    appended to the (reversed) words so far. *)
Fixpoint schedule (n : nat) (w : list N) : list N :=
  match n with
  | O => w
  | S n' =>
      let x := add32 (add32 (ssig1 (nth 1 w 0%N)) (nth 6 w 0%N))
                     (add32 (ssig0 (nth 14 w 0%N)) (nth 15 w 0%N)) in
      schedule n' (x :: w)
  end.

Definition round (s : regs) (kw : N * N) : regs :=
  let t1 := add32 (add32 (add32 (rh s) (bsig1 (re s))) (Ch (re s) (rf s) (rg s)))
                  (add32 (fst kw) (snd kw)) in
  let t2 := add32 (bsig0 (ra s)) (Maj (ra s) (rb s) (rc s)) in
  Regs (add32 t1 t2) (ra s) (rb s) (rc s) (add32 (rd s) t1) (re s) (rf s) (rg s).

Definition compress (h : regs) (block : list N) : regs :=
  let w := List.rev (schedule 48 (List.rev (words_of block))) in
  let s := fold_left round (combine K w) h in
  Regs (add32 (ra h) (ra s)) (add32 (rb h) (rb s)) (add32 (rc h) (rc s)) (add32 (rd h) (rd s))
       (add32 (re h) (re s)) (add32 (rf h) (rf s)) (add32 (rg h) (rg s)) (add32 (rh h) (rh s)).

(** Absorbing one byte: the pending bytes are kept newest first and
    compressed as soon as there are 64 of them. *)
Definition absorb (st : regs * list N) (b : N) : regs * list N :=
  let buf := b :: snd st in
  if Nat.eqb (length buf) 64 then (compress (fst st) (List.rev buf), [])
  else (fst st, buf).

Definition be_bytes8 (x : N) : list N :=
  List.map (fun i => N.land (N.shiftr x (8 * i)) 0xff) [7; 6; 5; 4; 3; 2; 1; 0]%N.

(** Padding: the byte [0x80], zero bytes up to 56 modulo 64, and the
    length of the message in bits as 8 big-endian bytes. *)
Definition pad (msg : list N) : list N :=
  let len := length msg in
  let zeros := Nat.modulo (64 + 55 - Nat.modulo len 64) 64 in
  msg ++ [0x80%N] ++ repeat 0%N zeros ++ be_bytes8 (8 * N.of_nat len).

Definition digest_regs (msg : str) : regs :=
  fst (fold_left absorb (pad (List.map N_of_ascii msg)) (H0, [])).

Definition hex_digit (x : N) : ascii :=
  nth (N.to_nat x) (list_ascii_of_string "0123456789abcdef") "0"%char.

Definition hex_word (w : N) : str :=
  List.map (fun i => hex_digit (N.land (N.shiftr w (4 * i)) 0xf)) [7; 6; 5; 4; 3; 2; 1; 0]%N.

Definition hex_regs (s : regs) : str :=
  hex_word (ra s) ++ hex_word (rb s) ++ hex_word (rc s) ++ hex_word (rd s) ++
  hex_word (re s) ++ hex_word (rf s) ++ hex_word (rg s) ++ hex_word (rh s).

(** [hashlib.sha256(msg).hexdigest()]. *)
Definition hexdigest (msg : str) : str := hex_regs (digest_regs msg).

End SHA256.

(** ** Hash objects and file objects *)

(** What [hashfile] uses of its [hasher] argument: [update] and
    [hexdigest] on a state. *)
Class Hasher := {
  hasher_state : Type;
  hasher_update : hasher_state -> str -> hasher_state;
  hasher_hexdigest : hasher_state -> str
}.

(** What [hashlib] documents of every hash object: feeding two strings one
    after the other is feeding their concatenation. *)
Class HasherLaws (H : Hasher) : Prop := {
  update_app : forall st a b,
    hasher_update (hasher_update st a) b = hasher_update st (a ++ b);
  update_nil : forall st, hasher_update st [] = st
}.

(** [hashlib]'s SHA-256 object: its state is the message fed so far,
    [update(b)] appends, [hexdigest()] is the digest of the whole. *)
#[export] Instance sha256_hasher : Hasher := {|
  hasher_state := str;
  hasher_update := fun st buf => st ++ buf;
  hasher_hexdigest := SHA256.hexdigest
|}.

#[export] Instance sha256_laws : HasherLaws sha256_hasher.
Proof.
  split; simpl.
  - intros st a b. rewrite app_assoc. reflexivity.
  - intros st. apply app_nil_r.
Qed.

(** [sha256()]: a fresh hash object. *)
Definition sha256 : @hasher_state sha256_hasher := [].

(** A file object open for reading: the bytes not yet read. *)
Record fileobj := FileObj { f_rest : str }.

(** [afile.read(n)] for [0 <= n]: at most [n] bytes, and the advanced
    file object. *)
Definition f_read (afile : fileobj) (n : nat) : str * fileobj :=
  (firstn n (f_rest afile), FileObj (skipn n (f_rest afile))).

(** The [while len(buf) > 0] loop of [hashfile], lines 37-40. *)
Equations? hashfile_loop `{Hasher} (buf : str) (afile : fileobj)
    (hasher : hasher_state) (blocksize : nat) : str
    by wf (length buf + length (f_rest afile))%nat lt :=
  hashfile_loop [] afile hasher blocksize := hasher_hexdigest hasher;
  hashfile_loop (c :: buf') afile hasher blocksize :=
    hashfile_loop (fst (f_read afile blocksize)) (snd (f_read afile blocksize))
                  (hasher_update hasher (c :: buf')) blocksize.
Proof.
  simpl. rewrite length_firstn, length_skipn. lia.
Qed.

(** [hashfile(afile, hasher, blocksize)], lines 31-40. *)
Definition hashfile `{Hasher} (afile : fileobj) (hasher : hasher_state)
    (blocksize : nat) : str :=
  hashfile_loop (fst (f_read afile blocksize)) (snd (f_read afile blocksize))
                hasher blocksize.

(** The default [blocksize=65536]. *)
Definition default_blocksize : nat := N.to_nat 65536.

(** ** Exceptions *)

(** The exceptions of the module and of the library calls it makes.
    [NotADirectoryError] is the one the specification names for a bad
    source root; nothing below raises it. *)
Inductive exn :=
| OptimizerError (msg : str)
| IOError (path : str)
| KeyError (key : str)
| NameError (name : str)
| TypeError (msg : str)
| AttributeError (msg : str)
| OSError (msg : str)
| UnicodeDecodeError (path : str)
| NotADirectoryError (path : str).

Inductive result (A : Type) :=
| Ok (a : A)
| Raise (e : exn).
Arguments Ok {A} a.
Arguments Raise {A} e.

Definition rbind {A B} (r : result A) (k : A -> result B) : result B :=
  match r with
  | Ok a => k a
  | Raise e => Raise e
  end.

Notation "'do' x <- r ; k" := (rbind r (fun x => k))
  (at level 10, x name, r at level 100, k at level 200).

(** [r] raises only exceptions that satisfy [P]. *)
Definition raises_only {A} (P : exn -> Prop) (r : result A) : Prop :=
  forall e, r = Raise e -> P e.

(** A [for] loop whose body may raise. *)
Fixpoint for_each {A S} (body : S -> A -> result S) (xs : list A) (s : S) : result S :=
  match xs with
  | [] => Ok s
  | x :: xs' => do s' <- body s x; for_each body xs' s'
  end.

(** ** [fnmatch.fnmatch]

    [fnmatch] translates the pattern to a regular expression and matches
    the whole name against it: [*] is [.*], [?] is [.], [[seq]] a
    character class ([[!seq]] its complement), any other character
    itself.  On POSIX [os.path.normcase] changes nothing. *)

Inductive glob_tok :=
| GStar
| GAny
| GClass (negated : bool) (stuff : str)
| GLit (c : ascii).

(** The text up to the first [']'] and the text after it. *)
Fixpoint split_at_close (s : str) : option (str * str) :=
  match s with
  | [] => None
  | c :: s' =>
      if Ascii.eqb c "]" then Some ([], s')
      else match split_at_close s' with
           | Some (a, b) => Some (c :: a, b)
           | None => None
           end
  end.

(** After a ['[']: an optional ['!'], an optional [']'] that belongs to
    the class, then everything up to the next [']'].  [None] when no
    [']'] closes the class; the ['['] is then an ordinary character. *)
Definition parse_class (rest : str) : option (bool * str * str) :=
  let '(neg, r1) :=
    match rest with
    | c :: r => if Ascii.eqb c "!" then (true, r) else (false, rest)
    | [] => (false, rest)
    end in
  match r1 with
  | c :: r2 =>
      if Ascii.eqb c "]" then
        match split_at_close r2 with
        | Some (a, b) => Some (neg, c :: a, b)
        | None => None
        end
      else
        match split_at_close r1 with
        | Some (a, b) => Some (neg, a, b)
        | None => None
        end
  | [] => None
  end.

(** [fnmatch.translate]; [fuel] bounds the number of pattern elements,
    and the length of the pattern is always enough. *)
Fixpoint translate_fuel (fuel : nat) (pat : str) : list glob_tok :=
  match fuel, pat with
  | O, _ => []
  | _, [] => []
  | S fuel', c :: rest =>
      if Ascii.eqb c "*" then GStar :: translate_fuel fuel' rest
      else if Ascii.eqb c "?" then GAny :: translate_fuel fuel' rest
      else if Ascii.eqb c "[" then
        match parse_class rest with
        | Some (neg, stuff, rest') => GClass neg stuff :: translate_fuel fuel' rest'
        | None => GLit c :: translate_fuel fuel' rest
        end
      else GLit c :: translate_fuel fuel' rest
  end.

Definition translate (pat : str) : list glob_tok := translate_fuel (length pat) pat.

(** Membership in a character class: [lo-hi] is a range, every other
    character stands for itself.  (A range with [hi < lo], which the
    regular expression compiler rejects, contains nothing here.) *)
Fixpoint class_mem (c : ascii) (stuff : str) : bool :=
  match stuff with
  | [] => false
  | lo :: rest =>
      match rest with
      | dash :: hi :: rest' =>
          if Ascii.eqb dash "-" then
            ((N_of_ascii lo <=? N_of_ascii c)%N && (N_of_ascii c <=? N_of_ascii hi)%N)
            || class_mem c rest'
          else Ascii.eqb lo c || class_mem c rest
      | _ => Ascii.eqb lo c || class_mem c rest
      end
  end.

(** Matching the whole of [s] against the translated pattern. *)
Fixpoint glob_match (ts : list glob_tok) (s : str) : bool :=
  match ts with
  | [] => match s with [] => true | _ => false end
  | GStar :: ts' =>
      (fix star (s : str) : bool :=
         glob_match ts' s || match s with [] => false | _ :: s' => star s' end) s
  | GAny :: ts' => match s with [] => false | _ :: s' => glob_match ts' s' end
  | GClass neg stuff :: ts' =>
      match s with
      | [] => false
      | c :: s' => xorb neg (class_mem c stuff) && glob_match ts' s'
      end
  | GLit x :: ts' =>
      match s with
      | [] => false
      | c :: s' => Ascii.eqb x c && glob_match ts' s'
      end
  end.

Definition fnmatch (name pat : str) : bool := glob_match (translate pat) name.

(** [True in [fnmatch(relpath, exclude) for exclude in self._exclude]],
    lines 120 and 128. *)
Definition excluded (exclude : list str) (relpath : str) : bool :=
  bool_decide (true ∈ List.map (fun e => fnmatch relpath e) exclude).

(** ** [str.replace] and iteration over the lines of a file *)

Fixpoint is_prefix (p s : str) : bool :=
  match p, s with
  | [], _ => true
  | a :: p', b :: s' => Ascii.eqb a b && is_prefix p' s'
  | _ :: _, [] => false
  end.

(** The scan of [s.replace(old, new)] for a non-empty [old]: [skip]
    counts the characters of a match just replaced that are still to be
    passed over. *)
Fixpoint replace_scan (old new : str) (skip : nat) (s : str) : str :=
  match s with
  | [] => []
  | c :: s' =>
      match skip with
      | S k => replace_scan old new k s'
      | O =>
          if is_prefix old s then new ++ replace_scan old new (length old - 1) s'
          else c :: replace_scan old new 0 s'
      end
  end.

(** [s.replace(old, new)]: every non-overlapping occurrence of [old],
    found from the left, becomes [new]; an empty [old] matches before
    every character and at the end. *)
Definition str_replace (s old new : str) : str :=
  match old with
  | [] => new ++ flat_map (fun c => c :: new) s
  | _ :: _ => replace_scan old new 0 s
  end.

(** ** Text mode: [open(path, 'r')] and [for line in f_src]

    A file opened with [open(path, 'r')] is decoded with the encoding of
    the locale and [errors='strict'], and read with universal newlines.
    The encoding is taken to be UTF-8, as it is for CPython 3.7 and later
    on POSIX, the C locale included.  A text is kept here as the bytes of
    its UTF-8 encoding, so decoding a file is checking that its bytes are
    well formed. *)

Definition chr_cr : ascii := "013"%char.

(** The strict UTF-8 decoder over the bytes [s]; [pending] holds, for
    each byte still to come of the character being read, the range in
    which it must lie.  The ranges after each first byte are those of the
    well-formed sequences: no overlong form, no surrogate, nothing past
    [U+10FFFF]. *)
Fixpoint utf8_scan (pending : list (N * N)) (s : str) : bool :=
  match s with
  | [] => match pending with [] => true | _ :: _ => false end
  | c :: s' =>
      let b := N_of_ascii c in
      match pending with
      | (lo, hi) :: rest => (lo <=? b)%N && (b <=? hi)%N && utf8_scan rest s'
      | [] =>
          if (b <=? 0x7f)%N then utf8_scan [] s'
          else if (0xc2 <=? b)%N && (b <=? 0xdf)%N then utf8_scan [(0x80, 0xbf)%N] s'
          else if (b =? 0xe0)%N then utf8_scan [(0xa0, 0xbf)%N; (0x80, 0xbf)%N] s'
          else if (0xe1 <=? b)%N && (b <=? 0xec)%N
               then utf8_scan [(0x80, 0xbf)%N; (0x80, 0xbf)%N] s'
          else if (b =? 0xed)%N then utf8_scan [(0x80, 0x9f)%N; (0x80, 0xbf)%N] s'
          else if (0xee <=? b)%N && (b <=? 0xef)%N
               then utf8_scan [(0x80, 0xbf)%N; (0x80, 0xbf)%N] s'
          else if (b =? 0xf0)%N
               then utf8_scan [(0x90, 0xbf)%N; (0x80, 0xbf)%N; (0x80, 0xbf)%N] s'
          else if (0xf1 <=? b)%N && (b <=? 0xf3)%N
               then utf8_scan [(0x80, 0xbf)%N; (0x80, 0xbf)%N; (0x80, 0xbf)%N] s'
          else if (b =? 0xf4)%N
               then utf8_scan [(0x80, 0x8f)%N; (0x80, 0xbf)%N; (0x80, 0xbf)%N] s'
          else false
      end
  end.

Definition utf8_valid (s : str) : bool := utf8_scan [] s.

(** Universal newlines: a [CR] is read as [LF], and the [LF] that
    follows a [CR] is dropped; [after_cr] tells that the character before
    was a [CR]. *)
Fixpoint translate_newlines (after_cr : bool) (s : str) : str :=
  match s with
  | [] => []
  | c :: s' =>
      if Ascii.eqb c chr_cr then chr_nl :: translate_newlines true s'
      else if Ascii.eqb c chr_nl then
        if after_cr then translate_newlines false s'
        else chr_nl :: translate_newlines false s'
      else c :: translate_newlines false s'
  end.

(** The text read from the file [relpath] whose bytes are [bytes]. *)
Definition text_read (relpath bytes : str) : result str :=
  if utf8_valid bytes then Ok (translate_newlines false bytes)
  else Raise (UnicodeDecodeError relpath).

(** [for line in f_src]: the lines of a text, each with its newline. *)
Fixpoint file_lines (s : str) : list str :=
  match s with
  | [] => []
  | c :: s' =>
      if Ascii.eqb c chr_nl then [c] :: file_lines s'
      else match file_lines s' with
           | [] => [[c]]
           | l :: ls => (c :: l) :: ls
           end
  end.

(** [line.replace(asset, new)] for a line of a decoded text and the
    path of a file.  [os.walk] hands out a name that is no UTF-8 with
    surrogate escapes, which no decoded text holds: such a path occurs in
    no line.  For a path that is UTF-8, an occurrence among the bytes of a
    well-formed text starts and ends where characters do, so that
    replacing the bytes is replacing the characters. *)
Definition line_replace (line asset new : str) : str :=
  if utf8_valid asset then str_replace line asset new else line.

(** ** Directory trees and [os.walk] *)

(** A file with its bytes, or a directory with its entries in the order
    in which the operating system lists them. *)
#[warnings="-register-all"]
Inductive node :=
| File (content : str)
| Dir (entries : list (str * node)).

Definition is_dir (t : node) : bool :=
  match t with Dir _ => true | File _ => false end.

(** The names [os.walk] puts in [dirnames] and in [filenames]. *)
Definition dirnames_of (es : list (str * node)) : list str :=
  List.map fst (List.filter (fun e => is_dir (snd e)) es).
Definition fnames_of (es : list (str * node)) : list str :=
  List.map fst (List.filter (fun e => negb (is_dir (snd e))) es).

(** [os.path.relpath(os.path.join(dirpath, name), top)] for a [dirpath]
    that [os.walk(top)] yields: [dirpath] is kept relative to [top], the
    empty string standing for [top] itself. *)
Definition rel_join (dirpath name : str) : str :=
  match dirpath with
  | [] => name
  | _ :: _ => dirpath ++ chr_sep :: name
  end.

(** [os.walk(top)], top-down: the triple of a directory first, then the
    walks of its subdirectories in the order of [dirnames].  A [top] that
    is no directory yields nothing (errors of the listing are ignored). *)
Fixpoint walk (dirpath : str) (t : node) : list (str * list str * list str) :=
  match t with
  | File _ => []
  | Dir es =>
      (dirpath, dirnames_of es, fnames_of es)
      :: flat_map (fun e => let '(name, child) := e in
                            if is_dir child then walk (rel_join dirpath name) child
                            else []) es
  end.

(** [os.walk] of what is found at the root: nothing when it is missing. *)
Definition os_walk (top : option node) : list (str * list str * list str) :=
  match top with
  | Some t => walk [] t
  | None => []
  end.

(** The components of a relative path. *)
Fixpoint split_path (p : str) : list str :=
  match p with
  | [] => [[]]
  | c :: p' =>
      if Ascii.eqb c chr_sep then [] :: split_path p'
      else match split_path p' with
           | [] => [[c]]
           | x :: xs => (c :: x) :: xs
           end
  end.

Fixpoint lookup_entry (name : str) (es : list (str * node)) : option node :=
  match es with
  | [] => None
  | (n, t) :: es' => if str_eqb n name then Some t else lookup_entry name es'
  end.

(** Replace the entry called [name], or add it at the end. *)
Fixpoint set_entry (name : str) (t : node) (es : list (str * node)) : list (str * node) :=
  match es with
  | [] => [(name, t)]
  | (n, t') :: es' =>
      if str_eqb n name then (n, t) :: es' else (n, t') :: set_entry name t es'
  end.

(** What is found under [t] at the path with components [path]. *)
Fixpoint tree_get (t : node) (path : list str) : option node :=
  match path with
  | [] => Some t
  | n :: rest =>
      match t with
      | Dir es =>
          match lookup_entry n es with
          | Some child => tree_get child rest
          | None => None
          end
      | File _ => None
      end
  end.

(** The bytes of the file that [open(path, 'rb')], [open(path, 'r')] or
    [copyfile] opens below [top]. *)
Definition read_file (top : option node) (relpath : str) : result str :=
  match top with
  | Some t =>
      match tree_get t (split_path relpath) with
      | Some (File c) => Ok c
      | _ => Raise (IOError relpath)
      end
  | None => Raise (IOError relpath)
  end.

(** [os.path.isdir] below [t]. *)
Definition tree_isdir (t : node) (relpath : str) : bool :=
  match tree_get t (split_path relpath) with
  | Some (Dir _) => true
  | _ => false
  end.

(** [os.makedirs]: every missing directory along the path is created;
    [None] when a component exists and is a file. *)
Fixpoint tree_makedirs (t : node) (path : list str) : option node :=
  match t with
  | File _ => None
  | Dir es =>
      match path with
      | [] => Some t
      | n :: rest =>
          match lookup_entry n es with
          | Some child =>
              match tree_makedirs child rest with
              | Some child' => Some (Dir (set_entry n child' es))
              | None => None
              end
          | None =>
              match tree_makedirs (Dir []) rest with
              | Some child' => Some (Dir (set_entry n child' es))
              | None => None
              end
          end
      end
  end.

(** Creating or truncating the file at [path] and writing [c] to it:
    [None] when the directory it lies in does not exist, or when the path
    names a directory. *)
Fixpoint tree_write (t : node) (path : list str) (c : str) : option node :=
  match t with
  | File _ => None
  | Dir es =>
      match path with
      | [] => None
      | [n] =>
          match lookup_entry n es with
          | Some (Dir _) => None
          | _ => Some (Dir (set_entry n (File c) es))
          end
      | n :: rest =>
          match lookup_entry n es with
          | Some child =>
              match tree_write child rest c with
              | Some child' => Some (Dir (set_entry n child' es))
              | None => None
              end
          | None => None
          end
      end
  end.

(** ** Dictionaries and lists *)

(** A [dict] with string keys: unique keys in insertion order.  Assigning
    to a key that is present keeps its place. *)
Fixpoint dict_set {V} (k : str) (v : V) (d : list (str * V)) : list (str * V) :=
  match d with
  | [] => [(k, v)]
  | (k', v') :: d' =>
      if str_eqb k' k then (k', v) :: d' else (k', v') :: dict_set k v d'
  end.

Fixpoint dict_get {V} (k : str) (d : list (str * V)) : option V :=
  match d with
  | [] => None
  | (k', v') :: d' => if str_eqb k' k then Some v' else dict_get k d'
  end.

Definition dict_keys {V} (d : list (str * V)) : list str := List.map fst d.

(** [l.remove(x)] inside [try: ... except: pass]: the first occurrence is
    removed; the [ValueError] of an absent [x] is swallowed. *)
Fixpoint list_remove (x : str) (l : list str) : list str :=
  match l with
  | [] => []
  | y :: l' => if str_eqb y x then l' else y :: list_remove x l'
  end.

(** ** The [Optimizer] object *)

Record Optimizer := mkOptimizer {
  _assets_ext : list str;
  _rewriteables_ext : list str;
  _source_dir : str;
  _output_dir : str;
  _destination_bucket : str;
  _subdirs : list str;
  _files : list str;
  (** [relpath -> {}] after indexing ([None]) and
      [relpath -> {'new_filename': n}] after fingerprinting ([Some n]). *)
  _assets_map : list (str * option str);
  _rewritables : list str;
  _exclude : list str;
  _aws_access_key_id : option str;
  _aws_secret_access_key : option str;
  _skip_s3_upload : bool
}.

Definition with_subdirs (self : Optimizer) (v : list str) : Optimizer :=
  mkOptimizer (_assets_ext self) (_rewriteables_ext self) (_source_dir self) (_output_dir self)
    (_destination_bucket self) v (_files self) (_assets_map self) (_rewritables self)
    (_exclude self) (_aws_access_key_id self) (_aws_secret_access_key self) (_skip_s3_upload self).

Definition with_files (self : Optimizer) (v : list str) : Optimizer :=
  mkOptimizer (_assets_ext self) (_rewriteables_ext self) (_source_dir self) (_output_dir self)
    (_destination_bucket self) (_subdirs self) v (_assets_map self) (_rewritables self)
    (_exclude self) (_aws_access_key_id self) (_aws_secret_access_key self) (_skip_s3_upload self).

Definition with_assets_map (self : Optimizer) (v : list (str * option str)) : Optimizer :=
  mkOptimizer (_assets_ext self) (_rewriteables_ext self) (_source_dir self) (_output_dir self)
    (_destination_bucket self) (_subdirs self) (_files self) v (_rewritables self)
    (_exclude self) (_aws_access_key_id self) (_aws_secret_access_key self) (_skip_s3_upload self).

Definition with_rewritables (self : Optimizer) (v : list str) : Optimizer :=
  mkOptimizer (_assets_ext self) (_rewriteables_ext self) (_source_dir self) (_output_dir self)
    (_destination_bucket self) (_subdirs self) (_files self) (_assets_map self) v
    (_exclude self) (_aws_access_key_id self) (_aws_secret_access_key self) (_skip_s3_upload self).

(** Lines 92 and 93. *)
Definition assets_ext : list str :=
  List.map lit [".css"; ".svg"; ".ttf"; ".woff"; ".woff2"; ".otf"; ".eot"; ".png"; ".jpg";
                ".jpeg"; ".gif"; ".js"]%string.
Definition rewriteables_ext : list str :=
  List.map lit [".html"; ".htm"; ".js"; ".css"]%string.

(** The object as lines 92-105 would leave it. *)
Definition new_optimizer (source_dir destination_bucket : str) (exclude : list str)
    (output_dir : str) (access_key secret_key : option str) (skip : bool) : Optimizer :=
  mkOptimizer assets_ext rewriteables_ext source_dir output_dir destination_bucket
    [] [] [] [] exclude access_key secret_key skip.

(** ** [_index_source_dir], lines 110-142 *)

(** The body of [for d in dirnames], lines 118-124. *)
Definition index_dir (dirpath : str) (self : Optimizer) (d : str) : Optimizer :=
  let relpath := rel_join dirpath d in
  if excluded (_exclude self) relpath then self
  else with_subdirs self (_subdirs self ++ [relpath]).

(** The body of [for f in fnames], lines 126-140. *)
Definition index_file (dirpath : str) (self : Optimizer) (f : str) : Optimizer :=
  let relpath := rel_join dirpath f in
  if excluded (_exclude self) relpath then self
  else
    let self := with_files self (_files self ++ [relpath]) in
    let ext := snd (splitext f) in
    let self :=
      if bool_decide (ext ∈ _assets_ext self)
      then with_assets_map self (dict_set relpath None (_assets_map self))
      else self in
    if bool_decide (ext ∈ _rewriteables_ext self)
    then with_rewritables self (_rewritables self ++ [relpath])
    else self.

(** The body of [for dirpath, dirnames, fnames in os.walk(...)]. *)
Definition index_entry (self : Optimizer) (e : str * list str * list str) : Optimizer :=
  let '(dirpath, dirnames, fnames) := e in
  fold_left (index_file dirpath) fnames (fold_left (index_dir dirpath) dirnames self).

Definition _index_source_dir (self : Optimizer) (source : option node) : Optimizer :=
  fold_left index_entry (os_walk source) self.

(** ** [_calculate_fingerprints], lines 145-158 *)

(** The body of [for fname in self._assets_map.keys()]. *)
Definition fingerprint_one (source : option node) (self : Optimizer) (fname : str)
    : result Optimizer :=
  do content <- read_file source fname;
  let filehash := hashfile (FileObj content) sha256 default_blocksize in
  match dict_get fname (_assets_map self) with
  | Some _ =>
      Ok (with_assets_map self
            (dict_set fname (Some (convert_filename fname filehash)) (_assets_map self)))
  | None => Raise (KeyError fname)
  end.

Definition _calculate_fingerprints (self : Optimizer) (source : option node)
    : result Optimizer :=
  for_each (fingerprint_one source) (dict_keys (_assets_map self)) self.

(** ** [_write_dirs], lines 161-173 *)

Definition write_dir (out : node) (reldir : str) : result node :=
  if tree_isdir out reldir then Ok out
  else match tree_makedirs out (split_path reldir) with
       | Some out' => Ok out'
       | None => Raise (OSError reldir)
       end.

Definition _write_dirs (self : Optimizer) (out : node) : result node :=
  for_each write_dir (_subdirs self) out.

(** ** [_write_files], lines 175-213 *)

(** [self._assets_map[asset]['new_filename']]. *)
Definition new_filename (self : Optimizer) (asset : str) : result str :=
  match dict_get asset (_assets_map self) with
  | Some (Some n) => Ok n
  | Some None => Raise (KeyError (lit "new_filename"))
  | None => Raise (KeyError asset)
  end.

(** The body of [for asset in assets], line 205. *)
Definition rewrite_step (self : Optimizer) (line asset : str) : result str :=
  do n <- new_filename self asset;
  Ok (line_replace line asset n).

(** Lines 201-205 for one line of the file. *)
Definition rewrite_line (self : Optimizer) (line : str) : result str :=
  for_each (rewrite_step self) (dict_keys (_assets_map self)) line.

(** Lines 200-206: what is written to the destination, line after line. *)
Definition rewrite_text (self : Optimizer) (text : str) : result str :=
  for_each (fun written line => do line' <- rewrite_line self line; Ok (written ++ line'))
           (file_lines text) [].

Definition write_to (out : node) (dest content : str) : result node :=
  match tree_write out (split_path dest) content with
  | Some out' => Ok out'
  | None => Raise (IOError dest)
  end.

(** Lines 184-188: the name of the destination. *)
Definition destination (self : Optimizer) (src_filename : str) : result str :=
  if bool_decide (src_filename ∈ dict_keys (_assets_map self))
  then new_filename self src_filename
  else Ok src_filename.

(** The body of [for src_filename in self._files]. *)
Definition write_file (self : Optimizer) (source : option node) (out : node)
    (src_filename : str) : result node :=
  do dst_filename <- destination self src_filename;
  if bool_decide (src_filename ∈ _rewritables self) then
    (* [open(src, 'r')] *)
    do bytes <- read_file source src_filename;
    (* [open(dest, 'w')] creates or truncates the file first *)
    do out <- write_to out dst_filename [];
    (* [for line in f_src]: the file is decoded as its lines are asked for *)
    do text <- text_read src_filename bytes;
    do text' <- rewrite_text self text;
    write_to out dst_filename text'
  else
    (* [copyfile(src, dest)] *)
    do content <- read_file source src_filename;
    write_to out dst_filename content.

Definition _write_files (self : Optimizer) (source : option node) (out : node)
    : result node :=
  for_each (write_file self source) (_files self) out.

(** ** [_upload_to_bucket], lines 215-269 *)

(** A stored object: its bytes and its [Cache-Control] header. *)
Record s3obj := S3Obj { obj_body : str; obj_cache_control : str }.

(** The requests that change the bucket. *)
Inductive s3_request :=
| S3Put (key : str) (obj : s3obj)
| S3DeleteKeys (keys : list str).

(** The bucket: its objects by key, and the changing requests it has
    received, oldest first. *)
Record s3_bucket := S3Bucket {
  objects : gmap str s3obj;
  requests : list s3_request
}.

(** [[l.key for l in bucket.list()]]. *)
Definition bucket_list (b : s3_bucket) : list str := (map_to_list (objects b)).*1.

(** [bucket.get_key(key)]: [None] when there is no such object. *)
Definition get_key (b : s3_bucket) (key : str) : option s3obj := objects b !! key.

(** [k.set_contents_from_filename(abspath, replace=True, headers=headers)]
    once the file has been read. *)
Definition s3_put (b : s3_bucket) (key : str) (obj : s3obj) : s3_bucket :=
  S3Bucket (<[key := obj]> (objects b)) (requests b ++ [S3Put key obj]).

(** [bucket.delete_keys(keys)]. *)
Definition delete_keys (b : s3_bucket) (keys : list str) : s3_bucket :=
  S3Bucket (foldr delete (objects b) keys) (requests b ++ [S3DeleteKeys keys]).

Definition cache_forever : str := lit "public, max-age=31556926".
Definition cache_never : str := lit "no-cache, max-age=0".

(** The body of [for f in fnames], lines 229-259.  The state of the loop
    is the bucket and the list [to_be_deleted]. *)
Definition upload_file (self : Optimizer) (out : node) (dirpath : str)
    (st : s3_bucket * list str) (f : str) : result (s3_bucket * list str) :=
  let '(bucket, to_be_deleted) := st in
  let relpath := rel_join dirpath f in
  let to_be_deleted := list_remove relpath to_be_deleted in
  let is_asset := bool_decide (snd (splitext f) ∈ _assets_ext self) in
  let k := get_key bucket relpath in
  if bool_decide (k = None) || negb is_asset then
    let cache_control := if is_asset then cache_forever else cache_never in
    do body <- read_file (Some out) relpath;
    Ok (s3_put bucket relpath (S3Obj body cache_control), to_be_deleted)
  else Ok (bucket, to_be_deleted).

(** The body of [for dirpath, dirnames, fnames in os.walk(self._output_dir)]. *)
Definition upload_entry (self : Optimizer) (out : node)
    (st : s3_bucket * list str) (e : str * list str * list str)
    : result (s3_bucket * list str) :=
  let '(dirpath, _, fnames) := e in
  for_each (upload_file self out dirpath) fnames st.

(** [remote] is the bucket [get_bucket] finds; [None] when [connect_s3]
    or [get_bucket] raises a [BotoClientError] or a [BotoServerError] (the
    bucket does not exist, access to it is denied), which line 267 raises
    again as an [OptimizerError].  An exception of another class is not
    caught there; [boto] raises one, [NoAuthHandlerFound], when it finds no
    credentials at all: the worlds described here are those in which it
    finds some. *)
Definition _upload_to_bucket (self : Optimizer) (out : node) (remote : option s3_bucket)
    : result s3_bucket :=
  match remote with
  | None => Raise (OptimizerError (lit "Error uploading to S3"))
  | Some bucket =>
      let to_be_deleted := bucket_list bucket in
      do st <- for_each (upload_entry self out) (walk [] out) (bucket, to_be_deleted);
      Ok (delete_keys (fst st) (snd st))
  end.

(** ** [run], lines 273-286 *)

(** What the pipeline reads and changes: the tree at the source
    directory, the tree at the output directory, and the bucket. *)
Record world := World {
  w_source : option node;
  w_output : node;
  w_remote : option s3_bucket
}.

Definition run (self : Optimizer) (w : world) : result (Optimizer * world) :=
  let self := _index_source_dir self (w_source w) in
  do self <- _calculate_fingerprints self (w_source w);
  do out <- _write_dirs self (w_output w);
  do out <- _write_files self (w_source w) out;
  if negb (_skip_s3_upload self) then
    do bucket <- _upload_to_bucket self out (w_remote w);
    Ok (self, World (w_source w) out (Some bucket))
  else Ok (self, World (w_source w) out (w_remote w)).

(** ** Calls, names and the constructor, lines 67-107 *)

(** The values that reach the constructor. *)
Inductive value :=
| VNone
| VBool (b : bool)
| VStr (s : str)
| VList (l : list str)
| VObj (name : string).

(** A namespace: names and the values bound to them. *)
Definition env := list (string * value).

Fixpoint env_get (name : string) (e : env) : option value :=
  match e with
  | [] => None
  | (n, v) :: e' => if String.eqb n name then Some v else env_get name e'
  end.

(** The parameters of [__init__] after [self], with their defaults
    (line 67). *)
Definition init_params : list (string * option value) :=
  [ ("source_dir", None); ("destination_bucket", None); ("exclude", Some (VList []));
    ("output_dir", Some VNone); ("aws_access_key_id", Some VNone);
    ("aws_secret_access_key", Some VNone) ]%string.

(** Binding the arguments of a call to the parameters: positional
    arguments first, then keywords, then defaults. *)
Fixpoint bind_positional (params : list (string * option value)) (pos : list value)
    : result env :=
  match pos, params with
  | [], _ => Ok []
  | v :: pos', (n, _) :: params' =>
      do e <- bind_positional params' pos'; Ok ((n, v) :: e)
  | _ :: _, [] => Raise (TypeError (lit "__init__() takes at most 7 arguments"))
  end.

Definition bind_keyword (params : list (string * option value)) (e : env)
    (kv : string * value) : result env :=
  if negb (bool_decide (fst kv ∈ List.map fst params)) then
    Raise (TypeError (lit "__init__() got an unexpected keyword argument '"
                      ++ list_ascii_of_string (fst kv) ++ lit "'"))
  else match env_get (fst kv) e with
       | Some _ =>
           Raise (TypeError (lit "__init__() got multiple values for keyword argument '"
                             ++ list_ascii_of_string (fst kv) ++ lit "'"))
       | None => Ok (e ++ [kv])
       end.

Definition bind_default (e : env) (p : string * option value) : result env :=
  match env_get (fst p) e, snd p with
  | Some _, _ => Ok e
  | None, Some v => Ok (e ++ [(fst p, v)])
  | None, None => Raise (TypeError (lit "__init__() takes at least 3 arguments"))
  end.

Definition bind_args (params : list (string * option value)) (pos : list value)
    (kw : list (string * value)) : result env :=
  do e <- bind_positional params pos;
  do e <- for_each (bind_keyword params) kw e;
  for_each bind_default params e.

(** The names bound at the top level of the module, with [logger] bound
    to [logger]: [None] until [main] has run (line 29), the logger object
    afterwards (line 296). *)
Definition module_globals (logger : value) : env :=
  ("logger"%string, logger)
  :: List.map (fun n => (n, VObj n))
       [ "__name__"; "__doc__"; "__file__"; "__package__"; "__builtins__";
         "print_function"; "sys"; "argparse"; "os"; "logging"; "fileinput"; "connect_s3";
         "Key"; "BotoClientError"; "BotoServerError"; "Requirement"; "resource_filename";
         "require"; "sha256"; "copyfile"; "fnmatch"; "mkdtemp"; "__author__"; "__email__";
         "__copyright__"; "__license__"; "__version__"; "hashfile"; "convert_filename";
         "OptimizerError"; "Optimizer"; "main" ]%string.

(** The names of the [builtins] module. *)
Definition builtin_names : list string :=
  [ "abs"; "all"; "any"; "apply"; "basestring"; "bin"; "bool"; "buffer"; "bytearray";
    "bytes"; "callable"; "chr"; "classmethod"; "cmp"; "coerce"; "compile"; "complex";
    "copyright"; "credits"; "delattr"; "dict"; "dir"; "divmod"; "enumerate"; "eval";
    "execfile"; "exit"; "file"; "filter"; "float"; "format"; "frozenset"; "getattr";
    "globals"; "hasattr"; "hash"; "help"; "hex"; "id"; "input"; "int"; "intern";
    "isinstance"; "issubclass"; "iter"; "len"; "license"; "list"; "locals"; "long"; "map";
    "max"; "memoryview"; "min"; "next"; "object"; "oct"; "open"; "ord"; "pow"; "print";
    "property"; "quit"; "range"; "raw_input"; "reduce"; "reload"; "repr"; "reversed";
    "round"; "set"; "setattr"; "slice"; "sorted"; "staticmethod"; "str"; "sum"; "super";
    "tuple"; "type"; "unichr"; "unicode"; "vars"; "xrange"; "zip"; "__import__";
    "True"; "False"; "None"; "NotImplemented"; "Ellipsis"; "__debug__";
    "BaseException"; "Exception"; "StandardError"; "ArithmeticError"; "AssertionError";
    "AttributeError"; "BufferError"; "EOFError"; "EnvironmentError"; "FloatingPointError";
    "GeneratorExit"; "IOError"; "ImportError"; "IndentationError"; "IndexError";
    "KeyError"; "KeyboardInterrupt"; "LookupError"; "MemoryError"; "NameError";
    "NotImplementedError"; "OSError"; "OverflowError"; "ReferenceError"; "RuntimeError";
    "StopIteration"; "SyntaxError"; "SystemError"; "SystemExit"; "TabError"; "TypeError";
    "UnboundLocalError"; "UnicodeDecodeError"; "UnicodeEncodeError"; "UnicodeError";
    "UnicodeTranslateError"; "ValueError"; "ZeroDivisionError"; "Warning"; "UserWarning";
    "DeprecationWarning"; "PendingDeprecationWarning"; "SyntaxWarning"; "RuntimeWarning";
    "FutureWarning"; "ImportWarning"; "UnicodeWarning"; "BytesWarning" ]%string.

(** The names local to [__init__]: its parameters and the names its body
    assigns.  Every other name of the body is looked up in the module's
    globals, then in the builtins. *)
Definition init_local_names : list string :=
  ("self" :: List.map fst init_params ++ ["e"])%string.

Definition load_global (globals : env) (name : string) : result value :=
  match env_get name globals with
  | Some v => Ok v
  | None =>
      if bool_decide (name ∈ builtin_names) then Ok (VObj name)
      else Raise (NameError (list_ascii_of_string name))
  end.

(** Reading the name [name] in the body of [__init__]. *)
Definition load_name (globals locals : env) (name : string) : result value :=
  if bool_decide (name ∈ init_local_names) then
    match env_get name locals with
    | Some v => Ok v
    | None => Raise (NameError (list_ascii_of_string name))
    end
  else load_global globals name.

(** [logger.debug(...)]. *)
Definition logger_debug (globals : env) : result unit :=
  do l <- load_global globals "logger";
  match l with
  | VObj _ => Ok tt
  | _ => Raise (AttributeError (lit "'NoneType' object has no attribute 'debug'"))
  end.

(** What the constructor asks of the operating system. *)
Inductive access_mode := R_OK | W_OK.

Class OSModel := {
  os_state : Type;
  (** [os.path.isdir(path)] *)
  os_isdir : os_state -> str -> bool;
  (** [os.path.isdir(n)] for an integer [n]: [os.stat] takes it as a file
      descriptor *)
  os_isdir_fd : os_state -> Z -> bool;
  (** [os.access(path, mode)] *)
  os_access : os_state -> str -> access_mode -> bool;
  (** [os.makedirs(path)]: [None] when it raises [os.error] *)
  os_makedirs : os_state -> str -> option os_state;
  (** [mkdtemp()]: [None] when it raises *)
  os_mkdtemp : os_state -> option (str * os_state)
}.

(** What the library makes of an argument that is no string.  [os.stat],
    and with it [os.path.isdir], takes an integer as a file descriptor
    ([True] is 1, [False] is 0) and raises [TypeError] on anything else;
    [os.access] and [os.makedirs] raise [TypeError] on whatever is no path. *)
Definition fd_of (b : bool) : Z := if b then 1 else 0.

Definition stat_type_error : exn :=
  TypeError (lit "stat: path should be string, bytes, os.PathLike or integer").
Definition access_type_error : exn :=
  TypeError (lit "access: path should be string, bytes or os.PathLike").
Definition fspath_type_error : exn :=
  TypeError (lit "expected str, bytes or os.PathLike object").

(** [str(b)] *)
Definition str_of_bool (b : bool) : str := lit (if b then "True" else "False").

(** What a typed field keeps of a value. *)
Definition str_of (v : value) : str := match v with VStr s => s | _ => [] end.
Definition opt_str_of (v : value) : option str :=
  match v with VStr s => Some s | _ => None end.
Definition list_of (v : value) : list str := match v with VList l => l | _ => [] end.
Definition bool_of (v : value) : bool := match v with VBool b => b | _ => false end.

(** Lines 80-90: the output directory. *)
Definition init_output_dir `{OSModel} (st : os_state) (output_dir : value)
    : result (str * os_state) :=
  match output_dir with
  | VNone =>
      match os_mkdtemp st with
      | Some r => Ok r
      | None => Raise (OSError (lit "mkdtemp"))
      end
  | VStr q =>
      do st <-
        (if negb (os_isdir st q) then
           match os_makedirs st q with
           | Some st' => Ok st'
           | None =>
               Raise (OptimizerError (q ++ lit " is not a directory and cannot be created"))
           end
         else Ok st);
      if negb (os_access st q W_OK)
      then Raise (OptimizerError (q ++ lit " is not a writable dir"))
      else Ok (q, st)
  | VBool b =>
      (* [os.makedirs(output_dir)] when the descriptor is no directory,
         [os.access(output_dir, os.W_OK)] when it is one *)
      if negb (os_isdir_fd st (fd_of b)) then Raise fspath_type_error
      else Raise access_type_error
  | _ => Raise stat_type_error
  end.

(** Lines 74-78: the checks of the source directory; the path when it
    passes them. *)
Definition check_source_dir `{OSModel} (st : os_state) (source_dir : value) : result str :=
  match source_dir with
  | VStr p =>
      if negb (os_isdir st p) then
        Raise (OptimizerError (p ++ lit " is not a valid path"))
      else if negb (os_access st p R_OK) then
        Raise (OptimizerError (p ++ lit " is not a readable dir"))
      else Ok p
  | VBool b =>
      if negb (os_isdir_fd st (fd_of b)) then
        Raise (OptimizerError (str_of_bool b ++ lit " is not a valid path"))
      else Raise access_type_error
  | _ => Raise stat_type_error
  end.

(** Lines 80-107: the output directory, the attributes, and the last log
    message. *)
Definition init_rest `{OSModel} (globals locals : env) (st : os_state) (p : str)
    : result (Optimizer * os_state) :=
  do output_dir <- load_name globals locals "output_dir";
  do od <- init_output_dir st output_dir;                            (* lines 80-90 *)
  do destination_bucket <- load_name globals locals "destination_bucket";
  do exclude <- load_name globals locals "exclude";
  do access_key <- load_name globals locals "aws_access_key_id";
  do secret_key <- load_name globals locals "aws_secret_access_key";
  do skip <- load_name globals locals "skip_s3_upload";              (* line 105 *)
  do _ <- logger_debug globals;                                      (* line 107 *)
  Ok (new_optimizer p (str_of destination_bucket) (list_of exclude) (fst od)
        (opt_str_of access_key) (opt_str_of secret_key) (bool_of skip),
      snd od).

(** The body of [__init__], lines 72-107, with the arguments bound in
    [locals]. *)
Definition __init__ `{OSModel} (globals locals : env) (st : os_state)
    : result (Optimizer * os_state) :=
  do _ <- logger_debug globals;                                      (* line 72 *)
  do source_dir <- load_name globals locals "source_dir";
  do p <- check_source_dir st source_dir;                            (* lines 74-78 *)
  init_rest globals locals st p.

(** A call of the class [Optimizer] with positional arguments [pos] and
    keyword arguments [kw]. *)
Definition construct `{OSModel} (globals : env) (pos : list value)
    (kw : list (string * value)) (st : os_state) : result (Optimizer * os_state) :=
  do locals <- bind_args init_params pos kw;
  __init__ globals locals st.

(** ** [main], lines 289-328 *)

(** The namespace [parser.parse_args()] returns. *)
Record cli_args := CliArgs {
  a_debug : bool;
  a_source_dir : str;
  a_destination_bucket : str;
  a_exclude : list str;
  a_output_dir : option str;
  a_aws_access_key_id : option str;
  a_aws_secret_access_key : option str;
  a_skip_s3_upload : bool
}.

Definition opt_value (o : option str) : value :=
  match o with Some s => VStr s | None => VNone end.

(** Line 325: [Optimizer(...).run()]. *)
Definition main_try `{OSModel} (args : cli_args) (st : os_state) (w : world)
    : result (Optimizer * world) :=
  do r <- construct (module_globals (VObj "Logger"))
            [VStr (a_source_dir args); VStr (a_destination_bucket args)]
            [ ("exclude", VList (a_exclude args));
              ("output_dir", opt_value (a_output_dir args));
              ("aws_access_key_id", opt_value (a_aws_access_key_id args));
              ("aws_secret_access_key", opt_value (a_aws_secret_access_key args));
              ("skip_s3_upload", VBool (a_skip_s3_upload args)) ]%string
            st;
  run (fst r) w.

(** The exit status of [main] once the arguments are parsed: [exit(1)]
    in the [except] clause, 0 when the [try] block completes. *)
Definition main `{OSModel} (args : cli_args) (st : os_state) (w : world) : Z :=
  match main_try args st w with
  | Ok _ => 0
  | Raise _ => 1
  end.

(** A small operating system for examples: the directories that exist,
    each with its read and write permission; [mkdtemp] always fails. *)
#[export] Instance list_os : OSModel := {|
  os_state := list (str * (bool * bool));
  os_isdir := fun st p => bool_decide (is_Some (dict_get p st));
  os_isdir_fd := fun st n => false;
  os_access := fun st p m =>
    match dict_get p st, m with
    | Some (r, _), R_OK => r
    | Some (_, w), W_OK => w
    | None, _ => false
    end;
  os_makedirs := fun st p =>
    match dict_get p st with
    | Some _ => None
    | None => Some (dict_set p (true, true) st)
    end;
  os_mkdtemp := fun st => None
|}.

(** ** Notions used in the statements *)

(** The last component of a path: what follows its last ['/']. *)
Definition basename (p : str) : str := slice_from p (rfind chr_sep p + 1).

(** The test of the loop of [splitext]: the last component of the stem
    has a character that is no dot. *)
Definition stem_ok (stem : str) : bool :=
  existsb (fun x => negb (Ascii.eqb x chr_dot)) (basename stem).

(** The characters of a hexadecimal digest. *)
Definition hex_chars : str := lit "0123456789abcdef".

(** [p] has the extension [ext] after the stem [stem]: [ext] starts at
    the last dot of the last component of [p], and that component has a
    character other than a dot before it. *)
Definition has_extension (p stem ext : str) : Prop :=
  exists e, ext = chr_dot :: e /\ p = stem ++ ext /\ (chr_dot ∉ e) /\ (chr_sep ∉ e) /\
            stem_ok stem = true.

(** [a] occurs in [s]: [s = u ++ a ++ v] for some [u] and [v]. *)
Definition occurs (a s : str) : Prop := exists u v, s = u ++ a ++ v.

Fixpoint occursb (a s : str) : bool :=
  is_prefix a s || match s with
                   | [] => false
                   | _ :: s' => occursb a s'
                   end.

(** The substitutions of [_write_files] in the order in which line 201
    applies them: every key of [_assets_map] with its new name.  [None]
    when some asset has no new name yet. *)
Fixpoint substitutions_of (m : list (str * option str)) (keys : list str)
    : option (list (str * str)) :=
  match keys with
  | [] => Some []
  | k :: keys' =>
      match dict_get k m, substitutions_of m keys' with
      | Some (Some n), Some rest => Some ((k, n) :: rest)
      | _, _ => None
      end
  end.

Definition substitutions (self : Optimizer) : option (list (str * str)) :=
  substitutions_of (_assets_map self) (dict_keys (_assets_map self)).

(** Replacing one asset after the other. *)
Definition replace_all (subs : list (str * str)) (line : str) : str :=
  fold_left (fun l s => line_replace l (fst s) (snd s)) subs line.

(** A line seen as fields between delimiters: a field is either text
    in which no asset path occurs, or a reference: the original path [a]
    of an asset with the text [pre] before it and [post] after it, as in
    [/css/app.css?v=2]. *)
Inductive field :=
| FText (t : str)
| FRef (pre a post : str).

(** A line: its first field, then each delimiter with the field after it. *)
Definition layout := (field * list (ascii * field))%type.

Definition field_src (f : field) : str :=
  match f with FText t => t | FRef pre a post => pre ++ a ++ post end.

(** The field after the rewrite: in a reference the path becomes the new
    name. *)
Definition field_dst (subs : list (str * str)) (f : field) : str :=
  match f with
  | FText t => t
  | FRef pre a post =>
      pre ++ match dict_get a subs with Some n => n | None => a end ++ post
  end.

Definition render (g : field -> str) (l : layout) : str :=
  g (fst l) ++ flat_map (fun df => fst df :: g (snd df)) (snd l).

(** The fields fit the substitutions.  No asset path occurs in a text.
    In a reference, [a] is the path of a registered asset and is UTF-8;
    it occurs neither earlier in the field than shown nor in [post]; and
    no other asset path occurs in the field, be it with [a] or with the
    new name of [a] in its place. *)
Definition field_ok (subs : list (str * str)) (f : field) : bool :=
  match f with
  | FText t => forallb (fun s => negb (occursb (fst s) t)) subs
  | FRef pre a post =>
      match dict_get a subs with
      | None => false
      | Some n =>
          utf8_valid a
          && negb (occursb a (pre ++ removelast a)) && negb (occursb a post)
          && forallb (fun s =>
                        str_eqb (fst s) a
                        || (negb (occursb (fst s) (pre ++ a ++ post))
                            && negb (occursb (fst s) (pre ++ n ++ post)))) subs
      end
  end.

Definition layout_ok (delims : list ascii) (subs : list (str * str)) (l : layout) : bool :=
  field_ok subs (fst l)
  && forallb (fun df => bool_decide (fst df ∈ delims) && field_ok subs (snd df)) (snd l).

(** The original paths are distinct, non-empty and free of delimiters. *)
Definition delimited (delims : list ascii) (subs : list (str * str)) : bool :=
  bool_decide (NoDup (dict_keys subs)) &&
  forallb (fun s =>
             negb (str_eqb (fst s) [])
             && forallb (fun d => negb (bool_decide (d ∈ fst s))) delims)
          subs.

(** What the claim of completeness asks of a rewritten text: wherever the
    source has the path of a registered asset, the output has its new name. *)
Definition rewrite_complete (self : Optimizer) (text out : str) : Prop :=
  forall a n, dict_get a (_assets_map self) = Some (Some n) ->
              occurs a text -> occurs n out.

(** The text written for the rewritable [f] by a run that starts from
    [self] over the source [source]. *)
Definition rewritten (self : Optimizer) (source : option node) (f : str) : result str :=
  do self' <- _calculate_fingerprints (_index_source_dir self source) source;
  do bytes <- read_file source f;
  do text <- text_read f bytes;
  rewrite_text self' text.

(** Two trees with the same files and directories, whatever the order in
    which their directories list them. *)
#[warnings="-register-all"]
Inductive same_tree : node -> node -> Prop :=
| same_file c : same_tree (File c) (File c)
| same_dir es1 es es2 :
    Permutation es1 es ->
    Forall2 (fun e e' => fst e = fst e' /\ same_tree (snd e) (snd e')) es es2 ->
    same_tree (Dir es1) (Dir es2).

(** The elements of a list in the order of their first occurrence. *)
Definition first_occurrences (l : list str) : list str :=
  fold_left (fun acc x => if bool_decide (x ∈ acc) then acc else acc ++ [x]) l [].

(** The paths whose extension is one of [exts]. *)
Definition with_ext (exts : list str) (paths : list str) : list str :=
  List.filter (fun p => bool_decide (snd (splitext p) ∈ exts)) paths.

(** What a step of the indexing may do to the object: the configuration
    stays, and whatever joins one of the four collections is not excluded. *)
Definition index_extends (self self' : Optimizer) : Prop :=
  _exclude self' = _exclude self /\
  _assets_ext self' = _assets_ext self /\
  _rewriteables_ext self' = _rewriteables_ext self /\
  forall p, excluded (_exclude self) p = true ->
    (p ∈ _subdirs self' -> p ∈ _subdirs self) /\
    (p ∈ _files self' -> p ∈ _files self) /\
    (p ∈ dict_keys (_assets_map self') -> p ∈ dict_keys (_assets_map self)) /\
    (p ∈ _rewritables self' -> p ∈ _rewritables self).

(** The keys of [_assets_map] are the indexed files with an asset
    extension, in the order in which they were indexed. *)
Definition keys_follow_files (self : Optimizer) : Prop :=
  dict_keys (_assets_map self)
  = first_occurrences (with_ext (_assets_ext self) (_files self)).

(** ** Well-formed trees *)

(** The name of a directory entry: not empty, without ['/']. *)
Definition wf_name (n : str) : bool :=
  negb (str_eqb n []) && negb (bool_decide (chr_sep ∈ n)).

(** A tree as a file system holds it: in every directory the names are
    well formed and distinct. *)
Fixpoint wf_tree (t : node) : bool :=
  match t with
  | File _ => true
  | Dir es =>
      bool_decide (NoDup (List.map fst es))
      && forallb (fun e => wf_name (fst e)) es
      && forallb (fun e => wf_tree (snd e)) es
  end.

(** The components of a directory path relative to the top of a walk. *)
Definition comps (dirpath : str) : list str :=
  match dirpath with
  | [] => []
  | _ :: _ => split_path dirpath
  end.

(** The files a walk meets, each with the directory it lies in, in the
    order of the walk. *)
Definition walk_files (t : node) : list (str * str) :=
  flat_map (fun e => List.map (fun f => (fst (fst e), f)) (snd e)) (walk [] t).

(** Their paths relative to the top: the keys of [_upload_to_bucket]. *)
Definition local_keys (t : node) : list str :=
  List.map (fun df => rel_join (fst df) (snd df)) (walk_files t).

(** Line 240 for a key. *)
Definition is_asset_key (self : Optimizer) (key : str) : bool :=
  bool_decide (snd (splitext key) ∈ _assets_ext self).

(** The body of the two loops of [_upload_to_bucket] for one file. *)
Definition upload_step (self : Optimizer) (out : node) (st : s3_bucket * list str)
    (df : str * str) : result (s3_bucket * list str) :=
  upload_file self out (fst df) st (snd df).

(** Lines 243-244 for a key: upload when there is no such object, or when
    the file is no asset. *)
Definition should_upload (self : Optimizer) (b : s3_bucket) (key : str) : bool :=
  bool_decide (get_key b key = None) || negb (is_asset_key self key).

(** Lines 250-256 for a key. *)
Definition cache_control_of (self : Optimizer) (key : str) : str :=
  if is_asset_key self key then cache_forever else cache_never.

(** The keys of a list of files with their directories. *)
Definition keys_of (fl : list (str * str)) : list str :=
  List.map (fun df => rel_join (fst df) (snd df)) fl.

(** [to_be_deleted] after the removal of each of [keys]. *)
Definition remove_all (keys : list str) (to_be_deleted : list str) : list str :=
  fold_left (fun l k => list_remove k l) keys to_be_deleted.

(** ** Example sites *)

Definition example_optimizer (exclude : list str) : Optimizer :=
  new_optimizer (lit "site") (lit "example.org") exclude (lit "out") None None false.

(** What [_calculate_fingerprints] leaves, [self] itself when it raises. *)
Definition fingerprinted (self : Optimizer) (source : option node) : Optimizer :=
  match _calculate_fingerprints self source with
  | Ok self' => self'
  | Raise _ => self
  end.

(** Two style sheets with the same bytes. *)
Definition twin_site : option node :=
  Some (Dir [(lit "a.css", File (lit "A")); (lit "b.css", File (lit "A"))]).
Definition twin_index : Optimizer := _index_source_dir (example_optimizer []) twin_site.
Definition twin_fingerprinted : Optimizer := fingerprinted twin_index twin_site.

(** One style sheet. *)
Definition app_site : option node := Some (Dir [(lit "app.css", File (lit "A"))]).
Definition app_index : Optimizer := _index_source_dir (example_optimizer []) app_site.
Definition app_fingerprinted : Optimizer := fingerprinted app_index app_site.

(** A page in a directory. *)
Definition private_site : option node :=
  Some (Dir [(lit "private", Dir [(lit "secret.html", File (lit "<p>secret</p>"))])]).

(** The value of a result, [d] when it is an exception. *)
Definition value_or {A} (d : A) (r : result A) : A :=
  match r with Ok a => a | Raise _ => d end.

(** A page that refers to the style sheet between quotes. *)
Definition page_text : str := lit "<link href='app.css'>
<p>app</p>
".
Definition page_site : option node :=
  Some (Dir [(lit "index.html", File page_text); (lit "app.css", File (lit "A"))]).
Definition page_index : Optimizer := _index_source_dir (example_optimizer []) page_site.
Definition page_fingerprinted : Optimizer := fingerprinted page_index page_site.
Definition page_subs : list (str * str) :=
  [(lit "app.css", lit "app.559aead08264d5795d3909718cdd05abd49572e84fe55590eef31a88a08fdffd.css")].
Definition page_layouts : list layout :=
  [ (FText (lit "<link href="),
     [("'"%char, FRef [] (lit "app.css") []); ("'"%char, FText (lit ">
"))]);
    (FText (lit "<p>app</p>
"), []) ].

(** A script in a directory, with the same name as a script at the root. *)
Definition nested_text : str := lit "<script src='b/a.js'></script>".
Definition nested_site : option node :=
  Some (Dir [ (lit "a.js", File (lit "one"));
              (lit "index.html", File nested_text);
              (lit "b", Dir [(lit "a.js", File (lit "two"))]) ]).
Definition nested_fingerprinted : Optimizer :=
  fingerprinted (_index_source_dir (example_optimizer []) nested_site) nested_site.

(** Two listings of one directory: a page and two scripts, the name of
    one script ending with the name of the other. *)
Definition listing1 : node :=
  Dir [ (lit "ax.js", File (lit "one")); (lit "x.js", File (lit "two"));
        (lit "index.html", File (lit "<script src='ax.js'></script>")) ].
Definition listing2 : node :=
  Dir [ (lit "x.js", File (lit "two")); (lit "ax.js", File (lit "one"));
        (lit "index.html", File (lit "<script src='ax.js'></script>")) ].

(** The first listing with a backup file of content [c] beside it. *)
Definition backup (c : str) : list (str * node) :=
  [ (lit "ax.js", File (lit "one")); (lit "x.js", File (lit "two"));
    (lit "index.html", File (lit "<script src='ax.js'></script>"));
    (lit "notes.bak", File c) ].

(** An output tree whose style sheet is in the bucket already. *)
Definition synced_out : node :=
  Dir [(lit "index.html", File (lit "<p>hello</p>")); (lit "style.1111.css", File (lit "A"))].
Definition synced_remote : s3_bucket :=
  S3Bucket {[ lit "style.1111.css" := S3Obj (lit "A") cache_forever ]} [].

(** An output tree with a new version of a style sheet, and a bucket
    with the old one. *)
Definition stale_out : node := Dir [(lit "old.2222.css", File (lit "new"))].
Definition stale_remote : s3_bucket :=
  S3Bucket {[ lit "old.1111.css" := S3Obj (lit "old") cache_forever ]} [].

(** ** Tactics *)

(** Settles [true = (a >? b)] and [false = (a >? b)] by arithmetic. *)
Ltac gtb_lia :=
  symmetry; rewrite Z.gtb_ltb; first [apply Z.ltb_lt; lia | apply Z.ltb_ge; lia].


(** Settles a decidable proposition by evaluating its decision. *)
Ltac decide_by_compute := apply (bool_decide_unpack _); vm_compute; exact I.

(** Two different literals are different. *)
Ltac literal_neq :=
  let Hx := fresh "Hx" in intros Hx; vm_compute in Hx; discriminate Hx.

(** ** Notions used in the further properties *)

(** The directories a walk meets, as paths relative to the top, in the
    order in which the walk lists them. *)
Definition walk_dirs (t : node) : list str :=
  flat_map (fun e => List.map (rel_join (fst (fst e))) (snd (fst e))) (walk [] t).

(** The files and the directories below a source root, none when the
    root is missing. *)
Definition source_files (source : option node) : list str :=
  match source with Some t => local_keys t | None => [] end.
Definition source_dirs (source : option node) : list str :=
  match source with Some t => walk_dirs t | None => [] end.

(** The paths that match none of the patterns. *)
Definition not_excluded (exclude : list str) (paths : list str) : list str :=
  List.filter (fun p => negb (excluded exclude p)) paths.

(** A pattern, or a part of one, in which no character is special to
    [fnmatch]: no ['*'], ['?'] or ['[']. *)
Definition literal_pattern (pat : str) : bool :=
  forallb (fun c => negb (Ascii.eqb c "*") && negb (Ascii.eqb c "?")
                    && negb (Ascii.eqb c "[")) pat.

(** The directory of every file of [t] that is not excluded is made by
    [_write_dirs]: it is the top, or it lies on the path of a directory of
    [t] that is not excluded ([os.makedirs] makes the directories above
    the one it is asked for). *)
Definition parents_made (exclude : list str) (t : node) : bool :=
  forallb (fun p =>
             excluded exclude p
             || bool_decide (removelast (split_path p) = [])
             || existsb (fun d => negb (excluded exclude d)
                                  && bool_decide (removelast (split_path p)
                                                  `prefix_of` split_path d))
                        (walk_dirs t))
          (local_keys t).

(** Every rewritable file of [t] that is not excluded is UTF-8. *)
Definition texts_decode (exclude : list str) (t : node) : bool :=
  forallb (fun p =>
             excluded exclude p
             || negb (bool_decide (snd (splitext p) ∈ rewriteables_ext))
             || match read_file (Some t) p with
                | Ok bytes => utf8_valid bytes
                | Raise _ => true
                end)
          (local_keys t).

(** The path with the components [cs], a ['/'] between two of them:
    what [split_path] takes apart. *)
Fixpoint unsplit (cs : list str) : str :=
  match cs with
  | [] => []
  | c :: cs' =>
      match cs' with
      | [] => c
      | _ :: _ => c ++ chr_sep :: unsplit cs'
      end
  end.

(** What is found at the components [q] below [t]: a file, a directory. *)
Definition is_file_at (t : node) (q : list str) : Prop :=
  exists c, tree_get t q = Some (File c).
Definition is_dir_at (t : node) (q : list str) : Prop :=
  exists es, tree_get t q = Some (Dir es).

(** The directory [d] cannot be made below [out]: a file lies on its
    path. *)
Definition blocked (out : node) (d : str) : Prop :=
  exists p, p `prefix_of` split_path d /\ is_file_at out p.

(** What [_write_files] writes for the file [f]: for a rewritable file
    the text read from it, rewritten; for any other the bytes of the
    source. *)
Definition written_content (self : Optimizer) (source : option node) (f : str)
    : result str :=
  do bytes <- read_file source f;
  if bool_decide (f ∈ _rewritables self) then
    do text <- text_read f bytes;
    rewrite_text self text
  else Ok bytes.

(** No directory of the tree has a name with the extension of an asset
    (a directory called [fonts.css], say). *)
Fixpoint plain_dirs (t : node) : bool :=
  match t with
  | File _ => true
  | Dir es =>
      forallb (fun e => match snd e with
                        | File _ => true
                        | Dir _ => negb (bool_decide (snd (splitext (fst e)) ∈ assets_ext))
                                   && plain_dirs (snd e)
                        end) es
  end.

(** What the loop of [_write_files] relies on, for the object [self] and
    the source tree [t]: the top of the output tree and every indexed
    directory are directories, and the output has no directory that the
    source does not have. *)
Definition ready (self : Optimizer) (t out : node) : Prop :=
  is_dir_at out [] /\
  (forall d, d ∈ _subdirs self -> is_dir_at out (split_path d)) /\
  (forall q, is_dir_at out q -> q = [] \/ is_dir_at t q).

(** A page, a style sheet and a directory that is not to be published. *)
Definition mixed_site : node :=
  Dir [ (lit "index.html", File page_text);
        (lit "app.css", File (lit "A"));
        (lit "private", Dir [(lit "secret.html", File (lit "<p>secret</p>"))]) ].
(** * Properties *)

(** ** Sanity checks of the helpers *)

Example splitext_app_css : splitext (lit "css/app.min.css") = (lit "css/app.min", lit ".css").
Proof. reflexivity. Qed.

Example splitext_dotfile : splitext (lit "v1.2/.htaccess") = (lit "v1.2/.htaccess", []).
Proof. reflexivity. Qed.

Example convert_filename_app : convert_filename (lit "app.css") (lit "0f") = lit "app.0f.css".
Proof. reflexivity. Qed.

Example sha256_empty :
  SHA256.hexdigest [] = lit "e3b0c44298fc1c149afbf4c8996fb92427ae41e4649b934ca495991b7852b855".
Proof. vm_compute. reflexivity. Qed.

Example sha256_abc :
  SHA256.hexdigest (lit "abc") = lit "ba7816bf8f01cfea414140de5dae2223b00361a396177a9cb410ff61f20015ad".
Proof. vm_compute. reflexivity. Qed.

Example sha256_two_blocks :
  SHA256.hexdigest (lit "abcdbcdecdefdefgefghfghighijhijkijkljklmklmnlmnomnopnopq")
  = lit "248d6a61d20638b8e5c026930c3e6039a33ce45964ff2167f6ecedd419db06c1".
Proof. vm_compute. reflexivity. Qed.

Example fnmatch_literal_is_whole_path :
  fnmatch (lit "private/secret.html") (lit "private") = false.
Proof. reflexivity. Qed.

Example fnmatch_star_crosses_separators :
  fnmatch (lit "private/secret.html") (lit "private*") = true.
Proof. reflexivity. Qed.

Example fnmatch_class : fnmatch (lit "a.css") (lit "[!b-z].c?s") = true.
Proof. reflexivity. Qed.

Example fnmatch_unclosed_bracket : fnmatch (lit "[.css") (lit "[.c*") = true.
Proof. reflexivity. Qed.

Example str_replace_leftmost : str_replace (lit "aaa") (lit "aa") (lit "b") = lit "ba".
Proof. reflexivity. Qed.

Example str_replace_empty_pattern : str_replace (lit "ab") [] (lit "-") = lit "-a-b-".
Proof. reflexivity. Qed.

Example utf8_valid_accepts :
  utf8_valid (lit "caf" ++ ["195"; "169"; " "; "226"; "130"; "172"]%char) = true.
Proof. reflexivity. Qed.

Example utf8_valid_latin1 : utf8_valid (lit "caf" ++ ["233"%char]) = false.
Proof. reflexivity. Qed.

Example utf8_valid_overlong : utf8_valid ["192"; "128"]%char = false.
Proof. reflexivity. Qed.

Example utf8_valid_surrogate : utf8_valid ["237"; "160"; "128"]%char = false.
Proof. reflexivity. Qed.

Example utf8_valid_truncated : utf8_valid ["226"; "130"]%char = false.
Proof. reflexivity. Qed.

Example translate_newlines_all_forms :
  translate_newlines false ["a"; "013"; "010"; "b"; "013"; "c"; "010"; "013"; "013"; "010"]%char
  = ["a"; "010"; "b"; "010"; "c"; "010"; "010"; "010"]%char.
Proof. reflexivity. Qed.

Example file_lines_keep_newlines :
  file_lines (lit "ab
cd") = [lit "ab
"; lit "cd"].
Proof. reflexivity. Qed.

Example walk_top_down :
  walk [] (Dir [ (lit "js", Dir [(lit "app.js", File [])]); (lit "index.html", File []) ])
  = [ ([], [lit "js"], [lit "index.html"]); (lit "js", [], [lit "app.js"]) ].
Proof. reflexivity. Qed.

(** The scenario of a page and its style sheet, run against an empty
    bucket: the page is rewritten and uploaded without caching, the style
    sheet is uploaded under its fingerprinted name for a year. *)
Example run_page_and_style_sheet :
  match run (example_optimizer []) (World page_site (Dir []) (Some (S3Bucket ∅ []))) with
  | Ok (_, World _ out (Some bucket)) =>
      local_keys out
      = [ lit "index.html";
          lit "app.559aead08264d5795d3909718cdd05abd49572e84fe55590eef31a88a08fdffd.css" ]
      /\ read_file (Some out) (lit "index.html")
         = Ok (lit "<link href='app.559aead08264d5795d3909718cdd05abd49572e84fe55590eef31a88a08fdffd.css'>
<p>app</p>
")
      /\ requests bucket
         = [ S3Put (lit "index.html")
               (S3Obj (lit "<link href='app.559aead08264d5795d3909718cdd05abd49572e84fe55590eef31a88a08fdffd.css'>
<p>app</p>
") (lit "no-cache, max-age=0"));
             S3Put (lit "app.559aead08264d5795d3909718cdd05abd49572e84fe55590eef31a88a08fdffd.css")
               (S3Obj (lit "A") (lit "public, max-age=31556926"));
             S3DeleteKeys [] ]
  | _ => False
  end.
Proof. vm_compute. repeat split. Qed.

(** ** [rfind] and [os.path.splitext] *)

Section rfind_facts.
Variable c : ascii.

Lemma rfind_from_notin s i acc : (c ∉ s) → rfind_from c s i acc = acc.
Proof.
  revert i acc. induction s as [|x s IH]; intros i acc Hn; simpl; [done|].
  apply not_elem_of_cons in Hn as [Hx Hs].
  rewrite IH by done.
  destruct (Ascii.eqb_spec x c); congruence.
Qed.

Lemma rfind_from_last a b i acc :
  (c ∉ b) → rfind_from c (a ++ c :: b) i acc = i + Z.of_nat (length a).
Proof.
  revert i acc. induction a as [|x a IH]; intros i acc Hn; simpl.
  - rewrite Ascii.eqb_refl, rfind_from_notin by done. lia.
  - rewrite IH by done. lia.
Qed.

Lemma rfind_notin s : (c ∉ s) → rfind c s = -1.
Proof. apply rfind_from_notin. Qed.

Lemma rfind_last a b : (c ∉ b) → rfind c (a ++ c :: b) = Z.of_nat (length a).
Proof. intros. unfold rfind. rewrite rfind_from_last by done. lia. Qed.

(** [rfind] finds either nothing or the last occurrence. *)
Lemma rfind_cases s :
  ((c ∉ s) ∧ rfind c s = -1) \/
  (exists a b, s = a ++ c :: b /\ (c ∉ b) ∧ rfind c s = Z.of_nat (length a)).
Proof.
  destruct (decide (c ∈ s)) as [Hin|Hn].
  - right. apply list_elem_of_split_r in Hin as (a & b & -> & Hb).
    exists a, b. auto using rfind_last.
  - left. auto using rfind_notin.
Qed.

Lemma rfind_bounds s : -1 <= rfind c s < Z.of_nat (length s).
Proof.
  destruct (rfind_cases s) as [[_ ->]|(a & b & -> & _ & ->)].
  - lia.
  - rewrite length_app. simpl. lia.
Qed.

Lemma rfind_app_notin s t : (c ∉ t) → rfind c (s ++ t) = rfind c s.
Proof.
  intros Ht. destruct (rfind_cases s) as [[Hs ->]|(a & b & -> & Hb & ->)].
  - apply rfind_notin. rewrite not_elem_of_app. done.
  - rewrite <- app_assoc. simpl. apply rfind_last.
    rewrite not_elem_of_app. done.
Qed.
End rfind_facts.

Lemma basename_no_sep p : (chr_sep ∉ p) → basename p = p.
Proof. intros H. unfold basename. rewrite rfind_notin by done. reflexivity. Qed.

Lemma basename_last d b : (chr_sep ∉ b) → basename (d ++ chr_sep :: b) = b.
Proof.
  intros H. unfold basename, slice_from. rewrite rfind_last by done.
  replace (Z.to_nat (Z.of_nat (length d) + 1)) with (length d + 1)%nat by lia.
  rewrite skipn_app, skipn_all2 by lia.
  replace (length d + 1 - length d)%nat with 1%nat by lia. reflexivity.
Qed.

Lemma basename_app_notin s t : (chr_sep ∉ t) → basename (s ++ t) = basename s ++ t.
Proof.
  intros Ht. destruct (rfind_cases chr_sep s) as [[Hs _]|(a & b & -> & Hb & _)].
  - rewrite !basename_no_sep; [done..|]. rewrite not_elem_of_app. done.
  - rewrite <- app_assoc. simpl. rewrite !basename_last; [done..|].
    rewrite not_elem_of_app. done.
Qed.

Lemma splitext_scan_spec p i n :
  0 <= i -> (Z.to_nat i + n <= length p)%nat ->
  splitext_scan p i n
  = existsb (fun x => negb (Ascii.eqb x chr_dot)) (firstn n (skipn (Z.to_nat i) p)).
Proof.
  revert i. induction n as [|n IH]; intros i Hi Hlen; simpl; [done|].
  unfold slice_one.
  destruct (skipn (Z.to_nat i) p) as [|x rest] eqn:Hs.
  { apply (f_equal length) in Hs. rewrite length_skipn in Hs. simpl in Hs. lia. }
  simpl. rewrite IH by lia.
  replace (Z.to_nat (i + 1)) with (S (Z.to_nat i)) by lia.
  assert (skipn (S (Z.to_nat i)) p = rest) as ->.
  { change (S (Z.to_nat i)) with (1 + Z.to_nat i)%nat.
    rewrite <- skipn_skipn, Hs. reflexivity. }
  unfold str_eqb. destruct (Ascii.eqb_spec x chr_dot) as [->|Hne]; simpl.
  - reflexivity.
  - rewrite bool_decide_eq_false_2 by congruence. reflexivity.
Qed.

(** [splitext] of a path whose last dot is known. *)
Lemma splitext_dotted stem e :
  (chr_dot ∉ e) → (chr_sep ∉ e) →
  splitext (stem ++ chr_dot :: e)
  = if stem_ok stem then (stem, chr_dot :: e) else (stem ++ chr_dot :: e, []).
Proof.
  intros Hdot Hsep. unfold splitext.
  rewrite (rfind_last chr_dot) by done.
  rewrite (rfind_app_notin chr_sep).
  2:{ rewrite not_elem_of_cons. split; [discriminate|done]. }
  pose proof (rfind_bounds chr_sep stem) as Hb.
  replace (Z.of_nat (length stem) >? rfind chr_sep stem) with true by gtb_lia.
  simpl. rewrite splitext_scan_spec.
  2: lia.
  2:{ rewrite length_app. lia. }
  rewrite skipn_app.
  replace (Z.to_nat (rfind chr_sep stem + 1) - length stem)%nat with 0%nat by lia.
  simpl skipn at 2.
  rewrite firstn_app.
  replace (Z.to_nat (Z.of_nat (length stem) - (rfind chr_sep stem + 1))
           - length (skipn (Z.to_nat (rfind chr_sep stem + 1)) stem))%nat with 0%nat
    by (rewrite length_skipn; lia).
  rewrite firstn_all2 by (rewrite length_skipn; lia).
  simpl. rewrite app_nil_r. fold (slice_from stem (rfind chr_sep stem + 1)).
  fold (basename stem). fold (stem_ok stem).
  destruct (stem_ok stem); [|done].
  unfold slice_to, slice_from. rewrite Nat2Z.id.
  rewrite firstn_app, firstn_all, Nat.sub_diag, skipn_app, skipn_all, Nat.sub_diag.
  simpl. rewrite app_nil_r. reflexivity.
Qed.

(** Every path either has no extension, or splits at its last dot. *)
Lemma splitext_cases p :
  splitext p = (p, []) \/
  (exists stem e, p = stem ++ chr_dot :: e /\ (chr_dot ∉ e) ∧ (chr_sep ∉ e) ∧
                  stem_ok stem = true /\ splitext p = (stem, chr_dot :: e)).
Proof.
  destruct (rfind_cases chr_dot p) as [[Hn Hr]|(a & e & -> & He & Hr)].
  - left. unfold splitext. rewrite Hr.
    pose proof (rfind_bounds chr_sep p).
    replace (-1 >? rfind chr_sep p) with false by gtb_lia. reflexivity.
  - destruct (decide (chr_sep ∈ e)) as [Hin|Hsep].
    + left. apply list_elem_of_split_r in Hin as (e1 & e2 & -> & He2).
      unfold splitext. rewrite Hr.
      replace (a ++ chr_dot :: e1 ++ chr_sep :: e2)
        with ((a ++ chr_dot :: e1) ++ chr_sep :: e2) by (rewrite <- app_assoc; done).
      rewrite (rfind_last chr_sep) by done. rewrite length_app. simpl.
      replace (Z.of_nat (length a) >? Z.of_nat (length a + S (length e1))) with false by gtb_lia.
      reflexivity.
    + rewrite splitext_dotted by done.
      destruct (stem_ok a) eqn:Hok; [right|left; done].
      exists a, e. done.
Qed.

Lemma splitext_app p : fst (splitext p) ++ snd (splitext p) = p.
Proof.
  destruct (splitext_cases p) as [->|(stem & e & -> & _ & _ & _ & ->)]; simpl.
  - apply app_nil_r.
  - reflexivity.
Qed.

(** The extension is decided by the last component alone (line 133 takes
    it from the file name, line 240 too). *)
Lemma splitext_ext_last d b :
  (chr_sep ∉ b) → snd (splitext (d ++ chr_sep :: b)) = snd (splitext b).
Proof.
  intros Hb.
  destruct (rfind_cases chr_dot b) as [[Hn Hr]|(a & e & -> & He & Hr)].
  - assert (forall q, rfind chr_dot q < rfind chr_sep (q ++ chr_sep :: b) ->
                      splitext (q ++ chr_sep :: b) = (q ++ chr_sep :: b, [])) as Hno.
    { intros q Hq.
      assert (rfind chr_dot (q ++ chr_sep :: b) = rfind chr_dot q) as Hd.
      { apply rfind_app_notin. rewrite not_elem_of_cons. split; [discriminate|done]. }
      unfold splitext. rewrite Hd.
      replace (rfind chr_dot q >? rfind chr_sep (q ++ chr_sep :: b)) with false by gtb_lia.
      reflexivity. }
    rewrite Hno.
    + unfold splitext. rewrite Hr.
      pose proof (rfind_bounds chr_sep b).
      replace (-1 >? rfind chr_sep b) with false by gtb_lia. reflexivity.
    + rewrite (rfind_last chr_sep) by done.
      pose proof (rfind_bounds chr_dot d). lia.
  - rewrite not_elem_of_app, not_elem_of_cons in Hb. destruct Hb as (Ha & _ & Hse).
    replace (d ++ chr_sep :: a ++ chr_dot :: e)
      with ((d ++ chr_sep :: a) ++ chr_dot :: e) by (rewrite <- app_assoc; done).
    rewrite !splitext_dotted by done.
    unfold stem_ok. rewrite basename_last, (basename_no_sep a) by done.
    destruct (existsb _ a); reflexivity.
Qed.

Lemma splitext_ext_basename p : snd (splitext p) = snd (splitext (basename p)).
Proof.
  destruct (rfind_cases chr_sep p) as [[Hs _]|(a & b & -> & Hb & _)].
  - rewrite basename_no_sep; done.
  - rewrite basename_last, splitext_ext_last; done.
Qed.

Lemma basename_rel_join dirpath f :
  dirpath <> [] -> basename (rel_join dirpath f) = basename (chr_sep :: f).
Proof.
  intros Hd. destruct dirpath as [|c d]; [done|]. simpl rel_join.
  change (c :: d ++ chr_sep :: f) with ((c :: d) ++ chr_sep :: f).
  destruct (rfind_cases chr_sep f) as [[Hs _]|(a & b & -> & Hb & _)].
  - rewrite basename_last by done. apply (eq_sym (basename_last [] f Hs)).
  - replace ((c :: d) ++ chr_sep :: a ++ chr_sep :: b)
      with (((c :: d) ++ chr_sep :: a) ++ chr_sep :: b) by (rewrite <- app_assoc; done).
    rewrite basename_last by done.
    apply (eq_sym (basename_last (chr_sep :: a) b Hb)).
Qed.

Lemma splitext_ext_rel_join dirpath f :
  snd (splitext (rel_join dirpath f)) = snd (splitext f).
Proof.
  destruct dirpath as [|c d]; [done|].
  rewrite splitext_ext_basename, basename_rel_join by done.
  rewrite <- splitext_ext_basename.
  destruct (rfind_cases chr_sep f) as [[Hs _]|(a & b & -> & Hb & _)].
  - apply (splitext_ext_last [] f Hs).
  - change (chr_sep :: a ++ chr_sep :: b) with ((chr_sep :: a) ++ chr_sep :: b).
    rewrite (splitext_ext_last (chr_sep :: a) b Hb).
    rewrite (splitext_ext_last a b Hb). reflexivity.
Qed.

(** ** [convert_filename] *)

Lemma convert_filename_eq filename filehash :
  convert_filename filename filehash
  = fst (splitext filename) ++ chr_dot :: filehash ++ snd (splitext filename).
Proof. reflexivity. Qed.

(** With an extension, the digest goes between the stem and the extension. *)
Lemma convert_filename_ext p stem ext h :
  has_extension p stem ext -> convert_filename p h = stem ++ chr_dot :: h ++ ext.
Proof.
  intros (e & -> & -> & Hd & Hs & Hok).
  rewrite convert_filename_eq, splitext_dotted, Hok by done. reflexivity.
Qed.

(** Without one, it goes at the end. *)
Lemma convert_filename_noext p h :
  (forall stem ext, ~ has_extension p stem ext) -> convert_filename p h = p ++ chr_dot :: h.
Proof.
  intros Hno. rewrite convert_filename_eq.
  destruct (splitext_cases p) as [->|(stem & e & Hp & Hd & Hs & Hok & _)].
  - simpl. rewrite app_nil_r. reflexivity.
  - exfalso. apply (Hno stem (chr_dot :: e)). exists e. done.
Qed.

(** The stem and extension of a path are unique. *)
Lemma has_extension_unique p stem1 ext1 stem2 ext2 :
  has_extension p stem1 ext1 -> has_extension p stem2 ext2 ->
  stem1 = stem2 /\ ext1 = ext2.
Proof.
  intros (e1 & -> & -> & Hd1 & _ & _) (e2 & -> & Heq & Hd2 & _ & _).
  apply not_elem_of_app_cons_inv_r in Heq as (-> & _ & ->); done.
Qed.

(** A digest without ['.'] and ['/'] can be read back from the new name,
    and so can the original name. *)
Lemma convert_filename_inj f1 f2 h1 h2 :
  (chr_dot ∉ h1) -> (chr_sep ∉ h1) -> (chr_dot ∉ h2) -> (chr_sep ∉ h2) ->
  convert_filename f1 h1 = convert_filename f2 h2 -> f1 = f2 /\ h1 = h2.
Proof.
  intros Hd1 Hs1 Hd2 Hs2. rewrite !convert_filename_eq.
  destruct (splitext_cases f1) as [E1|(s1 & e1 & -> & He1 & Hse1 & Hok1 & E1)];
    destruct (splitext_cases f2) as [E2|(s2 & e2 & -> & He2 & Hse2 & Hok2 & E2)];
    rewrite E1, E2; simpl; rewrite ?app_nil_r; intros Heq.
  - apply not_elem_of_app_cons_inv_r in Heq as (-> & _ & ->); done.
  - exfalso.
    replace (s2 ++ chr_dot :: h2 ++ chr_dot :: e2)
      with ((s2 ++ chr_dot :: h2) ++ chr_dot :: e2) in Heq by (rewrite <- app_assoc; done).
    apply not_elem_of_app_cons_inv_r in Heq as (-> & _ & ->); [|done..].
    rewrite splitext_dotted, Hok2 in E1 by done. discriminate.
  - exfalso.
    replace (s1 ++ chr_dot :: h1 ++ chr_dot :: e1)
      with ((s1 ++ chr_dot :: h1) ++ chr_dot :: e1) in Heq by (rewrite <- app_assoc; done).
    symmetry in Heq.
    apply not_elem_of_app_cons_inv_r in Heq as (-> & _ & ->); [|done..].
    rewrite splitext_dotted, Hok1 in E2 by done. discriminate.
  - replace (s1 ++ chr_dot :: h1 ++ chr_dot :: e1)
      with ((s1 ++ chr_dot :: h1) ++ chr_dot :: e1) in Heq by (rewrite <- app_assoc; done).
    replace (s2 ++ chr_dot :: h2 ++ chr_dot :: e2)
      with ((s2 ++ chr_dot :: h2) ++ chr_dot :: e2) in Heq by (rewrite <- app_assoc; done).
    apply not_elem_of_app_cons_inv_r in Heq as (Heq & _ & ->); [|done..].
    apply not_elem_of_app_cons_inv_r in Heq as (-> & _ & ->); done.
Qed.

(** ** The digest *)

Lemma hex_digit_hex x : SHA256.hex_digit x ∈ hex_chars.
Proof.
  unfold SHA256.hex_digit. apply list_elem_of_In.
  destruct (nth_in_or_default (N.to_nat x) (list_ascii_of_string "0123456789abcdef")
              "0"%char) as [Hin| ->].
  - exact Hin.
  - left. reflexivity.
Qed.

Lemma hex_word_hex w : Forall (fun c => c ∈ hex_chars) (SHA256.hex_word w).
Proof. unfold SHA256.hex_word. apply Forall_map, Forall_forall. intros; apply hex_digit_hex. Qed.

Lemma hex_word_length w : length (SHA256.hex_word w) = 8%nat.
Proof. reflexivity. Qed.

(** The digest is 64 characters long. *)
Lemma hexdigest_length msg : length (SHA256.hexdigest msg) = 64%nat.
Proof.
  unfold SHA256.hexdigest, SHA256.hex_regs.
  rewrite !length_app, !hex_word_length. reflexivity.
Qed.

(** All of them hexadecimal digits. *)
Lemma hexdigest_hex msg : Forall (fun c => c ∈ hex_chars) (SHA256.hexdigest msg).
Proof.
  unfold SHA256.hexdigest, SHA256.hex_regs.
  repeat (apply Forall_app; split); apply hex_word_hex.
Qed.

Lemma hex_no_dot s : Forall (fun c => c ∈ hex_chars) s -> chr_dot ∉ s.
Proof.
  intros H Hin. rewrite Forall_forall in H. apply H in Hin.
  revert Hin. unfold hex_chars. cbn. rewrite !elem_of_cons, elem_of_nil.
  intros Hc. repeat (destruct Hc as [Hc|Hc]; [discriminate Hc|]). done.
Qed.

Lemma hex_no_sep s : Forall (fun c => c ∈ hex_chars) s -> chr_sep ∉ s.
Proof.
  intros H Hin. rewrite Forall_forall in H. apply H in Hin.
  revert Hin. unfold hex_chars. cbn. rewrite !elem_of_cons, elem_of_nil.
  intros Hc. repeat (destruct Hc as [Hc|Hc]; [discriminate Hc|]). done.
Qed.

(** ** [hashfile] *)

Section hashfile_facts.
Context `{HL : HasherLaws}.
Variable blocksize : nat.
Hypothesis blocksize_pos : (0 < blocksize)%nat.

(** The loop: [buf] is the block just read and is empty only at the
    end of the file. *)
Lemma hashfile_loop_spec buf afile hasher :
  (buf = [] -> f_rest afile = []) ->
  hashfile_loop buf afile hasher blocksize
  = hasher_hexdigest (hasher_update hasher (buf ++ f_rest afile)).
Proof.
  destruct afile as [rest]. simpl.
  remember (length rest) as n eqn:Hn.
  revert buf rest hasher Hn.
  induction n as [n IH] using lt_wf_ind. intros buf rest hasher Hn Hend.
  destruct buf as [|c buf'].
  - rewrite hashfile_loop_equation_1, Hend by done. simpl.
    rewrite update_nil. reflexivity.
  - rewrite hashfile_loop_equation_2. simpl.
    destruct rest as [|r rest'].
    + rewrite firstn_nil, skipn_nil, hashfile_loop_equation_1, app_nil_r. reflexivity.
    + rewrite (IH (length (skipn blocksize (r :: rest')))).
      * rewrite update_app, firstn_skipn. reflexivity.
      * rewrite length_skipn. subst n. simpl. lia.
      * reflexivity.
      * destruct blocksize; [lia|]. discriminate.
Qed.

(** [hashfile] feeds the hasher the whole content, whatever the size
    of the blocks. *)
Lemma hashfile_spec content hasher :
  hashfile (FileObj content) hasher blocksize
  = hasher_hexdigest (hasher_update hasher content).
Proof.
  unfold hashfile. rewrite hashfile_loop_spec; simpl.
  - rewrite firstn_skipn. reflexivity.
  - destruct blocksize; [lia|]. destruct content; [done|discriminate].
Qed.
End hashfile_facts.

Lemma hashfile_sha256 content blocksize :
  (0 < blocksize)%nat ->
  hashfile (FileObj content) sha256 blocksize = SHA256.hexdigest content.
Proof. intros Hb. rewrite (hashfile_spec blocksize Hb). reflexivity. Qed.

Lemma default_blocksize_pos : (0 < default_blocksize)%nat.
Proof. unfold default_blocksize. lia. Qed.

(** ** Dictionaries *)

Section dict_facts.
Context {V : Type}.
Implicit Types (d : list (str * V)) (k : str) (v : V).

Lemma str_eqb_eq a b : str_eqb a b = true <-> a = b.
Proof. unfold str_eqb. apply bool_decide_eq_true. Qed.

Lemma str_eqb_refl a : str_eqb a a = true.
Proof. apply str_eqb_eq. reflexivity. Qed.

Lemma str_eqb_neq a b : a <> b -> str_eqb a b = false.
Proof. intros H. unfold str_eqb. apply bool_decide_eq_false_2, H. Qed.

Lemma dict_get_set_eq k v d : dict_get k (dict_set k v d) = Some v.
Proof.
  induction d as [|[k' v'] d IH]; simpl.
  - rewrite str_eqb_refl. reflexivity.
  - destruct (str_eqb k' k) eqn:E; simpl; rewrite E; [reflexivity|exact IH].
Qed.

Lemma dict_get_set_ne k k' v d : k <> k' -> dict_get k' (dict_set k v d) = dict_get k' d.
Proof.
  intros Hne. induction d as [|[k0 v0] d IH]; simpl.
  - rewrite str_eqb_neq by done. reflexivity.
  - destruct (str_eqb k0 k) eqn:E; simpl.
    + apply str_eqb_eq in E as ->. rewrite str_eqb_neq by done. reflexivity.
    + rewrite IH. reflexivity.
Qed.

Lemma dict_get_in k d : is_Some (dict_get k d) <-> k ∈ dict_keys d.
Proof.
  induction d as [|[k0 v0] d IH]; simpl.
  - rewrite elem_of_nil. split; [intros [? ?]; discriminate|done].
  - rewrite elem_of_cons. destruct (str_eqb k0 k) eqn:E.
    + apply str_eqb_eq in E as ->. split; eauto.
    + rewrite IH. split; [auto|]. intros [->|?]; [|done].
      rewrite str_eqb_refl in E. discriminate.
Qed.

(** Assigning to a key that is present keeps the keys and their order. *)
Lemma dict_keys_set_in k v d : k ∈ dict_keys d -> dict_keys (dict_set k v d) = dict_keys d.
Proof.
  induction d as [|[k0 v0] d IH]; simpl.
  - intros H. apply elem_of_nil in H. done.
  - intros H. destruct (str_eqb k0 k) eqn:E; simpl; [reflexivity|].
    f_equal. apply IH. apply elem_of_cons in H as [->|H]; [|done].
    rewrite str_eqb_refl in E. discriminate.
Qed.

(** Assigning to a new key appends it. *)
Lemma dict_keys_set_notin k v d :
  k ∉ dict_keys d -> dict_keys (dict_set k v d) = dict_keys d ++ [k].
Proof.
  induction d as [|[k0 v0] d IH]; simpl; [done|].
  intros H. apply not_elem_of_cons in H as [Hne H].
  rewrite str_eqb_neq by done. simpl. f_equal. auto.
Qed.
End dict_facts.

(** ** [_calculate_fingerprints] *)

Lemma fingerprint_one_spec source self fname self' :
  fingerprint_one source self fname = Ok self' ->
  exists content,
    read_file source fname = Ok content /\
    fname ∈ dict_keys (_assets_map self) /\
    self' = with_assets_map self
              (dict_set fname (Some (convert_filename fname (SHA256.hexdigest content)))
                        (_assets_map self)).
Proof.
  unfold fingerprint_one. destruct (read_file source fname) as [content|e]; simpl; [|done].
  rewrite (hashfile_sha256 _ _ default_blocksize_pos).
  destruct (dict_get fname (_assets_map self)) eqn:Hget; [|done].
  intros [= <-]. exists content. repeat split.
  apply dict_get_in. rewrite Hget. eauto.
Qed.

(** The loop of [_calculate_fingerprints] over the keys [ks]. *)
Lemma fingerprint_loop_spec source ks self self' :
  for_each (fingerprint_one source) ks self = Ok self' ->
  dict_keys (_assets_map self') = dict_keys (_assets_map self) /\
  (forall k, k ∈ ks -> exists content,
      read_file source k = Ok content /\
      dict_get k (_assets_map self')
      = Some (Some (convert_filename k (SHA256.hexdigest content)))) /\
  (forall k, k ∉ ks -> dict_get k (_assets_map self') = dict_get k (_assets_map self)).
Proof.
  revert self. induction ks as [|k0 ks IH]; intros self; simpl.
  - intros [= <-]. split; [reflexivity|]. split; [|reflexivity].
    intros k Hk. apply elem_of_nil in Hk. done.
  - destruct (fingerprint_one source self k0) as [self1|e] eqn:H1; simpl; [|done].
    intros Hrest. apply fingerprint_one_spec in H1 as (c0 & Hread0 & Hin0 & ->).
    apply IH in Hrest as (Hkeys & Hset & Hkeep). simpl in *.
    split; [|split].
    + rewrite Hkeys. apply dict_keys_set_in, Hin0.
    + intros k Hk. destruct (decide (k ∈ ks)) as [Hks|Hks]; [auto|].
      apply elem_of_cons in Hk as [->|Hk]; [|done].
      exists c0. split; [done|]. rewrite Hkeep by done. apply dict_get_set_eq.
    + intros k Hk. apply not_elem_of_cons in Hk as [Hne Hk].
      rewrite Hkeep by done. apply dict_get_set_ne. congruence.
Qed.

(** After [_calculate_fingerprints] every asset has its new name: the
    name [convert_filename] derives from the path and the SHA-256 digest
    of the bytes of the file. *)
Lemma fingerprints_new_filename self source self' p :
  _calculate_fingerprints self source = Ok self' ->
  p ∈ dict_keys (_assets_map self) ->
  exists content,
    read_file source p = Ok content /\
    new_filename self' p = Ok (convert_filename p (SHA256.hexdigest content)).
Proof.
  intros Hfp Hp. apply fingerprint_loop_spec in Hfp as (_ & Hset & _).
  destruct (Hset p Hp) as (c & Hread & Hget).
  exists c. split; [done|]. unfold new_filename. rewrite Hget. reflexivity.
Qed.

Lemma fingerprints_keys self source self' :
  _calculate_fingerprints self source = Ok self' ->
  dict_keys (_assets_map self') = dict_keys (_assets_map self).
Proof. intros Hfp. apply fingerprint_loop_spec in Hfp as (H & _). exact H. Qed.

(** The stage succeeds as soon as every asset can be read. *)
Lemma fingerprint_loop_total source ks self :
  (forall k, k ∈ ks -> k ∈ dict_keys (_assets_map self) /\
                       exists content, read_file source k = Ok content) ->
  exists self', for_each (fingerprint_one source) ks self = Ok self'.
Proof.
  revert self. induction ks as [|k0 ks IH]; intros self Hall; simpl; [eauto|].
  destruct (Hall k0) as (Hin0 & c0 & Hread0); [left|].
  unfold fingerprint_one at 1. rewrite Hread0. simpl.
  apply dict_get_in in Hin0 as [v Hget]. rewrite Hget. simpl.
  apply IH. intros k Hk. simpl.
  rewrite dict_keys_set_in by (apply dict_get_in; eauto).
  apply Hall. right. exact Hk.
Qed.

Lemma fingerprints_total self source :
  (forall k, k ∈ dict_keys (_assets_map self) -> exists content, read_file source k = Ok content) ->
  exists self', _calculate_fingerprints self source = Ok self'.
Proof. intros H. apply fingerprint_loop_total. auto. Qed.

(** ** Fingerprints and derived names (claims C1, C5 and C6) *)

(** C1 (as amended): the fingerprint is a function of the bytes alone: for
    two assets, in one run or in two, whose contents are identical,
    [hashfile] returns the same digest whatever the block size, and the
    derived names are [convert_filename] of each asset's own path and that
    one digest; they are identical when the original paths are the same. *)
Theorem C1_fingerprint_deterministic
    self1 source1 self1' self2 source2 self2' p1 p2 content :
  _calculate_fingerprints self1 source1 = Ok self1' ->
  _calculate_fingerprints self2 source2 = Ok self2' ->
  p1 ∈ dict_keys (_assets_map self1) ->
  p2 ∈ dict_keys (_assets_map self2) ->
  read_file source1 p1 = Ok content ->
  read_file source2 p2 = Ok content ->
  (forall bs1 bs2, (0 < bs1)%nat -> (0 < bs2)%nat ->
     hashfile (FileObj content) sha256 bs1 = hashfile (FileObj content) sha256 bs2) /\
  new_filename self1' p1 = Ok (convert_filename p1 (SHA256.hexdigest content)) /\
  new_filename self2' p2 = Ok (convert_filename p2 (SHA256.hexdigest content)) /\
  (p1 = p2 -> new_filename self1' p1 = new_filename self2' p2).
Proof.
  intros Hfp1 Hfp2 Hin1 Hin2 Hr1 Hr2.
  destruct (fingerprints_new_filename _ _ _ _ Hfp1 Hin1) as (c1 & Hc1 & Hn1).
  destruct (fingerprints_new_filename _ _ _ _ Hfp2 Hin2) as (c2 & Hc2 & Hn2).
  rewrite Hr1 in Hc1. rewrite Hr2 in Hc2.
  injection Hc1 as <-. injection Hc2 as <-.
  split; [|split; [exact Hn1|split; [exact Hn2|]]].
  - intros bs1 bs2 Hb1 Hb2. rewrite !hashfile_sha256 by done. reflexivity.
  - intros <-. rewrite Hn1, Hn2. reflexivity.
Qed.

Lemma C1_witness :
  new_filename twin_fingerprinted (lit "a.css")
  = Ok (convert_filename (lit "a.css") (SHA256.hexdigest (lit "A"))) /\
  new_filename twin_fingerprinted (lit "b.css")
  = Ok (convert_filename (lit "b.css") (SHA256.hexdigest (lit "A"))).
Proof.
  destruct (C1_fingerprint_deterministic twin_index twin_site twin_fingerprinted
              twin_index twin_site twin_fingerprinted (lit "a.css") (lit "b.css") (lit "A"))
    as (_ & Ha & Hb & _).
  - vm_compute. reflexivity.
  - vm_compute. reflexivity.
  - decide_by_compute.
  - decide_by_compute.
  - vm_compute. reflexivity.
  - vm_compute. reflexivity.
  - split; [exact Ha|exact Hb].
Defined.

(** C1 as stated fails: two assets with the same bytes and different
    paths do not get the same derived name. *)
Lemma C1_counterexample :
  ~ (forall self source self' p1 p2 content,
       _calculate_fingerprints self source = Ok self' ->
       p1 ∈ dict_keys (_assets_map self) ->
       p2 ∈ dict_keys (_assets_map self) ->
       read_file source p1 = Ok content ->
       read_file source p2 = Ok content ->
       new_filename self' p1 = new_filename self' p2).
Proof.
  intros H.
  specialize (H twin_index twin_site twin_fingerprinted (lit "a.css") (lit "b.css") (lit "A")).
  assert (new_filename twin_fingerprinted (lit "a.css")
          = new_filename twin_fingerprinted (lit "b.css")) as Heq.
  { apply H.
    - vm_compute. reflexivity.
    - decide_by_compute.
    - decide_by_compute.
    - vm_compute. reflexivity.
    - vm_compute. reflexivity. }
  vm_compute in Heq. discriminate Heq.
Qed.

(** C5: in one run the map from original paths to fingerprinted paths is
    defined on every asset and injective.  No assumption on collisions is
    needed: the digest has no ['.'] and no ['/'], so the original path can
    be read back from the new name. *)
Theorem C5_asset_map_injective self source self' p1 p2 :
  _calculate_fingerprints self source = Ok self' ->
  p1 ∈ dict_keys (_assets_map self) ->
  p2 ∈ dict_keys (_assets_map self) ->
  p1 <> p2 ->
  exists n1 n2,
    new_filename self' p1 = Ok n1 /\ new_filename self' p2 = Ok n2 /\ n1 <> n2.
Proof.
  intros Hfp Hin1 Hin2 Hne.
  destruct (fingerprints_new_filename _ _ _ _ Hfp Hin1) as (c1 & _ & Hn1).
  destruct (fingerprints_new_filename _ _ _ _ Hfp Hin2) as (c2 & _ & Hn2).
  eexists _, _. split; [exact Hn1|split; [exact Hn2|]].
  intros Heq. apply Hne.
  pose proof (hexdigest_hex c1) as Hx1. pose proof (hexdigest_hex c2) as Hx2.
  apply convert_filename_inj in Heq as [Hp _]; auto using hex_no_dot, hex_no_sep.
Qed.

Lemma C5_witness :
  exists n1 n2,
    new_filename twin_fingerprinted (lit "a.css") = Ok n1 /\
    new_filename twin_fingerprinted (lit "b.css") = Ok n2 /\ n1 <> n2.
Proof.
  apply (C5_asset_map_injective twin_index twin_site).
  - vm_compute. reflexivity.
  - decide_by_compute.
  - decide_by_compute.
  - discriminate.
Defined.

(** C6: the new name of an asset is its stem, a dot, the digest of the
    bytes of the file (64 hexadecimal digits) and the original extension;
    a name without extension gets the dot and the digest at its end. *)
Theorem C6_filename_derivation self source self' p content :
  _calculate_fingerprints self source = Ok self' ->
  p ∈ dict_keys (_assets_map self) ->
  read_file source p = Ok content ->
  let h := SHA256.hexdigest content in
  new_filename self' p = Ok (convert_filename p h) /\
  length h = 64%nat /\
  Forall (fun c => c ∈ hex_chars) h /\
  (forall stem ext, has_extension p stem ext -> convert_filename p h = stem ++ chr_dot :: h ++ ext) /\
  ((forall stem ext, ~ has_extension p stem ext) -> convert_filename p h = p ++ chr_dot :: h).
Proof.
  intros Hfp Hin Hread h.
  destruct (fingerprints_new_filename _ _ _ _ Hfp Hin) as (c & Hc & Hn).
  rewrite Hread in Hc. injection Hc as <-.
  split; [exact Hn|]. split; [apply hexdigest_length|]. split; [apply hexdigest_hex|].
  split.
  - intros stem ext. apply convert_filename_ext.
  - apply convert_filename_noext.
Qed.

Lemma C6_witness :
  has_extension (lit "app.css") (lit "app") (lit ".css") /\
  new_filename app_fingerprinted (lit "app.css")
  = Ok (lit "app.559aead08264d5795d3909718cdd05abd49572e84fe55590eef31a88a08fdffd.css").
Proof.
  assert (has_extension (lit "app.css") (lit "app") (lit ".css")) as Hext.
  { exists (lit "css"). repeat split; try reflexivity.
    - decide_by_compute.
    - decide_by_compute. }
  split; [exact Hext|].
  destruct (C6_filename_derivation app_index app_site app_fingerprinted (lit "app.css") (lit "A"))
    as (Hn & _ & _ & Hstem & _).
  - vm_compute. reflexivity.
  - decide_by_compute.
  - vm_compute. reflexivity.
  - rewrite Hn, (Hstem _ _ Hext). vm_compute. reflexivity.
Defined.

(** ** [_index_source_dir] (claim C4) *)

Lemma index_extends_refl self : index_extends self self.
Proof. repeat split; auto. Qed.

Lemma index_extends_trans s1 s2 s3 :
  index_extends s1 s2 -> index_extends s2 s3 -> index_extends s1 s3.
Proof.
  intros (He & Ha & Hr & H12) (He' & Ha' & Hr' & H23).
  split; [congruence|]. split; [congruence|]. split; [congruence|].
  intros p Hp. destruct (H12 p Hp) as (A1 & A2 & A3 & A4).
  rewrite <- He in Hp. destruct (H23 p Hp) as (B1 & B2 & B3 & B4).
  repeat split; auto.
Qed.

Lemma index_extends_fold {A} (f : Optimizer -> A -> Optimizer) xs self :
  (forall s x, index_extends s (f s x)) -> index_extends self (fold_left f xs self).
Proof.
  intros Hf. revert self. induction xs as [|x xs IH]; intros self; simpl.
  - apply index_extends_refl.
  - eapply index_extends_trans; [apply Hf|apply IH].
Qed.

Lemma elem_of_snoc_inv (l : list str) x p : p ∈ l ++ [x] -> p ∈ l \/ p = x.
Proof. rewrite elem_of_app, list_elem_of_singleton. auto. Qed.

Lemma dict_keys_set_elem {V} k (v : V) d p :
  p ∈ dict_keys (dict_set k v d) -> p ∈ dict_keys d \/ p = k.
Proof.
  destruct (decide (k ∈ dict_keys d)) as [Hin|Hn].
  - rewrite dict_keys_set_in by done. auto.
  - rewrite dict_keys_set_notin by done. apply elem_of_snoc_inv.
Qed.

Lemma index_dir_extends dirpath self d : index_extends self (index_dir dirpath self d).
Proof.
  unfold index_dir. destruct (excluded _ _) eqn:E; [apply index_extends_refl|].
  repeat split; simpl; auto.
  intros Hin. apply elem_of_snoc_inv in Hin as [?| ->]; [done|congruence].
Qed.

Lemma index_file_extends dirpath self f : index_extends self (index_file dirpath self f).
Proof.
  unfold index_file. destruct (excluded _ _) eqn:E; [apply index_extends_refl|].
  simpl. repeat case_bool_decide; simpl; repeat split; simpl; auto; intros Hin;
    try (apply elem_of_snoc_inv in Hin as [?| ->]; [done|congruence]);
    try (apply dict_keys_set_elem in Hin as [?| ->]; [done|congruence]).
Qed.

Lemma index_entry_extends self e : index_extends self (index_entry self e).
Proof.
  destruct e as [[dirpath dirnames] fnames]. unfold index_entry.
  apply (index_extends_trans _ (fold_left (index_dir dirpath) dirnames self));
    apply index_extends_fold; intros;
    [apply index_dir_extends|apply index_file_extends].
Qed.

Lemma index_source_dir_extends self source :
  index_extends self (_index_source_dir self source).
Proof. apply index_extends_fold, index_entry_extends. Qed.

(** A path that matches an exclusion pattern is in none of the indexed
    collections. *)
Lemma index_excluded_absent source_dir bucket exclude output_dir ak sk skip source p :
  excluded exclude p = true ->
  let self := _index_source_dir
                (new_optimizer source_dir bucket exclude output_dir ak sk skip) source in
  (p ∉ _subdirs self) /\ (p ∉ _files self) /\
  (p ∉ dict_keys (_assets_map self)) /\ (p ∉ _rewritables self).
Proof.
  intros Hex self.
  destruct (index_source_dir_extends
              (new_optimizer source_dir bucket exclude output_dir ak sk skip) source)
    as (_ & _ & _ & H).
  destruct (H p Hex) as (A1 & A2 & A3 & A4). fold self in A1, A2, A3, A4. simpl in *.
  repeat split; intros Hin; [apply A1 in Hin|apply A2 in Hin|apply A3 in Hin|apply A4 in Hin];
    apply elem_of_nil in Hin; done.
Qed.

(** C4 at the failing input: with the pattern [private] the directory
    [private] is excluded and kept out of [_subdirs], but the walk still
    enters it: its file [private/secret.html] is indexed as a file and as
    a rewritable, and the run then fails when it writes that file into
    the directory that [_write_dirs] did not create. *)
Theorem C4_excluded_directory_is_walked :
  let self := _index_source_dir (example_optimizer [lit "private"]) private_site in
  excluded [lit "private"] (lit "private") = true /\
  _subdirs self = [] /\
  _files self = [lit "private/secret.html"] /\
  _rewritables self = [lit "private/secret.html"] /\
  run (example_optimizer [lit "private"]) (World private_site (Dir []) None)
  = Raise (IOError (lit "private/secret.html")).
Proof. vm_compute. repeat split. Qed.

(** ** [str.replace] *)

Lemma is_prefix_spec p s : is_prefix p s = true <-> exists v, s = p ++ v.
Proof.
  revert s. induction p as [|a p IH]; intros s; simpl.
  - split; eauto.
  - destruct s as [|b s]; [split; [done|intros [v [=]]]|].
    rewrite andb_true_iff, IH. split.
    + intros [Hab [v ->]]. apply Ascii.eqb_eq in Hab as ->. eauto.
    + intros [v [= -> ->]]. rewrite Ascii.eqb_refl. eauto.
Qed.

Lemma is_prefix_length p s : is_prefix p s = true -> (length p <= length s)%nat.
Proof.
  intros H. apply is_prefix_spec in H as [v ->]. rewrite length_app. lia.
Qed.

Lemma is_prefix_app_short p x y :
  is_prefix p (x ++ y) = true -> (length p <= length x)%nat -> is_prefix p x = true.
Proof.
  revert x. induction p as [|a p IH]; intros x; [done|].
  destruct x as [|b x]; [simpl; intros _ Hl; lia|].
  simpl. rewrite !andb_true_iff. intros [Hab Hp] Hl. split; [exact Hab|].
  apply IH; [exact Hp|lia].
Qed.

Lemma is_prefix_occursb p s : is_prefix p s = true -> occursb p s = true.
Proof. intros H. destruct s; simpl; rewrite H; reflexivity. Qed.

Lemma occursb_spec a s : occursb a s = true <-> occurs a s.
Proof.
  induction s as [|c s IH]; simpl; rewrite orb_true_iff.
  - rewrite is_prefix_spec. split.
    + intros [[v Hv]|[=]]. exists [], v. exact Hv.
    + intros (u & v & Huv). left.
      destruct u; [eauto|discriminate].
  - rewrite IH, is_prefix_spec. split.
    + intros [[v Hv]|(u & v & ->)]; [exists [], v; exact Hv|exists (c :: u), v; reflexivity].
    + intros (u & v & Huv). destruct u as [|c' u]; [left; eauto|].
      right. injection Huv as -> ->. exists u, v. reflexivity.
Qed.

Lemma occursb_false a s : occursb a s = false -> ~ occurs a s.
Proof. intros H Ho. apply occursb_spec in Ho. congruence. Qed.

(** A delimiter that is not in the pattern ends every match before it. *)
Lemma is_prefix_delim p u d v : (d ∉ p) -> is_prefix p (u ++ d :: v) = is_prefix p u.
Proof.
  revert u. induction p as [|a p IH]; intros u Hd; simpl; [by destruct u|].
  apply not_elem_of_cons in Hd as [Hne Hd].
  destruct u as [|b u]; simpl.
  - destruct (Ascii.eqb_spec a d); [congruence|reflexivity].
  - rewrite IH by done. reflexivity.
Qed.

Section replace_scan_facts.
Variables old new : str.

(** A pending skip that covers the rest consumes it. *)
Lemma replace_scan_skip_all k s : (length s <= k)%nat -> replace_scan old new k s = [].
Proof.
  revert k. induction s as [|c s IH]; intros k Hk; simpl; [done|].
  destruct k as [|k]; [simpl in Hk; lia|]. apply IH. simpl in Hk. lia.
Qed.

(** Where [old] does not occur nothing changes. *)
Lemma replace_scan_absent s : occursb old s = false -> replace_scan old new 0 s = s.
Proof.
  induction s as [|c s IH]; simpl; [done|].
  rewrite orb_false_iff. intros [Hp Hs].
  change (match old with
          | [] => true
          | a :: p' => (a =? c)%char && is_prefix p' s
          end) with (is_prefix old (c :: s)).
  rewrite Hp, IH by done. reflexivity.
Qed.

(** The scan never looks across a delimiter that is not in [old]. *)
Lemma replace_scan_delim k u d v :
  old <> [] -> (d ∉ old) -> (k <= length u)%nat ->
  replace_scan old new k (u ++ d :: v)
  = replace_scan old new k u ++ d :: replace_scan old new 0 v.
Proof.
  intros Hne Hd. revert k. induction u as [|c u IH]; intros k Hk.
  - simpl in Hk. assert (k = 0%nat) as -> by lia. simpl.
    destruct old as [|a p]; [done|]. simpl.
    apply not_elem_of_cons in Hd as [Had _].
    destruct (Ascii.eqb_spec a d); [congruence|reflexivity].
  - destruct k as [|k].
    + change ((c :: u) ++ d :: v) with (c :: (u ++ d :: v)).
      cbn [replace_scan].
      change (c :: u ++ d :: v) with ((c :: u) ++ d :: v).
      rewrite is_prefix_delim by done.
      destruct (is_prefix old (c :: u)) eqn:Hp.
      * apply is_prefix_length in Hp. simpl in Hp.
        rewrite IH by lia. rewrite app_assoc. reflexivity.
      * rewrite IH by lia. reflexivity.
    + simpl. apply IH. simpl in Hk. lia.
Qed.

(** A pending skip passes over as many characters. *)
Lemma replace_scan_skip k u v :
  length u = k -> replace_scan old new k (u ++ v) = replace_scan old new 0 v.
Proof.
  revert k. induction u as [|c u IH]; intros k Hk; simpl in Hk.
  - subst k. reflexivity.
  - destruct k as [|k]; [discriminate|].
    change ((c :: u) ++ v) with (c :: (u ++ v)). cbn [replace_scan]. apply IH. lia.
Qed.

(** One occurrence, with none that starts before it and none after it. *)
Lemma replace_scan_once pre post :
  old <> [] -> occursb old (pre ++ removelast old) = false -> occursb old post = false ->
  replace_scan old new 0 (pre ++ old ++ post) = pre ++ new ++ post.
Proof.
  intros Hne Hpre Hpost. induction pre as [|c pre IH].
  - cbn [app]. destruct old as [|a p] eqn:E; [done|]. rewrite <- E.
    assert (old ++ post = a :: (p ++ post)) as -> by (rewrite E; reflexivity).
    cbn [replace_scan].
    assert (is_prefix old (a :: p ++ post) = true) as ->.
    { apply is_prefix_spec. exists post. rewrite E. reflexivity. }
    assert (length old - 1 = length p)%nat as -> by (rewrite E; simpl; lia).
    rewrite replace_scan_skip by reflexivity.
    rewrite replace_scan_absent by (rewrite E; exact Hpost). reflexivity.
  - change ((c :: pre) ++ old ++ post) with (c :: (pre ++ old ++ post)).
    cbn [replace_scan].
    change ((c :: pre) ++ removelast old) with (c :: (pre ++ removelast old)) in Hpre.
    cbn [occursb] in Hpre. apply orb_false_iff in Hpre as [Hhere Hrest].
    assert (is_prefix old (c :: pre ++ old ++ post) = false) as ->.
    { destruct (is_prefix old (c :: pre ++ old ++ post)) eqn:Hp; [|reflexivity].
      rewrite <- Hhere. symmetry.
      pose proof (app_removelast_last "000"%char Hne) as Hold.
      assert (c :: pre ++ old ++ post
              = (c :: pre ++ removelast old) ++ (List.last old "000"%char :: post)) as Heq.
      { cbn [app]. f_equal. rewrite <- app_assoc. f_equal.
        change (removelast old ++ List.last old "000"%char :: post)
          with (removelast old ++ [List.last old "000"%char] ++ post).
        rewrite app_assoc, <- Hold. reflexivity. }
      rewrite Heq in Hp. apply (is_prefix_app_short _ _ _ Hp).
      apply (f_equal (@length ascii)) in Hold. rewrite length_app in Hold.
      cbn [length] in Hold |- *. rewrite length_app. lia. }
    rewrite IH by exact Hrest. reflexivity.
Qed.
End replace_scan_facts.

Lemma str_replace_absent s old new : occursb old s = false -> str_replace s old new = s.
Proof.
  intros H. destruct old as [|a p]; [by destruct s|].
  apply replace_scan_absent, H.
Qed.

Lemma str_replace_delim u d v old new :
  old <> [] -> (d ∉ old) ->
  str_replace (u ++ d :: v) old new = str_replace u old new ++ d :: str_replace v old new.
Proof.
  intros Hne Hd. destruct old as [|a p]; [done|]. unfold str_replace.
  apply replace_scan_delim; [done|done|lia].
Qed.

Lemma str_replace_once pre old post new :
  old <> [] -> occursb old (pre ++ removelast old) = false -> occursb old post = false ->
  str_replace (pre ++ old ++ post) old new = pre ++ new ++ post.
Proof.
  intros Hne Hpre Hpost. unfold str_replace. destruct old as [|a p] eqn:E; [done|].
  rewrite <- E in *. apply replace_scan_once; assumption.
Qed.

(** *** [line.replace] on a line of text *)

Lemma line_replace_absent s old new : occursb old s = false -> line_replace s old new = s.
Proof.
  intros H. unfold line_replace. destruct (utf8_valid old); [|reflexivity].
  apply str_replace_absent, H.
Qed.

Lemma line_replace_delim u d v old new :
  old <> [] -> (d ∉ old) ->
  line_replace (u ++ d :: v) old new = line_replace u old new ++ d :: line_replace v old new.
Proof.
  intros Hne Hd. unfold line_replace. destruct (utf8_valid old); [|reflexivity].
  apply str_replace_delim; assumption.
Qed.

Lemma line_replace_once pre old post new :
  utf8_valid old = true -> old <> [] ->
  occursb old (pre ++ removelast old) = false -> occursb old post = false ->
  line_replace (pre ++ old ++ post) old new = pre ++ new ++ post.
Proof.
  intros Hv Hne Hpre Hpost. unfold line_replace. rewrite Hv.
  apply str_replace_once; assumption.
Qed.

(** Universal newlines change nothing in a text without [CR]. *)
Lemma translate_newlines_no_cr s : (chr_cr ∉ s) -> translate_newlines false s = s.
Proof.
  induction s as [|c s IH]; [reflexivity|]. intros Hs.
  apply not_elem_of_cons in Hs as [Hc Hs]. cbn [translate_newlines].
  destruct (Ascii.eqb_spec c chr_cr) as [->|_]; [done|].
  destruct (Ascii.eqb_spec c chr_nl) as [->|_]; rewrite IH by exact Hs; reflexivity.
Qed.

Lemma text_read_plain f bytes :
  utf8_valid bytes = true -> (chr_cr ∉ bytes) -> text_read f bytes = Ok bytes.
Proof.
  intros Hv Hcr. unfold text_read. rewrite Hv, translate_newlines_no_cr by exact Hcr.
  reflexivity.
Qed.

(** ** The rewrite of a line (claim C2) *)

Lemma replace_all_app subs1 subs2 line :
  replace_all (subs1 ++ subs2) line = replace_all subs2 (replace_all subs1 line).
Proof. apply fold_left_app. Qed.

Lemma replace_all_absent subs t :
  forallb (fun s => negb (occursb (fst s) t)) subs = true -> replace_all subs t = t.
Proof.
  induction subs as [|[a n] subs IH]; simpl; [done|].
  rewrite andb_true_iff, negb_true_iff. intros [Ha Hs].
  unfold replace_all. simpl. rewrite line_replace_absent by done. apply IH, Hs.
Qed.

Lemma replace_all_no_occurrence subs t :
  (forall a, a ∈ dict_keys subs -> ~ occurs a t) -> replace_all subs t = t.
Proof.
  intros H. apply replace_all_absent, forallb_forall. intros [a n] Hin.
  apply negb_true_iff. cbn [fst]. destruct (occursb a t) eqn:E; [|reflexivity].
  exfalso. apply (H a); [|apply occursb_spec, E].
  apply list_elem_of_fmap. exists (a, n). split; [reflexivity|]. apply list_elem_of_In, Hin.
Qed.

Lemma replace_all_delim subs u d v :
  (forall s, s ∈ subs -> fst s <> [] /\ (d ∉ fst s)) ->
  replace_all subs (u ++ d :: v) = replace_all subs u ++ d :: replace_all subs v.
Proof.
  revert u v. induction subs as [|[a n] subs IH]; intros u v Hs; [done|].
  unfold replace_all. simpl.
  destruct (Hs (a, n)) as [Hne Hd]; [left|]. simpl in Hne, Hd.
  rewrite line_replace_delim by done.
  apply IH. intros s Hin. apply Hs. right. exact Hin.
Qed.

Lemma dict_get_split {V} a (n : V) m :
  dict_get a m = Some n -> exists m1 m2, m = m1 ++ (a, n) :: m2 /\ (a ∉ dict_keys m1).
Proof.
  induction m as [|[k v] m IH]; simpl; [discriminate|].
  destruct (str_eqb k a) eqn:E.
  - intros [= ->]. apply str_eqb_eq in E as ->. exists [], m.
    split; [reflexivity|apply not_elem_of_nil].
  - intros H. destruct (IH H) as (m1 & m2 & -> & Hn). exists ((k, v) :: m1), m2.
    split; [reflexivity|]. simpl. apply not_elem_of_cons. split; [|exact Hn].
    intros ->. rewrite str_eqb_refl in E. discriminate E.
Qed.

Section delimited_substitutions.
Variable delims : list ascii.
Variable subs : list (str * str).
Hypothesis Hdel : delimited delims subs = true.

Lemma delimited_nodup : NoDup (dict_keys subs).
Proof.
  unfold delimited in Hdel. apply andb_true_iff in Hdel as [H _].
  apply bool_decide_eq_true in H. exact H.
Qed.

Lemma delimited_elem s :
  s ∈ subs -> fst s <> [] /\ (forall d, d ∈ delims -> d ∉ fst s).
Proof.
  intros Hs. unfold delimited in Hdel. apply andb_true_iff in Hdel as [_ H].
  rewrite forallb_forall in H. apply list_elem_of_In, H in Hs.
  rewrite andb_true_iff in Hs. destruct Hs as [Hne Hd]. split.
  - intros E. rewrite E in Hne. discriminate Hne.
  - intros d Hdin. rewrite forallb_forall in Hd.
    apply list_elem_of_In, Hd in Hdin. apply negb_true_iff, bool_decide_eq_false in Hdin.
    exact Hdin.
Qed.

(** In a reference the path becomes the new name of its asset, and the
    field stays so. *)
Lemma replace_all_ref pre a post :
  field_ok subs (FRef pre a post) = true ->
  replace_all subs (pre ++ a ++ post) = field_dst subs (FRef pre a post).
Proof.
  cbn [field_ok field_dst]. destruct (dict_get a subs) as [n|] eqn:Hget; [|discriminate].
  rewrite !andb_true_iff, !negb_true_iff. intros [[[Hv Hbefore] Hafter] Hothers].
  rewrite forallb_forall in Hothers.
  destruct (dict_get_split _ _ _ Hget) as (m1 & m2 & Hsubs & Hm1).
  pose proof delimited_nodup as Hnd. rewrite Hsubs in Hnd.
  unfold dict_keys in Hnd. rewrite map_app in Hnd. cbn [List.map fst] in Hnd.
  apply NoDup_app in Hnd as (_ & _ & Hnd). apply NoDup_cons in Hnd as [Hm2 _].
  assert (a <> []) as Hne.
  { destruct (delimited_elem (a, n)) as [Hne _]; [|exact Hne].
    rewrite Hsubs. apply elem_of_app. right. left. }
  assert (forall s, s ∈ subs -> fst s <> a ->
            occursb (fst s) (pre ++ a ++ post) = false /\
            occursb (fst s) (pre ++ n ++ post) = false) as Hother.
  { intros s Hs Hsa. apply list_elem_of_In, Hothers in Hs.
    apply orb_true_iff in Hs as [E|E]; [apply str_eqb_eq in E; done|].
    rewrite andb_true_iff, !negb_true_iff in E. exact E. }
  rewrite Hsubs at 1. rewrite replace_all_app.
  change (replace_all ((a, n) :: m2) ?x) with (replace_all m2 (line_replace x a n)).
  rewrite (replace_all_absent m1).
  - rewrite line_replace_once by assumption.
    apply replace_all_absent, forallb_forall. intros s Hs. apply list_elem_of_In in Hs.
    apply negb_true_iff. apply Hother.
    + rewrite Hsubs. apply elem_of_app. right. right. exact Hs.
    + intros E. apply Hm2. rewrite <- E. apply list_elem_of_fmap. eauto.
  - apply forallb_forall. intros s Hs. apply list_elem_of_In in Hs.
    apply negb_true_iff. apply Hother.
    + rewrite Hsubs. apply elem_of_app. left. exact Hs.
    + intros E. apply Hm1. rewrite <- E. apply list_elem_of_fmap. eauto.
Qed.

Lemma replace_all_field f :
  field_ok subs f = true -> replace_all subs (field_src f) = field_dst subs f.
Proof.
  destruct f as [t|pre a post].
  - apply replace_all_absent.
  - apply replace_all_ref.
Qed.

(** A line of delimited fields is rewritten field by field. *)
Lemma replace_all_layout l :
  layout_ok delims subs l = true ->
  replace_all subs (render field_src l) = render (field_dst subs) l.
Proof.
  destruct l as [f0 rest]. unfold layout_ok, render. cbn [fst snd].
  revert f0. induction rest as [|[d f1] rest IH]; intros f0; cbn [flat_map forallb fst snd].
  - rewrite andb_true_r, !app_nil_r. apply replace_all_field.
  - rewrite !andb_true_iff. intros (H0 & (Hd & H1) & Hrest).
    apply bool_decide_eq_true in Hd.
    change ((d :: field_src f1) ++ ?x) with (d :: (field_src f1 ++ x)).
    change ((d :: field_dst subs f1) ++ ?x) with (d :: (field_dst subs f1 ++ x)).
    rewrite replace_all_delim.
    + rewrite replace_all_field by done. f_equal. f_equal.
      apply IH. rewrite H1, Hrest. reflexivity.
    + intros s Hs. destruct (delimited_elem s Hs) as (Hne & Hdl). auto.
Qed.
End delimited_substitutions.

(** ** [rewrite_line] and [rewrite_text] *)

Lemma rewrite_loop_spec self keys subs line :
  substitutions_of (_assets_map self) keys = Some subs ->
  for_each (rewrite_step self) keys line = Ok (replace_all subs line).
Proof.
  revert subs line. induction keys as [|k keys IH]; intros subs line; simpl.
  - intros [= <-]. reflexivity.
  - unfold rewrite_step at 1, new_filename.
    destruct (dict_get k (_assets_map self)) as [[n|]|]; try done.
    destruct (substitutions_of _ keys) as [rest|]; [|done].
    intros [= <-]. simpl. apply IH. reflexivity.
Qed.

Lemma rewrite_line_spec self subs line :
  substitutions self = Some subs -> rewrite_line self line = Ok (replace_all subs line).
Proof. apply rewrite_loop_spec. Qed.

Lemma rewrite_text_spec self subs text :
  substitutions self = Some subs ->
  rewrite_text self text = Ok (concat (List.map (replace_all subs) (file_lines text))).
Proof.
  intros Hs. unfold rewrite_text.
  enough (forall lines written,
            for_each (fun written line =>
                        do line' <- rewrite_line self line; Ok (written ++ line'))
                     lines written
            = Ok (written ++ concat (List.map (replace_all subs) lines))) as H.
  { rewrite H. reflexivity. }
  induction lines as [|l lines IH]; intros written; simpl.
  - rewrite app_nil_r. reflexivity.
  - rewrite (rewrite_line_spec _ _ _ Hs). simpl. rewrite IH, app_assoc. reflexivity.
Qed.

Lemma file_lines_concat text : concat (file_lines text) = text.
Proof.
  induction text as [|c text IH]; simpl; [done|].
  destruct (Ascii.eqb c chr_nl); simpl; [by rewrite IH|].
  destruct (file_lines text) as [|l ls]; simpl in *; by rewrite <- IH.
Qed.

Lemma substitutions_keys self subs :
  substitutions self = Some subs -> dict_keys subs = dict_keys (_assets_map self).
Proof.
  unfold substitutions. generalize (_assets_map self) at 1. intros m.
  generalize (dict_keys (_assets_map self)). intros keys.
  revert subs. induction keys as [|k keys IH]; intros subs; simpl.
  - intros [= <-]. reflexivity.
  - destruct (dict_get k m) as [[n|]|]; try done.
    destruct (substitutions_of m keys) as [rest|]; [|done].
    intros [= <-]. simpl. f_equal. apply IH. reflexivity.
Qed.




(** ** The order of the substitutions (claim C10) *)

Lemma first_occurrences_snoc l x :
  first_occurrences (l ++ [x])
  = if bool_decide (x ∈ first_occurrences l) then first_occurrences l
    else first_occurrences l ++ [x].
Proof. unfold first_occurrences. rewrite fold_left_app. reflexivity. Qed.

Lemma first_occurrences_subset l x : x ∈ first_occurrences l -> x ∈ l.
Proof.
  induction l as [|y l IH] using rev_ind; [done|].
  rewrite first_occurrences_snoc, elem_of_app, list_elem_of_singleton.
  case_bool_decide; [auto|].
  rewrite elem_of_app, list_elem_of_singleton. intros [?|?]; auto.
Qed.

Lemma with_ext_snoc exts l x :
  with_ext exts (l ++ [x])
  = with_ext exts l ++ (if bool_decide (snd (splitext x) ∈ exts) then [x] else []).
Proof. unfold with_ext. rewrite List.filter_app. simpl. by case_bool_decide. Qed.

Lemma with_ext_subset exts l x : x ∈ with_ext exts l -> x ∈ l.
Proof. unfold with_ext. rewrite !list_elem_of_In, filter_In. tauto. Qed.

Lemma dict_keys_set {V} k (v : V) d :
  dict_keys (dict_set k v d)
  = if bool_decide (k ∈ dict_keys d) then dict_keys d else dict_keys d ++ [k].
Proof.
  case_bool_decide; [apply dict_keys_set_in|apply dict_keys_set_notin]; done.
Qed.

Lemma index_dir_keys dirpath self d :
  keys_follow_files self -> keys_follow_files (index_dir dirpath self d).
Proof. unfold index_dir. destruct (excluded _ _); done. Qed.

Lemma index_file_keys dirpath self f :
  keys_follow_files self -> keys_follow_files (index_file dirpath self f).
Proof.
  unfold index_file, keys_follow_files. intros Hk.
  destruct (excluded _ _); [done|]. simpl.
  repeat case_bool_decide; simpl; rewrite with_ext_snoc, splitext_ext_rel_join;
    rewrite ?bool_decide_eq_true_2, ?bool_decide_eq_false_2 by done;
    first [ rewrite first_occurrences_snoc, dict_keys_set, Hk; reflexivity
          | rewrite app_nil_r; exact Hk ].
Qed.

Lemma keys_follow_files_fold {A} (f : Optimizer -> A -> Optimizer) xs self :
  (forall s x, keys_follow_files s -> keys_follow_files (f s x)) ->
  keys_follow_files self -> keys_follow_files (fold_left f xs self).
Proof. intros Hf. revert self. induction xs; simpl; auto. Qed.

Lemma index_source_dir_keys self source :
  keys_follow_files self -> keys_follow_files (_index_source_dir self source).
Proof.
  apply keys_follow_files_fold. intros s [[dirpath dirnames] fnames] Hs.
  unfold index_entry.
  apply keys_follow_files_fold; [intros; by apply index_file_keys|].
  apply keys_follow_files_fold; [intros; by apply index_dir_keys|done].
Qed.

Lemma substitutions_of_keys m keys subs :
  substitutions_of m keys = Some subs -> List.map fst subs = keys.
Proof.
  revert subs. induction keys as [|k keys IH]; intros subs; simpl.
  - intros [= <-]. reflexivity.
  - destruct (dict_get k m) as [[n|]|]; try done.
    destruct (substitutions_of m keys) as [rest|]; [|done].
    intros [= <-]. simpl. f_equal. apply IH. reflexivity.
Qed.

Lemma substitutions_of_total m keys :
  (forall k, k ∈ keys -> exists n, dict_get k m = Some (Some n)) ->
  exists subs, substitutions_of m keys = Some subs.
Proof.
  induction keys as [|k keys IH]; intros H; simpl; [eauto|].
  destruct (H k) as [n ->]; [left|].
  destruct IH as [rest ->]; [intros; apply H; by right|]. eauto.
Qed.

(** After [_calculate_fingerprints] every asset has a substitution, in the
    order of the keys. *)
Lemma fingerprints_substitutions self source self' :
  _calculate_fingerprints self source = Ok self' ->
  exists subs, substitutions self' = Some subs /\
               List.map fst subs = dict_keys (_assets_map self).
Proof.
  intros Hfp. pose proof (fingerprints_keys _ _ _ Hfp) as Hkeys.
  destruct (substitutions_of_total (_assets_map self') (dict_keys (_assets_map self')))
    as [subs Hs].
  - intros k Hk. rewrite Hkeys in Hk.
    apply fingerprint_loop_spec in Hfp as (_ & Hset & _).
    destruct (Hset k Hk) as (c & _ & Hget). eauto.
  - exists subs. split; [exact Hs|]. rewrite <- Hkeys. eapply substitutions_of_keys, Hs.
Qed.

Lemma for_each_ext {A S} (f g : S -> A -> result S) xs s :
  (forall s x, x ∈ xs -> f s x = g s x) -> for_each f xs s = for_each g xs s.
Proof.
  revert s. induction xs as [|x xs IH]; intros s H; simpl; [done|].
  rewrite H by left. destruct (g s x); simpl; [|done].
  apply IH. intros; apply H. by right.
Qed.

(** C10 (as amended): the substitutions are applied in the iteration order
    of [_assets_map], which is the order in which the directory walk first
    lists each asset, not a sorted order.  For every two runs whose walks
    list the same names in the same order and whose indexed files have the
    same contents, the text written for a rewritable file is the same, also
    when the path of one asset is a substring of the path of another. *)
Theorem C10_substitution_order
    source_dir bucket exclude output_dir ak sk skip source1 source2 f :
  let self0 := new_optimizer source_dir bucket exclude output_dir ak sk skip in
  let self1 := _index_source_dir self0 source1 in
  os_walk source1 = os_walk source2 ->
  (forall p, p ∈ _files self1 -> read_file source1 p = read_file source2 p) ->
  f ∈ _files self1 ->
  dict_keys (_assets_map self1) = first_occurrences (with_ext assets_ext (_files self1)) /\
  (forall self', _calculate_fingerprints self1 source1 = Ok self' ->
     exists subs, substitutions self' = Some subs /\
                  List.map fst subs = dict_keys (_assets_map self1) /\
                  forall line, rewrite_line self' line = Ok (replace_all subs line)) /\
  rewritten self0 source1 f = rewritten self0 source2 f.
Proof.
  intros self0 self1 Hwalk Hread Hf.
  assert (dict_keys (_assets_map self1)
          = first_occurrences (with_ext assets_ext (_files self1))) as Hkeys.
  { pose proof (index_source_dir_keys self0 source1 eq_refl) as Hk.
    unfold keys_follow_files in Hk. fold self1 in Hk.
    destruct (index_source_dir_extends self0 source1) as (_ & Hext & _).
    fold self1 in Hext. rewrite Hext in Hk. exact Hk. }
  split; [exact Hkeys|]. split.
  - intros self' Hfp.
    destruct (fingerprints_substitutions _ _ _ Hfp) as (subs & Hs & Hfst).
    exists subs. split; [exact Hs|]. split; [exact Hfst|].
    intros line. apply rewrite_line_spec, Hs.
  - unfold rewritten.
    assert (_index_source_dir self0 source2 = self1) as ->.
    { unfold self1, _index_source_dir. rewrite Hwalk. reflexivity. }
    fold self1.
    assert (_calculate_fingerprints self1 source2 = _calculate_fingerprints self1 source1)
      as ->.
    { unfold _calculate_fingerprints. apply for_each_ext. intros s k Hk.
      unfold fingerprint_one. rewrite Hread; [reflexivity|].
      rewrite Hkeys in Hk.
      eapply with_ext_subset, first_occurrences_subset, Hk. }
    rewrite (Hread f Hf). reflexivity.
Qed.

Lemma C10_witness :
  rewritten (example_optimizer [lit "*.bak"]) (Some (Dir (backup (lit "v1")))) (lit "index.html")
  = rewritten (example_optimizer [lit "*.bak"]) (Some (Dir (backup (lit "v2")))) (lit "index.html").
Proof.
  apply (C10_substitution_order (lit "site") (lit "example.org") [lit "*.bak"] (lit "out")
           None None false (Some (Dir (backup (lit "v1")))) (Some (Dir (backup (lit "v2"))))
           (lit "index.html")).
  - vm_compute. reflexivity.
  - intros p Hp. apply list_elem_of_In in Hp. vm_compute in Hp.
    destruct Hp as [<-|[<-|[<-|[]]]]; vm_compute; reflexivity.
  - decide_by_compute.
Defined.

Lemma same_tree_listings : same_tree listing1 listing2.
Proof.
  unfold listing1, listing2. eapply same_dir.
  - apply perm_swap.
  - repeat constructor.
Qed.

(** C10 as stated fails: the two listings are one tree, and the page is
    rewritten with the fingerprint of [ax.js] under the first and with the
    fingerprint of [x.js] under the second. *)
Lemma C10_counterexample :
  ~ (forall self t1 t2 f,
       same_tree t1 t2 -> rewritten self (Some t1) f = rewritten self (Some t2) f).
Proof.
  intros H.
  specialize (H (example_optimizer []) listing1 listing2 (lit "index.html") same_tree_listings).
  vm_compute in H. discriminate H.
Qed.

(** ** Indexed assets have an extension *)

Lemma with_ext_elem exts l p : p ∈ with_ext exts l -> snd (splitext p) ∈ exts.
Proof.
  unfold with_ext. rewrite list_elem_of_In, filter_In.
  intros [_ H]. apply bool_decide_eq_true in H. exact H.
Qed.

Lemma splitext_has_extension p :
  snd (splitext p) <> [] -> has_extension p (fst (splitext p)) (snd (splitext p)).
Proof.
  destruct (splitext_cases p) as [->|(stem & e & Hp & Hd & Hs & Hok & ->)]; [done|].
  intros _. exists e. done.
Qed.

(** Every asset the indexer registers has one of the asset extensions, so
    that its new name has the digest between stem and extension. *)
Lemma indexed_asset_has_extension
    source_dir bucket exclude output_dir ak sk skip source p :
  p ∈ dict_keys (_assets_map (_index_source_dir
                    (new_optimizer source_dir bucket exclude output_dir ak sk skip) source)) ->
  exists stem ext, has_extension p stem ext /\ ext ∈ assets_ext.
Proof.
  set (self0 := new_optimizer source_dir bucket exclude output_dir ak sk skip).
  intros Hp.
  pose proof (index_source_dir_keys self0 source eq_refl) as Hk.
  unfold keys_follow_files in Hk. rewrite Hk in Hp.
  apply first_occurrences_subset, with_ext_elem in Hp.
  destruct (index_source_dir_extends self0 source) as (_ & Hext & _).
  rewrite Hext in Hp. simpl in Hp.
  exists (fst (splitext p)), (snd (splitext p)). split; [|exact Hp].
  apply splitext_has_extension. intros E. rewrite E in Hp.
  revert Hp. apply (bool_decide_unpack _). vm_compute. exact I.
Qed.

(** ** The fuel of [translate] *)

Lemma split_at_close_length s a b :
  split_at_close s = Some (a, b) -> (length b < length s)%nat.
Proof.
  revert a. induction s as [|c s IH]; intros a; simpl; [done|].
  destruct (Ascii.eqb c "]").
  - intros [= <- <-]. lia.
  - destruct (split_at_close s) as [[a' b']|]; [|done].
    intros [= <- <-]. specialize (IH a' eq_refl). lia.
Qed.

Lemma parse_class_length rest neg stuff rest' :
  parse_class rest = Some (neg, stuff, rest') -> (length rest' < length rest)%nat.
Proof.
  unfold parse_class.
  assert (forall r n, match r with
                      | [] => None
                      | c :: r2 =>
                          if Ascii.eqb c "]" then
                            match split_at_close r2 with
                            | Some (a, b) => Some (n, c :: a, b)
                            | None => None
                            end
                          else
                            match split_at_close r with
                            | Some (a, b) => Some (n, a, b)
                            | None => None
                            end
                      end = Some (neg, stuff, rest') ->
                      (length rest' < length r)%nat) as Hr.
  { intros [|c r2] n; [done|]. destruct (Ascii.eqb c "]").
    - destruct (split_at_close r2) as [[a b]|] eqn:E; [|done].
      intros [= <- <- <-]. apply split_at_close_length in E. simpl. lia.
    - destruct (split_at_close (c :: r2)) as [[a b]|] eqn:E; [|done].
      intros [= <- <- <-]. apply split_at_close_length in E. exact E. }
  destruct rest as [|c r]; [done|].
  destruct (Ascii.eqb c "!"); intros H.
  - apply Hr in H. simpl. lia.
  - exact (Hr (c :: r) false H).
Qed.

(** The length of the pattern is fuel enough: more fuel changes nothing. *)
Lemma translate_fuel_enough n m pat :
  (length pat <= n)%nat -> (length pat <= m)%nat ->
  translate_fuel n pat = translate_fuel m pat.
Proof.
  revert m pat. induction n as [|n IH]; intros m pat Hn Hm.
  - destruct pat; [|simpl in Hn; lia]. destruct m; reflexivity.
  - destruct pat as [|c rest]; [destruct m; reflexivity|].
    destruct m as [|m]; [simpl in Hm; lia|]. simpl in Hn, Hm. simpl.
    destruct (Ascii.eqb c "*"); [f_equal; apply IH; lia|].
    destruct (Ascii.eqb c "?"); [f_equal; apply IH; lia|].
    destruct (Ascii.eqb c "["); [|f_equal; apply IH; lia].
    destruct (parse_class rest) as [[[neg stuff] rest']|] eqn:E.
    + apply parse_class_length in E. f_equal. apply IH; lia.
    + f_equal. apply IH; lia.
Qed.

(** ** Paths in well-formed trees *)

Lemma node_ind' (P : node -> Prop) :
  (forall c, P (File c)) ->
  (forall es, Forall (fun e => P (snd e)) es -> P (Dir es)) ->
  forall t, P t.
Proof.
  intros HF HD. fix IH 1. intros [c|es]; [apply HF|].
  apply HD. induction es as [|[n t] es IHes]; constructor; [apply IH|apply IHes].
Qed.

Lemma split_path_nonempty p : split_path p <> [].
Proof.
  destruct p as [|c p]; simpl; [done|].
  destruct (Ascii.eqb c chr_sep); [done|]. destruct (split_path p); done.
Qed.

Lemma split_path_no_sep n : (chr_sep ∉ n) -> split_path n = [n].
Proof.
  induction n as [|c n IH]; intros H; simpl; [done|].
  apply not_elem_of_cons in H as [Hc Hn].
  destruct (Ascii.eqb_spec c chr_sep); [congruence|].
  rewrite IH by done. reflexivity.
Qed.

Lemma split_path_app a b :
  split_path (a ++ chr_sep :: b) = split_path a ++ split_path b.
Proof.
  induction a as [|c a IH]; simpl.
  - reflexivity.
  - destruct (Ascii.eqb c chr_sep); [by rewrite IH|].
    rewrite IH. pose proof (split_path_nonempty a).
    destruct (split_path a); [done|reflexivity].
Qed.

Lemma wf_name_spec n : wf_name n = true <-> n <> [] /\ (chr_sep ∉ n).
Proof.
  unfold wf_name, str_eqb.
  rewrite andb_true_iff, !negb_true_iff, !bool_decide_eq_false. tauto.
Qed.

Lemma comps_rel_join d n : wf_name n = true -> comps (rel_join d n) = comps d ++ [n].
Proof.
  intros [Hne Hs]%wf_name_spec. destruct d as [|c d].
  - destruct n as [|x n]; [done|].
    apply (split_path_no_sep (x :: n) Hs).
  - change (comps (rel_join (c :: d) n)) with (split_path ((c :: d) ++ chr_sep :: n)).
    change (comps (c :: d)) with (split_path (c :: d)).
    rewrite split_path_app, (split_path_no_sep n) by done. reflexivity.
Qed.

Lemma split_path_rel_join d n :
  wf_name n = true -> split_path (rel_join d n) = comps d ++ [n].
Proof.
  intros Hn. rewrite <- comps_rel_join by done.
  apply wf_name_spec in Hn as [Hne _].
  destruct d as [|c d]; [destruct n; done|reflexivity].
Qed.

Lemma lookup_entry_nodup n t es :
  NoDup (List.map fst es) -> (n, t) ∈ es -> lookup_entry n es = Some t.
Proof.
  induction es as [|[n' t'] es IH]; simpl; intros Hnd Hin.
  - apply elem_of_nil in Hin. done.
  - apply NoDup_cons in Hnd as [Hn' Hnd].
    apply elem_of_cons in Hin as [[= <- <-]|Hin].
    + rewrite str_eqb_refl. reflexivity.
    + rewrite str_eqb_neq; [auto|].
      intros ->. apply Hn'. apply list_elem_of_fmap. exists (n, t). done.
Qed.

Lemma tree_get_app t p q t' :
  tree_get t p = Some t' -> tree_get t (p ++ q) = tree_get t' q.
Proof.
  revert t. induction p as [|n p IH]; intros t; simpl.
  - intros [= ->]. reflexivity.
  - destruct t as [c|es]; [done|]. destruct (lookup_entry n es); [apply IH|done].
Qed.

Lemma wf_tree_dir es :
  wf_tree (Dir es) = true ->
  NoDup (List.map fst es) /\
  (forall e, e ∈ es -> wf_name (fst e) = true /\ wf_tree (snd e) = true).
Proof.
  simpl. rewrite !andb_true_iff, bool_decide_eq_true, !forallb_forall.
  intros [[Hnd Hn] Ht]. split; [done|].
  intros e He%list_elem_of_In. auto.
Qed.

Lemma elem_of_flat_map {A B} (f : A -> list B) l y :
  y ∈ flat_map f l <-> exists x, x ∈ l /\ y ∈ f x.
Proof.
  rewrite list_elem_of_In, in_flat_map. split.
  - intros (x & Hx & Hy). exists x. rewrite !list_elem_of_In. done.
  - intros (x & Hx & Hy). exists x. rewrite <- !list_elem_of_In. done.
Qed.

(** Every triple of a walk describes a directory of the tree, found at
    the components of its path. *)
Lemma walk_spec t :
  wf_tree t = true ->
  forall dp e, e ∈ walk dp t ->
    exists rel es,
      comps (fst (fst e)) = comps dp ++ rel /\
      tree_get t rel = Some (Dir es) /\
      wf_tree (Dir es) = true /\
      snd (fst e) = dirnames_of es /\ snd e = fnames_of es.
Proof.
  induction t as [c|es IH] using node_ind'; intros Hwf dp e He; simpl in He.
  - apply elem_of_nil in He. done.
  - apply elem_of_cons in He as [->|He].
    + exists [], es. simpl. rewrite app_nil_r. done.
    + apply elem_of_flat_map in He as ([name child] & Hin & He).
      destruct (wf_tree_dir es Hwf) as [Hnd Hall].
      destruct (Hall _ Hin) as [Hname Hchild]. simpl in Hname, Hchild.
      destruct (is_dir child); [|apply elem_of_nil in He; done].
      rewrite Forall_forall in IH.
      destruct (IH (name, child) Hin Hchild _ _ He)
        as (rel & es' & Hc & Hget & Hwf' & Hd & Hf).
      exists (name :: rel), es'. split; [|split; [|done]].
      * rewrite Hc, comps_rel_join by done. rewrite <- app_assoc. reflexivity.
      * simpl. rewrite (lookup_entry_nodup name child) by done. exact Hget.
Qed.

Lemma fnames_of_elem f es :
  f ∈ fnames_of es -> exists c, (f, File c) ∈ es.
Proof.
  unfold fnames_of. rewrite list_elem_of_fmap.
  intros ([n t] & -> & Hin). apply list_elem_of_In, filter_In in Hin as [Hin Hd].
  destruct t as [c|]; [|done]. exists c. apply list_elem_of_In. exact Hin.
Qed.

(** Every file a walk lists can be read back under its relative path. *)
Lemma walk_files_readable t d f :
  wf_tree t = true -> (d, f) ∈ walk_files t ->
  wf_name f = true /\ exists c, read_file (Some t) (rel_join d f) = Ok c.
Proof.
  intros Hwf Hin. unfold walk_files in Hin.
  apply elem_of_flat_map in Hin as ([[dp ds] fs] & He & Hf). simpl in Hf.
  apply list_elem_of_fmap in Hf as (f' & [= -> ->] & Hf).
  destruct (walk_spec t Hwf _ _ He) as (rel & es & Hc & Hget & Hwf' & _ & Hfs).
  simpl in Hc, Hfs. subst fs.
  apply fnames_of_elem in Hf as [c Hc'].
  destruct (wf_tree_dir es Hwf') as [Hnd Hall].
  destruct (Hall _ Hc') as [Hname _]. simpl in Hname.
  split; [exact Hname|]. exists c. unfold read_file.
  rewrite split_path_rel_join, Hc by done. simpl.
  rewrite (tree_get_app _ _ _ _ Hget). simpl.
  rewrite (lookup_entry_nodup f' (File c)) by done. reflexivity.
Qed.

(** ** [_upload_to_bucket] (claims C7 and C8) *)

Lemma for_each_app {A S} (f : S -> A -> result S) xs ys s :
  for_each f (xs ++ ys) s = (do s' <- for_each f xs s; for_each f ys s').
Proof.
  revert s. induction xs as [|x xs IH]; intros s; simpl; [done|].
  destruct (f s x); simpl; [apply IH|done].
Qed.

Lemma for_each_map {A B S} (f : S -> B -> result S) (g : A -> B) xs s :
  for_each f (List.map g xs) s = for_each (fun s x => f s (g x)) xs s.
Proof.
  revert s. induction xs as [|x xs IH]; intros s; simpl; [done|].
  destruct (f s (g x)); simpl; [apply IH|done].
Qed.

(** The two nested loops are one loop over the files of the walk. *)
Lemma upload_loops_flat self out entries st :
  for_each (upload_entry self out) entries st
  = for_each (upload_step self out)
      (flat_map (fun e => List.map (fun f => (fst (fst e), f)) (snd e)) entries) st.
Proof.
  revert st. induction entries as [|[[d ds] fs] entries IH]; intros st; simpl; [done|].
  rewrite for_each_app, for_each_map. unfold upload_step at 1. simpl.
  destruct (for_each _ fs st); simpl; [apply IH|done].
Qed.

Lemma upload_step_eq self out b tbd d f :
  upload_step self out (b, tbd) (d, f)
  = if should_upload self b (rel_join d f) then
      do body <- read_file (Some out) (rel_join d f);
      Ok (s3_put b (rel_join d f)
            (S3Obj body (cache_control_of self (rel_join d f))),
          list_remove (rel_join d f) tbd)
    else Ok (b, list_remove (rel_join d f) tbd).
Proof.
  unfold upload_step, upload_file, should_upload, cache_control_of, is_asset_key. simpl.
  rewrite splitext_ext_rel_join. reflexivity.
Qed.

Lemma should_upload_mono self b b' key :
  (is_Some (objects b !! key) -> is_Some (objects b' !! key)) ->
  should_upload self b' key = true -> should_upload self b key = true.
Proof.
  unfold should_upload, get_key. intros Hm.
  rewrite !orb_true_iff, !bool_decide_eq_true. intros [Hn|Ha]; [left|right; done].
  destruct (objects b !! key) eqn:E; [|done].
  destruct Hm as [x Hx]; [eauto|congruence].
Qed.

Lemma should_upload_put_ne self b key obj key' :
  key <> key' -> should_upload self (s3_put b key obj) key' = should_upload self b key'.
Proof.
  intros Hne. unfold should_upload, get_key. simpl. rewrite lookup_insert_ne by done.
  reflexivity.
Qed.

(** What the loop over the files [fl] does to the bucket [b] and to the
    list [tbd]. *)
Lemma upload_loop_spec self out fl b tbd b' tbd' :
  for_each (upload_step self out) fl (b, tbd) = Ok (b', tbd') ->
  tbd' = remove_all (keys_of fl) tbd /\
  exists puts,
    requests b' = requests b ++ puts /\
    (forall r, r ∈ puts -> exists key body,
        r = S3Put key (S3Obj body (cache_control_of self key)) /\
        key ∈ keys_of fl /\ should_upload self b key = true /\
        read_file (Some out) key = Ok body) /\
    (forall key, key ∈ keys_of fl -> should_upload self b key = true ->
                 exists obj, S3Put key obj ∈ puts) /\
    (forall key, key ∈ keys_of fl -> is_Some (objects b' !! key)) /\
    (forall key, key ∉ keys_of fl -> objects b' !! key = objects b !! key) /\
    (forall key, is_Some (objects b !! key) -> is_Some (objects b' !! key)).
Proof.
  revert b tbd. induction fl as [|[d f] fl IH]; intros b tbd.
  - simpl. intros [= <- <-]. split; [reflexivity|]. exists [].
    rewrite app_nil_r. repeat split; auto.
    + intros r Hr. apply elem_of_nil in Hr. done.
    + intros key Hk. apply elem_of_nil in Hk. done.
    + intros key Hk. apply elem_of_nil in Hk. done.
  - cbn [for_each]. rewrite upload_step_eq. set (key0 := rel_join d f).
    change (keys_of ((d, f) :: fl)) with (key0 :: keys_of fl).
    destruct (should_upload self b key0) eqn:Hsu.
    + destruct (read_file (Some out) key0) as [body|e] eqn:Hread; simpl; [|done].
      intros Hrest.
      apply IH in Hrest as (Htbd & puts & Hreq & Hputs & Hall & Hpres & Hout & Hmono).
      split; [exact Htbd|].
      exists (S3Put key0 (S3Obj body (cache_control_of self key0)) :: puts).
      assert (forall k, is_Some (objects b !! k) ->
                        is_Some (objects (s3_put b key0 (S3Obj body (cache_control_of self key0))) !! k))
        as Hput_mono.
      { intros k Hk. simpl. apply lookup_insert_is_Some'. auto. }
      split; [|split; [|split; [|split; [|split]]]].
      * rewrite Hreq. simpl. rewrite <- app_assoc. reflexivity.
      * intros r Hr. apply elem_of_cons in Hr as [->|Hr].
        -- exists key0, body. repeat split; [left|done|done].
        -- destruct (Hputs r Hr) as (key & body' & -> & Hk & Hs & Hrd).
           exists key, body'. repeat split; [by right| |done].
           eapply should_upload_mono; [apply Hput_mono|exact Hs].
      * intros key Hk Hs. destruct (decide (key = key0)) as [->|Hne].
        -- eexists. left.
        -- apply elem_of_cons in Hk as [?|Hk]; [done|].
           destruct (Hall key Hk) as [obj Hobj].
           { rewrite should_upload_put_ne by done. exact Hs. }
           exists obj. right. exact Hobj.
      * intros key Hk. apply elem_of_cons in Hk as [->|Hk]; [|auto].
        apply Hmono. simpl. rewrite lookup_insert_eq. eauto.
      * intros key Hk. apply not_elem_of_cons in Hk as [Hne Hk].
        rewrite Hout by done. simpl. rewrite lookup_insert_ne by done. reflexivity.
      * intros key Hk. apply Hmono, Hput_mono, Hk.
    + simpl. intros Hrest.
      apply IH in Hrest as (Htbd & puts & Hreq & Hputs & Hall & Hpres & Hout & Hmono).
      split; [exact Htbd|]. exists puts.
      split; [exact Hreq|]. split; [|split; [|split; [|split]]].
      * intros r Hr. destruct (Hputs r Hr) as (key & body' & -> & Hk & Hs & Hrd).
        exists key, body'. repeat split; [by right|done|done].
      * intros key Hk Hs. apply elem_of_cons in Hk as [->|Hk]; [congruence|auto].
      * intros key Hk. apply elem_of_cons in Hk as [->|Hk]; [|auto].
        apply Hmono. unfold should_upload, get_key in Hsu.
        apply orb_false_iff in Hsu as [Hsu _]. apply bool_decide_eq_false in Hsu.
        destruct (objects b !! key0); [eauto|done].
      * intros key Hk. apply not_elem_of_cons in Hk as [Hne Hk]. auto.
      * exact Hmono.
Qed.

(** The loop succeeds when every file can be read. *)
Lemma upload_loop_total self out fl st :
  (forall df, df ∈ fl -> exists c, read_file (Some out) (rel_join (fst df) (snd df)) = Ok c) ->
  exists st', for_each (upload_step self out) fl st = Ok st'.
Proof.
  revert st. induction fl as [|[d f] fl IH]; intros [b tbd] Hrd; [simpl; eauto|].
  cbn [for_each]. rewrite upload_step_eq.
  destruct (Hrd (d, f)) as [c Hc]; [left|]. cbn [fst snd] in Hc. rewrite Hc.
  destruct (should_upload self b (rel_join d f)); simpl;
    apply IH; intros; apply Hrd; by right.
Qed.

(** Removing from a list without duplicates. *)
Lemma list_remove_spec x l :
  NoDup l -> NoDup (list_remove x l) /\ forall k, k ∈ list_remove x l <-> k ∈ l /\ k <> x.
Proof.
  induction l as [|y l IH]; simpl; intros Hnd.
  - split; [constructor|]. intros k. rewrite elem_of_nil. tauto.
  - apply NoDup_cons in Hnd as [Hy Hnd]. destruct (IH Hnd) as [IH1 IH2].
    destruct (str_eqb y x) eqn:E.
    + apply str_eqb_eq in E as ->. split; [done|].
      intros k. rewrite elem_of_cons. split; [|tauto].
      intros Hk. split; [auto|]. intros ->. done.
    + assert (y <> x) as Hne by (intros ->; rewrite str_eqb_refl in E; discriminate).
      split.
      * apply NoDup_cons. split; [|done]. rewrite IH2. tauto.
      * intros k. rewrite !elem_of_cons, IH2. split; [|tauto].
        intros [->|[? ?]]; auto.
Qed.

Lemma remove_all_spec ks l :
  NoDup l -> forall k, k ∈ remove_all ks l <-> k ∈ l /\ (k ∉ ks).
Proof.
  unfold remove_all. revert l. induction ks as [|x ks IH]; intros l Hnd k; simpl.
  - rewrite elem_of_nil. tauto.
  - destruct (list_remove_spec x l Hnd) as [Hnd' Hel].
    rewrite (IH _ Hnd'), Hel, not_elem_of_cons. tauto.
Qed.

Lemma bucket_list_spec b k : k ∈ bucket_list b <-> is_Some (get_key b k).
Proof.
  unfold bucket_list, get_key. rewrite list_elem_of_fmap. split.
  - intros ([k' o] & -> & Hin). apply elem_of_map_to_list in Hin. simpl. eauto.
  - intros [o Ho]. exists (k, o). split; [done|]. apply elem_of_map_to_list, Ho.
Qed.

Lemma walk_files_elem t dirpath dirnames fnames f :
  (dirpath, dirnames, fnames) ∈ walk [] t -> f ∈ fnames -> (dirpath, f) ∈ walk_files t.
Proof.
  intros He Hf. unfold walk_files. apply elem_of_flat_map.
  exists (dirpath, dirnames, fnames). split; [done|]. simpl.
  apply list_elem_of_fmap. eauto.
Qed.

Lemma local_keys_elem t dirpath dirnames fnames f :
  (dirpath, dirnames, fnames) ∈ walk [] t -> f ∈ fnames ->
  rel_join dirpath f ∈ local_keys t.
Proof.
  intros He Hf. unfold local_keys. apply list_elem_of_fmap.
  exists (dirpath, f). split; [done|]. eapply walk_files_elem; eauto.
Qed.

(** The whole of [_upload_to_bucket] on a well-formed output tree. *)
Lemma upload_spec self out b0 :
  wf_tree out = true ->
  exists b1 puts D,
    _upload_to_bucket self out (Some b0) = Ok b1 /\
    requests b1 = requests b0 ++ puts ++ [S3DeleteKeys D] /\
    (forall r, r ∈ puts -> exists key body,
        r = S3Put key (S3Obj body (cache_control_of self key)) /\
        key ∈ local_keys out /\ should_upload self b0 key = true /\
        read_file (Some out) key = Ok body) /\
    (forall key, key ∈ local_keys out -> should_upload self b0 key = true ->
                 exists obj, S3Put key obj ∈ puts) /\
    (forall k, k ∈ D <-> is_Some (get_key b0 k) /\ (k ∉ local_keys out)) /\
    (forall k, k ∈ local_keys out -> is_Some (get_key b1 k)) /\
    (forall k, k ∉ local_keys out -> get_key b1 k = None).
Proof.
  intros Hwf. unfold _upload_to_bucket. rewrite upload_loops_flat.
  fold (walk_files out).
  destruct (upload_loop_total self out (walk_files out) (b0, bucket_list b0))
    as [[b' tbd'] Hloop].
  { intros [d f] Hdf. apply (walk_files_readable out d f Hwf Hdf). }
  rewrite Hloop. simpl.
  apply upload_loop_spec in Hloop as (-> & puts & Hreq & Hputs & Hall & Hpres & Hout & Hmono).
  fold (local_keys out) in *.
  assert (forall k, k ∈ remove_all (local_keys out) (bucket_list b0)
                    <-> is_Some (get_key b0 k) /\ (k ∉ local_keys out)) as HD.
  { intros k. rewrite remove_all_spec by apply NoDup_fst_map_to_list.
    rewrite bucket_list_spec. tauto. }
  eexists _, puts, _. split; [reflexivity|].
  split; [simpl; rewrite Hreq, <- app_assoc; reflexivity|].
  split; [exact Hputs|]. split; [exact Hall|]. split; [exact HD|]. split.
  - intros k Hk. unfold get_key. simpl.
    rewrite lookup_foldr_delete_not_elem_of; [auto|].
    rewrite HD. tauto.
  - intros k Hk. unfold get_key. simpl.
    destruct (decide (k ∈ remove_all (local_keys out) (bucket_list b0))) as [Hin|Hn].
    + apply lookup_foldr_delete, Hin.
    + rewrite lookup_foldr_delete_not_elem_of, Hout by done.
      destruct (objects b0 !! k) eqn:E; [|done].
      exfalso. apply Hn, HD. unfold get_key. rewrite E. eauto.
Qed.

(** C7: the synchronization of a well-formed output tree succeeds, and
    for every file of the tree: an asset is uploaded exactly when the
    bucket has no object under its key, a file that is no asset is always
    uploaded, and an uploaded object carries [public, max-age=31556926]
    when it is an asset and [no-cache, max-age=0] when it is not. *)
Theorem C7_upload_decision self out b0 :
  wf_tree out = true ->
  exists b1 puts D,
    _upload_to_bucket self out (Some b0) = Ok b1 /\
    requests b1 = requests b0 ++ puts ++ [S3DeleteKeys D] /\
    forall dirpath dirnames fnames f,
      (dirpath, dirnames, fnames) ∈ walk [] out -> f ∈ fnames ->
      let key := rel_join dirpath f in
      let is_asset := bool_decide (snd (splitext f) ∈ _assets_ext self) in
      (is_asset = true -> ((exists obj, S3Put key obj ∈ puts) <-> get_key b0 key = None)) /\
      (is_asset = false -> exists obj, S3Put key obj ∈ puts) /\
      (forall obj, S3Put key obj ∈ puts ->
         obj_cache_control obj = if is_asset then cache_forever else cache_never).
Proof.
  intros Hwf.
  destruct (upload_spec self out b0 Hwf)
    as (b1 & puts & D & Hup & Hreq & Hputs & Hall & _).
  exists b1, puts, D. split; [exact Hup|]. split; [exact Hreq|].
  intros dirpath dirnames fnames f He Hf key is_asset.
  pose proof (local_keys_elem _ _ _ _ _ He Hf) as Hkey. fold key in Hkey.
  assert (is_asset_key self key = is_asset) as Hasset.
  { unfold is_asset_key, key, is_asset. rewrite splitext_ext_rel_join. reflexivity. }
  assert (forall obj, S3Put key obj ∈ puts ->
            should_upload self b0 key = true /\
            obj_cache_control obj = cache_control_of self key) as Hput.
  { intros obj Hobj. destruct (Hputs _ Hobj) as (key' & body & [= <- ->] & _ & Hs & _).
    split; [exact Hs|reflexivity]. }
  split; [|split].
  - intros Ha. split.
    + intros [obj Hobj]. destruct (Hput obj Hobj) as [Hs _].
      unfold should_upload in Hs. rewrite Hasset, Ha, orb_false_r in Hs.
      apply bool_decide_eq_true in Hs. exact Hs.
    + intros Hnone. apply Hall; [exact Hkey|].
      unfold should_upload. rewrite bool_decide_eq_true_2 by done. reflexivity.
  - intros Ha. apply Hall; [exact Hkey|].
    unfold should_upload. rewrite Hasset, Ha. apply orb_true_r.
  - intros obj Hobj. destruct (Hput obj Hobj) as [_ ->].
    unfold cache_control_of. rewrite Hasset. reflexivity.
Qed.

Lemma C7_witness :
  exists b1 puts D,
    _upload_to_bucket (example_optimizer []) synced_out (Some synced_remote) = Ok b1 /\
    requests b1 = requests synced_remote ++ puts ++ [S3DeleteKeys D] /\
    (exists obj, S3Put (lit "index.html") obj ∈ puts) /\
    ~ (exists obj, S3Put (lit "style.1111.css") obj ∈ puts).
Proof.
  destruct (C7_upload_decision (example_optimizer []) synced_out synced_remote eq_refl)
    as (b1 & puts & D & Hup & Hreq & Hdec).
  exists b1, puts, D. split; [exact Hup|]. split; [exact Hreq|].
  assert (([], [], [lit "index.html"; lit "style.1111.css"]) ∈ walk [] synced_out) as Hw
    by (vm_compute; left).
  split.
  - destruct (Hdec _ _ _ (lit "index.html") Hw) as (_ & Hplain & _); [left|].
    apply Hplain. vm_compute. reflexivity.
  - destruct (Hdec _ _ _ (lit "style.1111.css") Hw) as (Hasset & _); [right; left|].
    intros Hput. apply Hasset in Hput; [|vm_compute; reflexivity].
    unfold get_key, synced_remote in Hput. simpl in Hput.
    rewrite lookup_singleton_eq in Hput. discriminate Hput.
Defined.

(** C8: after the walk every key of the bucket that is not the relative
    path of a file of the output tree is deleted, and only those; nothing
    is deleted before the walk ends; in the end the bucket holds an object
    under every local path and under no other key. *)
Theorem C8_stale_deletion self out b0 :
  wf_tree out = true ->
  exists b1 puts D,
    _upload_to_bucket self out (Some b0) = Ok b1 /\
    requests b1 = requests b0 ++ puts ++ [S3DeleteKeys D] /\
    (forall r, r ∈ puts -> exists key obj, r = S3Put key obj) /\
    (forall k, k ∈ D <-> is_Some (get_key b0 k) /\ (k ∉ local_keys out)) /\
    (forall k, k ∈ local_keys out -> (k ∉ D) /\ is_Some (get_key b1 k)) /\
    (forall k, k ∉ local_keys out -> get_key b1 k = None).
Proof.
  intros Hwf.
  destruct (upload_spec self out b0 Hwf)
    as (b1 & puts & D & Hup & Hreq & Hputs & _ & HD & Hpres & Hgone).
  exists b1, puts, D. split; [exact Hup|]. split; [exact Hreq|].
  split; [|split; [exact HD|split; [|exact Hgone]]].
  - intros r Hr. destruct (Hputs r Hr) as (key & body & -> & _). eauto.
  - intros k Hk. split; [|auto]. rewrite HD. tauto.
Qed.

(** The bucket holds [old.1111.css], the output tree only [old.2222.css]:
    afterwards the bucket holds [old.2222.css] and not [old.1111.css]. *)
Lemma C8_witness :
  exists b1,
    _upload_to_bucket (example_optimizer []) stale_out (Some stale_remote) = Ok b1 /\
    is_Some (get_key b1 (lit "old.2222.css")) /\
    get_key b1 (lit "old.1111.css") = None.
Proof.
  destruct (C8_stale_deletion (example_optimizer []) stale_out stale_remote eq_refl)
    as (b1 & puts & D & Hup & _ & _ & _ & Hlocal & Hgone).
  exists b1. split; [exact Hup|]. split.
  - apply Hlocal. decide_by_compute.
  - apply Hgone. decide_by_compute.
Defined.

(** ** The constructor and [main] (claims C3 and C9) *)

(** Line 105: [skip_s3_upload] is no local name of [__init__], no global
    of the module and no builtin. *)
Lemma skip_s3_upload_unbound logger locals :
  load_name (module_globals logger) locals "skip_s3_upload"
  = Raise (NameError (lit "skip_s3_upload")).
Proof. vm_compute. reflexivity. Qed.

(** Lines 80-107 never complete: a step before line 105 raises, or line
    105 does. *)
Lemma init_rest_raises `{OSModel} logger locals st p :
  exists e, init_rest (module_globals logger) locals st p = Raise e.
Proof.
  unfold init_rest.
  repeat match goal with
         | |- exists e, Raise _ = Raise e => eexists; reflexivity
         | |- exists e, rbind (load_name _ _ "skip_s3_upload") _ = Raise e =>
             rewrite skip_s3_upload_unbound; cbn [rbind]
         | |- exists e, rbind ?r _ = Raise e =>
             let x := fresh "x" in destruct r as [x|?]; cbn [rbind]
         end.
Qed.

Lemma init_raises `{OSModel} logger locals st :
  exists e, __init__ (module_globals logger) locals st = Raise e.
Proof.
  unfold __init__.
  repeat match goal with
         | |- exists e, Raise _ = Raise e => eexists; reflexivity
         | |- exists e, rbind ?r _ = Raise e =>
             let x := fresh "x" in destruct r as [x|?]; cbn [rbind]
         end.
  apply init_rest_raises.
Qed.

(** The call of line 325 does not get past the binding of its arguments. *)
Lemma main_try_raises `{OSModel} args st w :
  main_try args st w
  = Raise (TypeError (lit "__init__() got an unexpected keyword argument 'skip_s3_upload'")).
Proof. reflexivity. Qed.

(** C3: whatever the arguments, the constructor raises: an error of the
    call or of its checks, or else the [NameError] of line 105; and the
    call that [main] makes raises the [TypeError] of a keyword that
    [__init__] does not accept, so that [main] ends with status 1 and
    [run] is never reached. *)
Theorem C3_constructor_always_raises `{OSModel} :
  (forall logger pos kw st,
     exists e, construct (module_globals logger) pos kw st = Raise e) /\
  (forall logger locals,
     load_name (module_globals logger) locals "skip_s3_upload"
     = Raise (NameError (lit "skip_s3_upload"))) /\
  (forall args st w,
     main_try args st w
     = Raise (TypeError (lit "__init__() got an unexpected keyword argument 'skip_s3_upload'"))
     /\ main args st w = 1).
Proof.
  split; [|split].
  - intros logger pos kw st. unfold construct.
    destruct (bind_args init_params pos kw) as [locals|e]; cbn [rbind].
    + apply init_raises.
    + eexists; reflexivity.
  - apply skip_s3_upload_unbound.
  - intros args st w. split; [apply main_try_raises|].
    unfold main. rewrite main_try_raises. reflexivity.
Qed.

(** *** Which exceptions a computation can raise *)

Section raises_only_facts.
Context {A : Type} (P : exn -> Prop).

Lemma raises_only_ok (a : A) : raises_only P (Ok a).
Proof. intros e [=]. Qed.

Lemma raises_only_raise e : P e -> raises_only P (Raise e : result A).
Proof. intros He e' [= <-]. exact He. Qed.

Lemma raises_only_bind {B} (r : result B) (k : B -> result A) :
  raises_only P r -> (forall b, raises_only P (k b)) -> raises_only P (rbind r k).
Proof.
  intros Hr Hk e. destruct r as [b|e']; simpl.
  - apply Hk.
  - intros [= <-]. apply Hr. reflexivity.
Qed.

Lemma raises_only_if (b : bool) (r1 r2 : result A) :
  raises_only P r1 -> raises_only P r2 -> raises_only P (if b then r1 else r2).
Proof. destruct b; auto. Qed.
End raises_only_facts.

Lemma load_name_raises P globals locals name :
  (forall m, P (NameError m)) -> raises_only P (load_name globals locals name).
Proof.
  intros HP. unfold load_name, load_global.
  repeat first [apply raises_only_if | apply raises_only_ok | apply raises_only_raise, HP
               | match goal with |- raises_only _ (match ?x with _ => _ end) => destruct x end].
Qed.

Lemma logger_debug_raises P globals :
  (forall m, P (NameError m)) -> (forall m, P (AttributeError m)) ->
  raises_only P (logger_debug globals).
Proof.
  intros HN HA. unfold logger_debug, load_global.
  destruct (env_get "logger" globals) as [[]|]; cbn [rbind];
    try (apply raises_only_ok); try (apply raises_only_raise, HA).
  case_bool_decide; cbn [rbind];
    [apply raises_only_ok|apply raises_only_raise, HN].
Qed.

Lemma init_output_dir_raises `{OSModel} P st v :
  (forall m, P (TypeError m)) -> (forall m, P (OSError m)) ->
  (forall q, P (OptimizerError (q ++ lit " is not a directory and cannot be created"))) ->
  (forall q, P (OptimizerError (q ++ lit " is not a writable dir"))) ->
  raises_only P (init_output_dir st v).
Proof.
  intros HT HO HC HW.
  unfold init_output_dir, stat_type_error, access_type_error, fspath_type_error.
  destruct v as [|b|q| |]; try (apply raises_only_raise, HT).
  - destruct (os_mkdtemp st); [apply raises_only_ok|apply raises_only_raise, HO].
  - destruct (os_isdir_fd st (fd_of b)); apply raises_only_raise, HT.
  - destruct (os_isdir st q); cbn [negb].
    + cbn [rbind]. destruct (os_access st q W_OK); cbn [negb];
        [apply raises_only_ok|apply raises_only_raise, HW].
    + destruct (os_makedirs st q) as [st'|]; cbn [rbind].
      * destruct (os_access st' q W_OK); cbn [negb];
          [apply raises_only_ok|apply raises_only_raise, HW].
      * apply raises_only_raise, HC.
Qed.

(** What lines 80-107 can raise. *)
Lemma init_rest_raises_only `{OSModel} P globals locals st p :
  (forall m, P (NameError m)) -> (forall m, P (AttributeError m)) ->
  (forall m, P (TypeError m)) -> (forall m, P (OSError m)) ->
  (forall q, P (OptimizerError (q ++ lit " is not a directory and cannot be created"))) ->
  (forall q, P (OptimizerError (q ++ lit " is not a writable dir"))) ->
  raises_only P (init_rest globals locals st p).
Proof.
  intros HN HA HT HO HC HW. unfold init_rest.
  repeat first
    [ apply load_name_raises, HN
    | apply logger_debug_raises; [exact HN|exact HA]
    | apply init_output_dir_raises; [exact HT|exact HO|exact HC|exact HW]
    | apply raises_only_ok
    | apply raises_only_bind; [|intros ?] ].
Qed.

(** The messages of the constructor end differently. *)
Lemma suffix_last_ne (p q s1 s2 : str) :
  s1 <> [] -> s2 <> [] -> last s1 <> last s2 -> p ++ s1 <> q ++ s2.
Proof.
  intros H1 H2 Hl Heq. apply Hl.
  apply (f_equal last) in Heq.
  destruct s1 as [|a s1] using rev_ind; [done|].
  destruct s2 as [|b s2] using rev_ind; [done|].
  rewrite !app_assoc, !last_snoc in Heq. rewrite !last_snoc. exact Heq.
Qed.

Lemma suffix_same_length_ne (p q s1 s2 : str) :
  length s1 = length s2 -> s1 <> s2 -> p ++ s1 <> q ++ s2.
Proof. intros Hlen Hne Heq. apply app_inj_2 in Heq as [_ ?]; done. Qed.

Lemma load_source_dir logger locals v :
  env_get "source_dir" locals = Some v ->
  load_name (module_globals logger) locals "source_dir" = Ok v.
Proof.
  intros H. unfold load_name.
  rewrite bool_decide_eq_true_2 by decide_by_compute. rewrite H. reflexivity.
Qed.

(** C9 (as amended): it is the constructor, before any indexing, that
    rejects a source root that is no directory or cannot be read, and it
    does so with [OptimizerError] ("... is not a valid path", "... is not
    a readable dir"); for every readable source directory neither error is
    raised.  [NotADirectoryError] is never raised: [_index_source_dir]
    itself raises nothing, and indexes nothing under a root that cannot
    be listed. *)
Theorem C9_source_root_check `{OSModel} pos kw st locals p :
  bind_args init_params pos kw = Ok locals ->
  env_get "source_dir" locals = Some (VStr p) ->
  let r := construct (module_globals (VObj "Logger")) pos kw st in
  (os_isdir st p = false -> r = Raise (OptimizerError (p ++ lit " is not a valid path"))) /\
  (os_isdir st p = true -> os_access st p R_OK = false ->
   r = Raise (OptimizerError (p ++ lit " is not a readable dir"))) /\
  (os_isdir st p = true -> os_access st p R_OK = true ->
   r <> Raise (OptimizerError (p ++ lit " is not a valid path")) /\
   r <> Raise (OptimizerError (p ++ lit " is not a readable dir"))) /\
  (forall path, r <> Raise (NotADirectoryError path)) /\
  (forall self, _index_source_dir self None = self).
Proof.
  intros Hbind Hsrc r.
  assert (r = (do p' <- check_source_dir st (VStr p);
               init_rest (module_globals (VObj "Logger")) locals st p')) as Hr.
  { unfold r, construct, __init__. rewrite Hbind. cbn [rbind].
    change (logger_debug (module_globals (VObj "Logger"))) with (Ok tt : result unit).
    rewrite (load_source_dir _ _ _ Hsrc). reflexivity. }
  clearbody r. subst r. unfold check_source_dir.
  split; [|split; [|split; [|split]]].
  - intros ->. reflexivity.
  - intros -> ->. reflexivity.
  - intros -> ->. cbn [negb rbind].
    pose proof (init_rest_raises_only
                  (fun e => e <> OptimizerError (p ++ lit " is not a valid path") /\
                            e <> OptimizerError (p ++ lit " is not a readable dir"))
                  (module_globals (VObj "Logger")) locals st p) as Hrest.
    cbv beta in Hrest.
    assert (forall e, init_rest (module_globals (VObj "Logger")) locals st p = Raise e ->
                      e <> OptimizerError (p ++ lit " is not a valid path") /\
                      e <> OptimizerError (p ++ lit " is not a readable dir")) as Hne.
    { apply Hrest; intros; split; try discriminate;
        intros [= Heq]; revert Heq;
        first [ apply suffix_last_ne; literal_neq
              | apply suffix_same_length_ne; [reflexivity|literal_neq] ]. }
    split; intros Heq; apply Hne in Heq as [H1 H2]; congruence.
  - intros path Heq.
    assert (raises_only (fun e => forall q, e <> NotADirectoryError q)
              (do p' <- check_source_dir st (VStr p);
               init_rest (module_globals (VObj "Logger")) locals st p')) as Hbody.
    { apply raises_only_bind; [|intros ?].
      - unfold check_source_dir.
        repeat first [apply raises_only_if | apply raises_only_ok | apply raises_only_raise];
          intros; discriminate.
      - apply init_rest_raises_only; intros; discriminate. }
    apply Hbody in Heq. apply (Heq path). reflexivity.
  - reflexivity.
Qed.

Lemma C9_witness :
  construct (module_globals (VObj "Logger")) [VStr (lit "nowhere"); VStr (lit "b")] []
            ([(lit "site", (true, true))] : @os_state list_os)
  = Raise (OptimizerError (lit "nowhere is not a valid path")).
Proof.
  destruct (C9_source_root_check
              [VStr (lit "nowhere"); VStr (lit "b")] []
              ([(lit "site", (true, true))] : @os_state list_os)
              [("source_dir"%string, VStr (lit "nowhere"));
               ("destination_bucket"%string, VStr (lit "b"));
               ("exclude"%string, VList []); ("output_dir"%string, VNone);
               ("aws_access_key_id"%string, VNone);
               ("aws_secret_access_key"%string, VNone)]
              (lit "nowhere")) as (Hmissing & _).
  - vm_compute. reflexivity.
  - vm_compute. reflexivity.
  - apply Hmissing. vm_compute. reflexivity.
Defined.

(** C9 as stated fails: with no source root the run does not raise
    [NotADirectoryError]: the walk lists nothing and the run goes on to
    synchronize the (empty) output tree. *)
Lemma C9_counterexample :
  ~ (forall self w, w_source w = None ->
       exists path, run self w = Raise (NotADirectoryError path)).
Proof.
  intros H.
  destruct (H (example_optimizer []) (World None (Dir []) (Some (S3Bucket ∅ []))) eq_refl)
    as [path Hrun].
  vm_compute in Hrun. discriminate Hrun.
Qed.

(** * Further properties

    The properties below go beyond the specification: they are read off
    the code of each stage, in the order of the module. *)

(** ** [hashfile], lines 31-40 *)

(** X1: with [blocksize = 0] the first [read] returns nothing, the loop
    is not entered, and the result is the digest of what the hasher held
    before the call, whatever the file contains: for a fresh [sha256()]
    the digest of the empty string. *)
Theorem X1_hashfile_blocksize_zero content :
  (forall (H : Hasher) (hasher : hasher_state),
     hashfile (FileObj content) hasher 0 = hasher_hexdigest hasher) /\
  hashfile (FileObj content) sha256 0
  = lit "e3b0c44298fc1c149afbf4c8996fb92427ae41e4649b934ca495991b7852b855".
Proof.
  assert (forall (H : Hasher) (hasher : hasher_state),
            hashfile (FileObj content) hasher 0 = hasher_hexdigest hasher) as Hzero.
  { intros H hasher. unfold hashfile. simpl.
    rewrite hashfile_loop_equation_1. reflexivity. }
  split; [exact Hzero|].
  rewrite Hzero. apply sha256_empty.
Qed.

(** X2: for every hash object that obeys the law of [update], and every
    positive block size, [hashfile] returns the digest of what the hasher
    had been fed before, followed by the bytes of the file from its
    current position to its end. *)
Theorem X2_hashfile_continues_hasher `{HL : HasherLaws} hasher fed rest blocksize :
  (0 < blocksize)%nat ->
  hashfile (FileObj rest) (hasher_update hasher fed) blocksize
  = hasher_hexdigest (hasher_update hasher (fed ++ rest)).
Proof.
  intros Hb. rewrite (hashfile_spec blocksize Hb), update_app. reflexivity.
Qed.

Lemma X2_witness :
  hashfile (FileObj (lit "cd")) (hasher_update sha256 (lit "ab")) 1
  = SHA256.hexdigest (lit "abcd").
Proof.
  apply (X2_hashfile_continues_hasher (HL := sha256_laws) sha256 (lit "ab") (lit "cd") 1).
  lia.
Defined.

(** ** [convert_filename], lines 42-48 *)

Lemma stem_ok_app_digest stem h :
  (chr_sep ∉ h) -> stem_ok stem = true -> stem_ok (stem ++ chr_dot :: h) = true.
Proof.
  intros Hs Hok. unfold stem_ok in *.
  rewrite basename_app_notin.
  - rewrite existsb_app, Hok. reflexivity.
  - intros Hin. apply elem_of_cons in Hin as [Hin|Hin]; [discriminate Hin|done].
Qed.

Lemma convert_filename_splitext p h :
  (chr_sep ∉ h) ->
  (snd (splitext p) <> [] ->
   splitext (convert_filename p h) = (fst (splitext p) ++ chr_dot :: h, snd (splitext p))) /\
  (snd (splitext p) = [] -> (chr_dot ∉ h) ->
   splitext (convert_filename p h)
   = if stem_ok p then (p, chr_dot :: h) else (convert_filename p h, [])).
Proof.
  intros Hs. rewrite !convert_filename_eq.
  destruct (splitext_cases p) as [E|(stem & e & -> & Hd & Hse & Hok & E)];
    rewrite E; simpl; (split; [intros Hne|intros Hnil]); try done.
  - intros Hdot. rewrite app_nil_r, splitext_dotted by done. reflexivity.
  - replace (stem ++ chr_dot :: h ++ chr_dot :: e)
      with ((stem ++ chr_dot :: h) ++ chr_dot :: e) by (rewrite <- app_assoc; done).
    rewrite splitext_dotted, stem_ok_app_digest by done. reflexivity.
Qed.



Lemma splitext_stem_rel_join d f :
  (chr_sep ∉ f) -> d <> [] ->
  fst (splitext (rel_join d f)) = d ++ chr_sep :: fst (splitext f).
Proof.
  intros Hf Hd.
  pose proof (splitext_app (rel_join d f)) as H1.
  pose proof (splitext_app f) as H2.
  rewrite splitext_ext_rel_join in H1.
  destruct d as [|c d]; [done|]. unfold rel_join in *.
  rewrite <- H2 in H1 at 3.
  replace ((c :: d) ++ chr_sep :: fst (splitext f) ++ snd (splitext f))
    with (((c :: d) ++ chr_sep :: fst (splitext f)) ++ snd (splitext f)) in H1
    by (rewrite <- app_assoc; done).
  apply app_inv_tail in H1. exact H1.
Qed.

Lemma convert_filename_rel_join d f h :
  (chr_sep ∉ f) -> convert_filename (rel_join d f) h = rel_join d (convert_filename f h).
Proof.
  intros Hf. destruct d as [|c d]; [reflexivity|].
  rewrite !convert_filename_eq, splitext_ext_rel_join, splitext_stem_rel_join by done.
  unfold rel_join. rewrite <- app_assoc. reflexivity.
Qed.

(** X4: the new name lies in the directory of the old one: only the last
    component of the path changes. *)
Theorem X4_convert_filename_same_directory d f h :
  (chr_sep ∉ f) -> convert_filename (rel_join d f) h = rel_join d (convert_filename f h).
Proof. apply convert_filename_rel_join. Qed.

Lemma X4_witness :
  convert_filename (rel_join (lit "css/v2") (lit "app.css")) (lit "0f")
  = rel_join (lit "css/v2") (convert_filename (lit "app.css") (lit "0f")).
Proof.
  apply (X4_convert_filename_same_directory (lit "css/v2") (lit "app.css") (lit "0f")).
  decide_by_compute.
Defined.

(** ** [_index_source_dir], lines 110-142 *)

Lemma not_excluded_app ex l1 l2 :
  not_excluded ex (l1 ++ l2) = not_excluded ex l1 ++ not_excluded ex l2.
Proof. apply List.filter_app. Qed.

Lemma not_excluded_elem ex l p :
  p ∈ not_excluded ex l <-> p ∈ l /\ excluded ex p = false.
Proof.
  unfold not_excluded. rewrite !list_elem_of_In, filter_In, negb_true_iff. reflexivity.
Qed.

Lemma index_dir_fields d self x :
  _files (index_dir d self x) = _files self /\
  _rewritables (index_dir d self x) = _rewritables self /\
  _exclude (index_dir d self x) = _exclude self /\
  _rewriteables_ext (index_dir d self x) = _rewriteables_ext self /\
  _subdirs (index_dir d self x)
  = _subdirs self ++ not_excluded (_exclude self) [rel_join d x].
Proof.
  unfold index_dir, not_excluded. simpl.
  destruct (excluded (_exclude self) (rel_join d x)); simpl; rewrite ?app_nil_r; done.
Qed.

Lemma index_file_fields d self f :
  _subdirs (index_file d self f) = _subdirs self /\
  _exclude (index_file d self f) = _exclude self /\
  _rewriteables_ext (index_file d self f) = _rewriteables_ext self /\
  _files (index_file d self f)
  = _files self ++ not_excluded (_exclude self) [rel_join d f] /\
  _rewritables (index_file d self f)
  = _rewritables self
    ++ with_ext (_rewriteables_ext self) (not_excluded (_exclude self) [rel_join d f]).
Proof.
  unfold index_file, not_excluded, with_ext. simpl.
  destruct (excluded (_exclude self) (rel_join d f)); simpl; rewrite ?app_nil_r; [done|].
  rewrite splitext_ext_rel_join.
  destruct (bool_decide (snd (splitext f) ∈ _assets_ext self)); simpl;
    destruct (bool_decide (snd (splitext f) ∈ _rewriteables_ext self)); simpl;
    rewrite ?app_nil_r; done.
Qed.

Lemma index_dirs_fields d ds self :
  let self' := fold_left (index_dir d) ds self in
  _files self' = _files self /\
  _rewritables self' = _rewritables self /\
  _exclude self' = _exclude self /\
  _rewriteables_ext self' = _rewriteables_ext self /\
  _subdirs self' = _subdirs self ++ not_excluded (_exclude self) (List.map (rel_join d) ds).
Proof.
  revert self. induction ds as [|x ds IH]; intros self; cbn [fold_left List.map].
  - rewrite app_nil_r. done.
  - destruct (IH (index_dir d self x)) as (H1 & H2 & H3 & H4 & H5).
    destruct (index_dir_fields d self x) as (G1 & G2 & G3 & G4 & G5).
    rewrite H1, H2, H3, H4, H5, G1, G2, G3, G4, G5, <- app_assoc.
    change (rel_join d x :: List.map (rel_join d) ds)
      with ([rel_join d x] ++ List.map (rel_join d) ds).
    rewrite not_excluded_app. done.
Qed.

Lemma with_ext_app exts l1 l2 : with_ext exts (l1 ++ l2) = with_ext exts l1 ++ with_ext exts l2.
Proof. apply List.filter_app. Qed.

Lemma index_files_fields d fs self :
  let self' := fold_left (index_file d) fs self in
  _subdirs self' = _subdirs self /\
  _exclude self' = _exclude self /\
  _rewriteables_ext self' = _rewriteables_ext self /\
  _files self' = _files self ++ not_excluded (_exclude self) (List.map (rel_join d) fs) /\
  _rewritables self'
  = _rewritables self
    ++ with_ext (_rewriteables_ext self)
         (not_excluded (_exclude self) (List.map (rel_join d) fs)).
Proof.
  revert self. induction fs as [|x fs IH]; intros self; cbn [fold_left List.map].
  - rewrite !app_nil_r. done.
  - destruct (IH (index_file d self x)) as (H1 & H2 & H3 & H4 & H5).
    destruct (index_file_fields d self x) as (G1 & G2 & G3 & G4 & G5).
    rewrite H1, H2, H3, H4, H5, G1, G2, G3, G4, G5, <- !app_assoc.
    change (rel_join d x :: List.map (rel_join d) fs)
      with ([rel_join d x] ++ List.map (rel_join d) fs).
    rewrite not_excluded_app, with_ext_app. done.
Qed.

(** The paths of the files and of the directories in a list of triples
    of a walk. *)
Lemma index_entries_fields es self :
  let self' := fold_left index_entry es self in
  _exclude self' = _exclude self /\
  _rewriteables_ext self' = _rewriteables_ext self /\
  _files self'
  = _files self
    ++ not_excluded (_exclude self)
         (flat_map (fun e => List.map (rel_join (fst (fst e))) (snd e)) es) /\
  _subdirs self'
  = _subdirs self
    ++ not_excluded (_exclude self)
         (flat_map (fun e => List.map (rel_join (fst (fst e))) (snd (fst e))) es) /\
  _rewritables self'
  = _rewritables self
    ++ with_ext (_rewriteables_ext self)
         (not_excluded (_exclude self)
            (flat_map (fun e => List.map (rel_join (fst (fst e))) (snd e)) es)).
Proof.
  revert self. induction es as [|[[d ds] fs] es IH]; intros self; cbn [fold_left flat_map fst snd].
  - rewrite !app_nil_r. done.
  - destruct (IH (index_entry self (d, ds, fs))) as (H1 & H2 & H3 & H4 & H5).
    unfold index_entry in *.
    destruct (index_files_fields d fs (fold_left (index_dir d) ds self))
      as (F1 & F2 & F3 & F4 & F5).
    destruct (index_dirs_fields d ds self) as (D1 & D2 & D3 & D4 & D5).
    rewrite H1, H2, H3, H4, H5, F1, F2, F3, F4, F5, D1, D2, D3, D4, D5.
    rewrite !not_excluded_app, !with_ext_app, <- !app_assoc. done.
Qed.

Lemma local_keys_flat t :
  local_keys t = flat_map (fun e => List.map (rel_join (fst (fst e))) (snd e)) (walk [] t).
Proof.
  unfold local_keys, walk_files.
  induction (walk [] t) as [|e es IH]; simpl; [reflexivity|].
  rewrite List.map_app, IH, List.map_map. reflexivity.
Qed.

Lemma index_new_fields source_dir bucket exclude output_dir ak sk skip source :
  let self := _index_source_dir
                (new_optimizer source_dir bucket exclude output_dir ak sk skip) source in
  _exclude self = exclude /\
  _files self = not_excluded exclude (source_files source) /\
  _subdirs self = not_excluded exclude (source_dirs source) /\
  _rewritables self = with_ext rewriteables_ext (_files self).
Proof.
  intros self.
  destruct (index_entries_fields (os_walk source)
              (new_optimizer source_dir bucket exclude output_dir ak sk skip))
    as (H1 & H2 & H3 & H4 & H5).
  fold (_index_source_dir (new_optimizer source_dir bucket exclude output_dir ak sk skip) source)
    in H1, H2, H3, H4, H5.
  fold self in H1, H2, H3, H4, H5. simpl in H1, H2, H3, H4, H5.
  assert (flat_map (fun e => List.map (rel_join (fst (fst e))) (snd e)) (os_walk source)
          = source_files source) as Ef.
  { destruct source as [t|]; simpl; [symmetry; apply local_keys_flat|reflexivity]. }
  assert (flat_map (fun e => List.map (rel_join (fst (fst e))) (snd (fst e))) (os_walk source)
          = source_dirs source) as Ed.
  { destruct source as [t|]; reflexivity. }
  rewrite Ef in H3, H5. rewrite Ed in H4.
  rewrite H3. done.
Qed.

(** X5: after indexing, [_files] is the list of the files below the
    source root whose relative path matches no exclude pattern, in the
    order of the walk, and [_subdirs] the same for the directories.  The
    test is made on each path by itself: whether a directory above it is
    excluded plays no part. *)
Theorem X5_index_lists_unexcluded_paths
    source_dir bucket exclude output_dir ak sk skip source :
  let self := _index_source_dir
                (new_optimizer source_dir bucket exclude output_dir ak sk skip) source in
  _files self = not_excluded exclude (source_files source) /\
  _subdirs self = not_excluded exclude (source_dirs source).
Proof.
  intros self.
  destruct (index_new_fields source_dir bucket exclude output_dir ak sk skip source)
    as (_ & Hf & Hd & _).
  split; [exact Hf|exact Hd].
Qed.

(** X6: the rewritable files are the indexed files with one of the
    extensions [.html], [.htm], [.js], [.css], in the order of [_files]:
    a file is rewritable exactly when it is indexed and has such an
    extension. *)
Theorem X6_index_rewritables
    source_dir bucket exclude output_dir ak sk skip source :
  let self := _index_source_dir
                (new_optimizer source_dir bucket exclude output_dir ak sk skip) source in
  _rewritables self = with_ext rewriteables_ext (_files self) /\
  forall p, p ∈ _rewritables self <->
            p ∈ _files self /\ snd (splitext p) ∈ rewriteables_ext.
Proof.
  intros self.
  destruct (index_new_fields source_dir bucket exclude output_dir ak sk skip source)
    as (_ & _ & _ & Hr).
  fold self in Hr. split; [exact Hr|].
  intros p. rewrite Hr. unfold with_ext.
  rewrite (list_elem_of_In (List.filter _ _) p), filter_In, bool_decide_eq_true.
  rewrite <- list_elem_of_In. reflexivity.
Qed.

(** ** The exclude patterns, lines 120 and 128 *)

Lemma translate_fuel_literal pre rest n :
  literal_pattern pre = true ->
  translate_fuel (length pre + n) (pre ++ rest) = List.map GLit pre ++ translate_fuel n rest.
Proof.
  induction pre as [|c pre IH]; intros Hlit; [reflexivity|].
  simpl in Hlit. apply andb_true_iff in Hlit as [Hc Hpre].
  apply andb_true_iff in Hc as [Hc H3]. apply andb_true_iff in Hc as [H1 H2].
  apply negb_true_iff in H1, H2, H3.
  simpl. rewrite H1, H2, H3, IH by done. reflexivity.
Qed.

Lemma translate_literal pat :
  literal_pattern pat = true -> translate pat = List.map GLit pat.
Proof.
  intros Hlit. unfold translate.
  pose proof (translate_fuel_literal pat [] 0 Hlit) as H.
  rewrite app_nil_r, Nat.add_0_r in H. rewrite H. simpl. apply app_nil_r.
Qed.

Lemma translate_star pre suf :
  literal_pattern pre = true -> literal_pattern suf = true ->
  translate (pre ++ "*"%char :: suf) = List.map GLit pre ++ GStar :: List.map GLit suf.
Proof.
  intros Hpre Hsuf. unfold translate.
  rewrite length_app. rewrite translate_fuel_literal by done.
  simpl. f_equal. f_equal. apply (translate_literal suf Hsuf).
Qed.

Lemma glob_match_star ts s :
  glob_match (GStar :: ts) s = true <-> exists a b, s = a ++ b /\ glob_match ts b = true.
Proof.
  induction s as [|c s IH].
  - simpl. rewrite orb_false_r. split.
    + intros H. exists [], []. done.
    + intros (a & b & Hab & H). symmetry in Hab. apply app_eq_nil in Hab as [-> ->]. exact H.
  - change (glob_match (GStar :: ts) (c :: s))
      with (glob_match ts (c :: s) || glob_match (GStar :: ts) s).
    rewrite orb_true_iff, IH. split.
    + intros [H|(a & b & -> & H)].
      * exists [], (c :: s). done.
      * exists (c :: a), b. done.
    + intros (a & b & Hab & H). destruct a as [|x a]; simpl in Hab.
      * left. rewrite Hab. exact H.
      * injection Hab as -> ->. right. exists a, b. done.
Qed.

Lemma glob_match_literal pre ts s :
  glob_match (List.map GLit pre ++ ts) s = true
  <-> exists v, s = pre ++ v /\ glob_match ts v = true.
Proof.
  revert s. induction pre as [|c pre IH]; intros s.
  - simpl. split; [intros H; exists s; done|intros (v & -> & H); exact H].
  - destruct s as [|x s]; simpl.
    + split; [done|intros (v & Hv & _); discriminate Hv].
    + rewrite andb_true_iff, IH, Ascii.eqb_eq. split.
      * intros (-> & v & -> & H). exists v. done.
      * intros (v & Hv & H). injection Hv as -> ->. split; [done|]. exists v. done.
Qed.

Lemma fnmatch_literal name pat :
  literal_pattern pat = true -> fnmatch name pat = true <-> name = pat.
Proof.
  intros Hlit. unfold fnmatch. rewrite translate_literal by done.
  rewrite <- (app_nil_r (List.map GLit pat)), glob_match_literal. split.
  - intros (v & -> & H). destruct v; [apply app_nil_r|discriminate H].
  - intros ->. exists []. rewrite app_nil_r. done.
Qed.

Lemma fnmatch_star name pre suf :
  literal_pattern pre = true -> literal_pattern suf = true ->
  fnmatch name (pre ++ "*"%char :: suf) = true <-> exists mid, name = pre ++ mid ++ suf.
Proof.
  intros Hpre Hsuf. unfold fnmatch. rewrite translate_star by done.
  rewrite glob_match_literal. split.
  - intros (v & -> & H). apply glob_match_star in H as (a & b & -> & H).
    rewrite <- (app_nil_r (List.map GLit suf)) in H.
    apply glob_match_literal in H as (w & -> & H).
    destruct w; [|discriminate H]. rewrite app_nil_r. exists a. done.
  - intros (mid & ->). exists (mid ++ suf). split; [done|].
    apply glob_match_star. exists mid, suf. split; [done|].
    rewrite <- (app_nil_r (List.map GLit suf)). apply glob_match_literal.
    exists []. rewrite app_nil_r. done.
Qed.

Lemma excluded_spec exclude p :
  excluded exclude p = true <-> exists pat, pat ∈ exclude /\ fnmatch p pat = true.
Proof.
  unfold excluded. rewrite bool_decide_eq_true, list_elem_of_In, in_map_iff.
  split; intros (pat & H1 & H2); exists pat.
  - rewrite list_elem_of_In. done.
  - rewrite <- list_elem_of_In. done.
Qed.

(** X7: when no exclude pattern holds a ['*'], ['?'] or ['['], a path is
    excluded exactly when it is one of the patterns, character for
    character; so the name of a directory as a pattern excludes that
    directory and none of the paths below it. *)
Theorem X7_literal_patterns_exclude_themselves exclude p :
  forallb literal_pattern exclude = true ->
  excluded exclude p = true <-> p ∈ exclude.
Proof.
  intros Hlit. rewrite excluded_spec. split.
  - intros (pat & Hin & Hm). apply fnmatch_literal in Hm as ->; [exact Hin|].
    rewrite forallb_forall in Hlit. apply Hlit, list_elem_of_In, Hin.
  - intros Hin. exists p. split; [exact Hin|]. apply fnmatch_literal; [|done].
    rewrite forallb_forall in Hlit. apply Hlit, list_elem_of_In, Hin.
Qed.

Lemma X7_witness :
  excluded [lit "private"] (lit "private") = true /\
  excluded [lit "private"] (lit "private/secret.html") = false.
Proof.
  split.
  - apply (X7_literal_patterns_exclude_themselves [lit "private"] (lit "private")).
    + vm_compute. reflexivity.
    + left.
  - apply not_true_is_false. intros Hex.
    apply (X7_literal_patterns_exclude_themselves [lit "private"]) in Hex.
    + apply list_elem_of_singleton in Hex. discriminate Hex.
    + vm_compute. reflexivity.
Defined.

(** X8: a ['*'] between two literal parts stands for any text, ['/']
    included: the pattern [pre*suf] excludes exactly the paths that start
    with [pre] and go on to end with [suf].  So [d*] excludes [d] and
    every path below it, and [*.bak] the files with that ending in every
    directory. *)
Theorem X8_star_crosses_directories pre suf p :
  literal_pattern pre = true -> literal_pattern suf = true ->
  excluded [pre ++ "*"%char :: suf] p = true <-> exists mid, p = pre ++ mid ++ suf.
Proof.
  intros Hpre Hsuf. rewrite excluded_spec. split.
  - intros (pat & Hin & Hm). apply list_elem_of_singleton in Hin as ->.
    apply fnmatch_star in Hm; done.
  - intros Hmid. exists (pre ++ "*"%char :: suf). split; [left|].
    apply fnmatch_star; done.
Qed.

Lemma X8_witness :
  excluded [lit "*.bak"] (lit "old/site/notes.bak") = true.
Proof.
  apply (X8_star_crosses_directories [] (lit ".bak") (lit "old/site/notes.bak")).
  - reflexivity.
  - reflexivity.
  - exists (lit "old/site/notes"). reflexivity.
Defined.

(** ** [_calculate_fingerprints], lines 145-158 *)

Lemma read_file_cases source p :
  (exists c, read_file source p = Ok c) \/ read_file source p = Raise (IOError p).
Proof.
  unfold read_file. destruct source as [t|]; [|right; reflexivity].
  destruct (tree_get t (split_path p)) as [[c|es]|]; eauto.
Qed.

Lemma source_files_readable t p :
  wf_tree t = true -> p ∈ source_files (Some t) -> exists c, read_file (Some t) p = Ok c.
Proof.
  intros Hwf Hp. simpl in Hp. unfold local_keys in Hp.
  apply list_elem_of_fmap in Hp as ([d f] & -> & Hdf).
  apply (walk_files_readable t d f Hwf Hdf).
Qed.

Section indexed_object.
Variables source_dir bucket output_dir : str.
Variable exclude : list str.
Variables ak sk : option str.
Variable skip : bool.
Variable source : option node.

Local Abbreviation self0 := (new_optimizer source_dir bucket exclude output_dir ak sk skip).
Local Abbreviation self1 := (_index_source_dir self0 source).

Lemma indexed_keys :
  dict_keys (_assets_map self1) = first_occurrences (with_ext assets_ext (_files self1)).
Proof.
  pose proof (index_source_dir_keys self0 source eq_refl) as Hk.
  unfold keys_follow_files in Hk. rewrite Hk.
  destruct (index_source_dir_extends self0 source) as (_ & -> & _). reflexivity.
Qed.

Lemma indexed_key_spec p :
  p ∈ dict_keys (_assets_map self1) <-> p ∈ _files self1 /\ snd (splitext p) ∈ assets_ext.
Proof.
  rewrite indexed_keys. split.
  - intros Hp. apply first_occurrences_subset in Hp. split.
    + apply (with_ext_subset _ _ _ Hp).
    + apply (with_ext_elem _ _ _ Hp).
  - intros [Hf He].
    assert (p ∈ with_ext assets_ext (_files self1)) as Hw.
    { unfold with_ext. rewrite list_elem_of_In, filter_In, bool_decide_eq_true.
      rewrite <- list_elem_of_In. done. }
    revert Hw. generalize (with_ext assets_ext (_files self1)). intros l.
    induction l as [|x l IH] using rev_ind; [inversion 1|].
    intros Hin. rewrite first_occurrences_snoc. apply elem_of_app in Hin as [Hin|Hin].
    + case_bool_decide; [auto|]. apply elem_of_app. left. auto.
    + apply list_elem_of_singleton in Hin as ->.
      case_bool_decide; [done|]. apply elem_of_app. right. left.
Qed.

Lemma indexed_files_source p : p ∈ _files self1 -> p ∈ source_files source.
Proof.
  destruct (index_new_fields source_dir bucket exclude output_dir ak sk skip source)
    as (_ & -> & _).
  intros Hp. apply not_excluded_elem in Hp as [Hp _]. exact Hp.
Qed.

Lemma indexed_values k v :
  dict_get k (_assets_map self1) = Some v -> v = None.
Proof.
  assert (forall self, (forall k v, dict_get k (_assets_map self) = Some v -> v = None) ->
            forall k v, dict_get k (_assets_map (_index_source_dir self source)) = Some v
                        -> v = None) as Hgen.
  { intros self. unfold _index_source_dir. revert self.
    induction (os_walk source) as [|[[d ds] fs] es IH]; intros self Hself; [exact Hself|].
    simpl. apply IH. clear IH.
    assert (forall self, (forall k v, dict_get k (_assets_map self) = Some v -> v = None) ->
              forall k v, dict_get k (_assets_map (fold_left (index_dir d) ds self)) = Some v
                          -> v = None) as Hd.
    { clear. induction ds as [|x ds IH]; intros self Hself; [exact Hself|].
      simpl. apply IH. unfold index_dir. destruct (excluded _ _); exact Hself. }
    specialize (Hd self Hself). revert Hd. generalize (fold_left (index_dir d) ds self).
    clear. induction fs as [|x fs IH]; intros self Hself; [exact Hself|].
    simpl. apply IH. unfold index_file. destruct (excluded _ _); [exact Hself|].
    simpl. intros k v.
    repeat case_bool_decide; simpl; try apply Hself.
    all: destruct (decide (rel_join d x = k)) as [->|Hne];
      [rewrite dict_get_set_eq; congruence|rewrite dict_get_set_ne by done; apply Hself]. }
  apply Hgen. intros k' v' H. discriminate H.
Qed.

End indexed_object.

(** X9: on a well-formed source tree, fingerprinting what the indexing
    found never raises: every asset can be read, and gets as new name its
    path with the SHA-256 digest of its bytes put in. *)
Theorem X9_fingerprints_after_indexing
    source_dir bucket exclude output_dir ak sk skip t :
  wf_tree t = true ->
  let self1 := _index_source_dir
                 (new_optimizer source_dir bucket exclude output_dir ak sk skip) (Some t) in
  exists self',
    _calculate_fingerprints self1 (Some t) = Ok self' /\
    forall p, p ∈ dict_keys (_assets_map self1) ->
      exists content,
        read_file (Some t) p = Ok content /\
        new_filename self' p = Ok (convert_filename p (SHA256.hexdigest content)).
Proof.
  intros Hwf self1.
  destruct (fingerprints_total self1 (Some t)) as [self' Hfp].
  { intros k Hk. apply indexed_key_spec in Hk as [Hk _].
    apply indexed_files_source in Hk. apply (source_files_readable t k Hwf Hk). }
  exists self'. split; [exact Hfp|].
  intros p Hp. apply (fingerprints_new_filename self1 (Some t) self' p Hfp Hp).
Qed.

Lemma X9_witness :
  exists self',
    _calculate_fingerprints page_index page_site = Ok self' /\
    forall p, p ∈ dict_keys (_assets_map page_index) ->
      exists content,
        read_file page_site p = Ok content /\
        new_filename self' p = Ok (convert_filename p (SHA256.hexdigest content)).
Proof.
  apply (X9_fingerprints_after_indexing (lit "site") (lit "example.org") []
           (lit "out") None None false
           (Dir [(lit "index.html", File page_text); (lit "app.css", File (lit "A"))])).
  vm_compute. reflexivity.
Defined.

(** X10: when an asset cannot be read (its file has gone, or is a
    directory now) while every asset before it in the order of the keys
    can, the stage raises the [IOError] of that asset; no object with a
    part of the fingerprints is returned. *)
Theorem X10_fingerprints_unreadable_asset self source ks1 k ks2 :
  dict_keys (_assets_map self) = ks1 ++ k :: ks2 ->
  (forall k', k' ∈ ks1 -> exists c, read_file source k' = Ok c) ->
  (forall c, read_file source k <> Ok c) ->
  _calculate_fingerprints self source = Raise (IOError k).
Proof.
  intros Hkeys Hread Hbad. unfold _calculate_fingerprints.
  rewrite Hkeys, for_each_app.
  destruct (fingerprint_loop_total source ks1 self) as [self' ->].
  { intros k' Hk'. split; [|auto]. rewrite Hkeys. apply elem_of_app. left. exact Hk'. }
  simpl. unfold fingerprint_one.
  destruct (read_file_cases source k) as [[c Hc]| ->]; [|reflexivity].
  exfalso. apply (Hbad c Hc).
Qed.

Lemma X10_witness :
  _calculate_fingerprints twin_index (Some (Dir [(lit "a.css", File (lit "A"))]))
  = Raise (IOError (lit "b.css")).
Proof.
  apply (X10_fingerprints_unreadable_asset twin_index
           (Some (Dir [(lit "a.css", File (lit "A"))])) [lit "a.css"] (lit "b.css") []).
  - vm_compute. reflexivity.
  - intros k' Hk'. apply list_elem_of_singleton in Hk' as ->.
    exists (lit "A"). vm_compute. reflexivity.
  - intros c Hc. vm_compute in Hc. discriminate Hc.
Defined.

Lemma dict_set_same {V} k (v : V) d : dict_get k d = Some v -> dict_set k v d = d.
Proof.
  induction d as [|[k' v'] d IH]; simpl; [done|].
  destruct (str_eqb k' k) eqn:E.
  - intros [= ->]. reflexivity.
  - intros H. rewrite IH by done. reflexivity.
Qed.

Lemma with_assets_map_same self : with_assets_map self (_assets_map self) = self.
Proof. destruct self. reflexivity. Qed.

Lemma fingerprint_loop_fields source ks self self' :
  for_each (fingerprint_one source) ks self = Ok self' ->
  _files self' = _files self /\ _subdirs self' = _subdirs self /\
  _rewritables self' = _rewritables self /\ _exclude self' = _exclude self /\
  _assets_ext self' = _assets_ext self /\ _skip_s3_upload self' = _skip_s3_upload self.
Proof.
  revert self. induction ks as [|k ks IH]; intros self; simpl.
  - intros [= <-]. done.
  - destruct (fingerprint_one source self k) as [s|e] eqn:E; [|discriminate].
    simpl. intros H. apply IH in H as (-> & -> & -> & -> & -> & ->).
    apply fingerprint_one_spec in E as (c & _ & _ & ->). done.
Qed.

Lemma fingerprint_loop_fixed source ks self :
  (forall k, k ∈ ks -> exists c,
      read_file source k = Ok c /\
      dict_get k (_assets_map self)
      = Some (Some (convert_filename k (SHA256.hexdigest c)))) ->
  for_each (fingerprint_one source) ks self = Ok self.
Proof.
  induction ks as [|k ks IH]; intros Hall; simpl; [reflexivity|].
  destruct (Hall k) as (c & Hread & Hget); [left|].
  unfold fingerprint_one at 1. rewrite Hread. simpl. rewrite Hget.
  rewrite (hashfile_sha256 c default_blocksize default_blocksize_pos).
  rewrite dict_set_same by done. rewrite with_assets_map_same. simpl.
  apply IH. intros k' Hk'. apply Hall. right. exact Hk'.
Qed.

(** X11: the stage changes nothing but the values of [_assets_map]: the
    lists of files, directories and rewritables, the configuration, and
    the keys of [_assets_map] with their order stay as they are; and
    running it again over the same source returns the same object. *)
Theorem X11_fingerprints_keep_index self source self' :
  _calculate_fingerprints self source = Ok self' ->
  _files self' = _files self /\ _subdirs self' = _subdirs self /\
  _rewritables self' = _rewritables self /\ _exclude self' = _exclude self /\
  dict_keys (_assets_map self') = dict_keys (_assets_map self) /\
  _calculate_fingerprints self' source = Ok self'.
Proof.
  intros Hfp.
  destruct (fingerprint_loop_fields _ _ _ _ Hfp) as (H1 & H2 & H3 & H4 & _).
  destruct (fingerprint_loop_spec _ _ _ _ Hfp) as (Hkeys & Hvals & _).
  repeat (split; [assumption|]).
  unfold _calculate_fingerprints. rewrite Hkeys.
  apply fingerprint_loop_fixed. exact Hvals.
Qed.

Lemma X11_witness :
  _files twin_fingerprinted = _files twin_index /\
  _calculate_fingerprints twin_fingerprinted twin_site = Ok twin_fingerprinted.
Proof.
  destruct (X11_fingerprints_keep_index twin_index twin_site twin_fingerprinted)
    as (Hf & _ & _ & _ & _ & Hagain).
  - vm_compute. reflexivity.
  - split; [exact Hf|exact Hagain].
Defined.

(** ** Trees: entries, [os.makedirs] and writing a file *)

Lemma unsplit_split_path p : unsplit (split_path p) = p.
Proof.
  induction p as [|c p IH]; [reflexivity|].
  simpl. destruct (Ascii.eqb c chr_sep) eqn:E.
  - apply Ascii.eqb_eq in E as ->.
    pose proof (split_path_nonempty p) as Hne.
    simpl. destruct (split_path p) as [|x xs]; [done|]. rewrite IH. reflexivity.
  - destruct (split_path p) as [|x xs] eqn:Es.
    + exfalso. apply (split_path_nonempty p Es).
    + simpl in IH |- *. destruct xs as [|y ys]; rewrite <- IH; reflexivity.
Qed.

Lemma split_path_inj p q : split_path p = split_path q -> p = q.
Proof.
  intros H. rewrite <- (unsplit_split_path p), <- (unsplit_split_path q), H. reflexivity.
Qed.

Lemma read_file_ok t p c :
  read_file (Some t) p = Ok c <-> tree_get t (split_path p) = Some (File c).
Proof.
  unfold read_file. destruct (tree_get t (split_path p)) as [[c'|es]|]; split; congruence.
Qed.

Lemma read_file_same t t' p :
  (forall c, tree_get t' (split_path p) = Some (File c)
             <-> tree_get t (split_path p) = Some (File c)) ->
  read_file (Some t') p = read_file (Some t) p.
Proof.
  intros H. unfold read_file.
  destruct (tree_get t (split_path p)) as [[c|es]|] eqn:E.
  - destruct (H c) as [_ H2]. rewrite (H2 eq_refl). reflexivity.
  - destruct (tree_get t' (split_path p)) as [[c'|es']|] eqn:E'; try reflexivity.
    destruct (H c') as [H1 _]. discriminate (H1 eq_refl).
  - destruct (tree_get t' (split_path p)) as [[c'|es']|] eqn:E'; try reflexivity.
    destruct (H c') as [H1 _]. discriminate (H1 eq_refl).
Qed.

Lemma lookup_set_eq n x es : lookup_entry n (set_entry n x es) = Some x.
Proof.
  induction es as [|[m y] es IH]; simpl.
  - rewrite str_eqb_refl. reflexivity.
  - destruct (str_eqb m n) eqn:E; simpl; rewrite E; [reflexivity|exact IH].
Qed.

Lemma lookup_set_ne n m x es :
  m <> n -> lookup_entry m (set_entry n x es) = lookup_entry m es.
Proof.
  intros Hne. induction es as [|[k y] es IH]; simpl.
  - rewrite str_eqb_neq by done. reflexivity.
  - destruct (str_eqb k n) eqn:E; simpl.
    + apply str_eqb_eq in E as ->. rewrite str_eqb_neq by done. reflexivity.
    + rewrite IH. reflexivity.
Qed.

Lemma lookup_entry_elem n x es : lookup_entry n es = Some x -> (n, x) ∈ es.
Proof.
  induction es as [|[m y] es IH]; simpl; [done|].
  destruct (str_eqb m n) eqn:E.
  - apply str_eqb_eq in E as ->. intros [= ->]. left.
  - intros H. right. auto.
Qed.

Lemma lookup_entry_none n es : lookup_entry n es = None <-> n ∉ List.map fst es.
Proof.
  induction es as [|[m y] es IH]; simpl.
  - split; [intros _; apply not_elem_of_nil|done].
  - destruct (str_eqb m n) eqn:E.
    + apply str_eqb_eq in E as ->. split; [done|]. intros H. exfalso. apply H. left.
    + rewrite IH, not_elem_of_cons. split; [|tauto].
      intros H. split; [|done]. intros ->. rewrite str_eqb_refl in E. done.
Qed.

Lemma set_entry_names n x es :
  List.map fst (set_entry n x es)
  = match lookup_entry n es with
    | Some _ => List.map fst es
    | None => List.map fst es ++ [n]
    end.
Proof.
  induction es as [|[m y] es IH]; simpl; [reflexivity|].
  destruct (str_eqb m n) eqn:E; simpl; [reflexivity|].
  rewrite IH. destruct (lookup_entry n es); reflexivity.
Qed.

Lemma set_entry_elem n x es e : e ∈ set_entry n x es -> e = (n, x) \/ e ∈ es.
Proof.
  induction es as [|[m y] es IH]; simpl.
  - intros H. apply list_elem_of_singleton in H. auto.
  - destruct (str_eqb m n) eqn:E.
    + apply str_eqb_eq in E as ->. intros H. apply elem_of_cons in H as [->|H]; [auto|].
      right. right. exact H.
    + intros H. apply elem_of_cons in H as [->|H]; [right; left|].
      destruct (IH H) as [->|H']; [auto|]. right. right. exact H'.
Qed.

Lemma wf_tree_dir_intro es :
  NoDup (List.map fst es) ->
  (forall e, e ∈ es -> wf_name (fst e) = true /\ wf_tree (snd e) = true) ->
  wf_tree (Dir es) = true.
Proof.
  intros Hnd Hall. simpl.
  rewrite !andb_true_iff, bool_decide_eq_true, !forallb_forall.
  split; [split; [done|]|]; intros e He%list_elem_of_In; apply (Hall e He).
Qed.

Lemma wf_set_entry n x es :
  wf_tree (Dir es) = true -> wf_name n = true -> wf_tree x = true ->
  wf_tree (Dir (set_entry n x es)) = true.
Proof.
  intros Hwf Hn Hx. destruct (wf_tree_dir es Hwf) as [Hnd Hall].
  apply wf_tree_dir_intro.
  - rewrite set_entry_names. destruct (lookup_entry n es) eqn:E; [exact Hnd|].
    apply lookup_entry_none in E.
    apply NoDup_app. split; [exact Hnd|]. split; [|apply NoDup_singleton].
    intros y Hy Hy'. apply list_elem_of_singleton in Hy' as ->. done.
  - intros e He. apply set_entry_elem in He as [->|He]; [done|auto].
Qed.

Lemma tree_get_file_app c k :
  tree_get (File c) k = match k with [] => Some (File c) | _ :: _ => None end.
Proof. destruct k; reflexivity. Qed.

(** Below a file nothing is found, and a file is no directory. *)
Lemma file_on_path t p k :
  is_file_at t p -> ~ is_dir_at t (p ++ k).
Proof.
  intros [c Hc] [es Hes]. rewrite (tree_get_app _ _ _ _ Hc), tree_get_file_app in Hes.
  destruct k; discriminate Hes.
Qed.

Lemma tree_get_prefix t p k x :
  tree_get t (p ++ k) = Some x -> is_dir_at t p \/ (k = [] /\ tree_get t p = Some x).
Proof.
  revert t. induction p as [|n p IH]; intros t; simpl.
  - destruct t as [c|es]; [|left; eexists; reflexivity].
    rewrite tree_get_file_app. destruct k; [|done]. intros [= <-]. right. done.
  - destruct t as [c|es]; [done|].
    destruct (lookup_entry n es) as [child|] eqn:E; [|done].
    intros H. destruct (IH child H) as [[es' Hd]|[-> Hx]].
    + left. exists es'. simpl. rewrite E. exact Hd.
    + right. done.
Qed.

Lemma tree_get_wf t q x :
  wf_tree t = true -> tree_get t q = Some x ->
  wf_tree x = true /\ Forall (fun n => wf_name n = true) q.
Proof.
  revert t. induction q as [|n q IH]; intros t Hwf; simpl.
  - intros [= <-]. split; [exact Hwf|constructor].
  - destruct t as [c|es]; [done|].
    destruct (lookup_entry n es) as [child|] eqn:E; [|done].
    apply lookup_entry_elem in E.
    destruct (wf_tree_dir es Hwf) as [_ Hall]. destruct (Hall _ E) as [Hn Hc].
    intros H. destruct (IH child Hc H) as [Hx Hq]. split; [exact Hx|].
    constructor; [exact Hn|exact Hq].
Qed.

(** *** [os.makedirs] *)

Lemma tree_makedirs_dir t q t' : tree_makedirs t q = Some t' -> is_dir t' = true.
Proof.
  destruct t as [c|es]; destruct q as [|n q]; simpl; try done.
  - intros [= <-]. reflexivity.
  - destruct (lookup_entry n es) as [child|].
    + destruct (tree_makedirs child q); [|done]. intros [= <-]. reflexivity.
    + destruct (tree_makedirs (Dir []) q); [|done]. intros [= <-]. reflexivity.
Qed.

Lemma tree_makedirs_cases es n q t' :
  tree_makedirs (Dir es) (n :: q) = Some t' ->
  exists child child',
    (lookup_entry n es = Some child \/ (lookup_entry n es = None /\ child = Dir [])) /\
    tree_makedirs child q = Some child' /\ t' = Dir (set_entry n child' es).
Proof.
  simpl. destruct (lookup_entry n es) as [child|] eqn:E.
  - destruct (tree_makedirs child q) as [child'|] eqn:E'; [|done].
    intros [= <-]. exists child, child'. auto.
  - destruct (tree_makedirs (Dir []) q) as [child'|] eqn:E'; [|done].
    intros [= <-]. exists (Dir []), child'. auto.
Qed.

Lemma tree_get_empty q x : tree_get (Dir []) q = Some x -> q = [] /\ x = Dir [].
Proof. destruct q; simpl; [intros [= <-]; done|done]. Qed.

Lemma makedirs_dir_at t q t' : tree_makedirs t q = Some t' -> is_dir_at t' q.
Proof.
  revert t t'. induction q as [|n q IH]; intros t t' H.
  - destruct t as [c|es]; simpl in H; [done|]. injection H as <-. eexists. reflexivity.
  - destruct t as [c|es]; [done|].
    apply tree_makedirs_cases in H as (child & child' & _ & Hc & ->).
    unfold is_dir_at. simpl. rewrite lookup_set_eq. apply (IH _ _ Hc).
Qed.

Lemma makedirs_get_file t q t' p c :
  tree_makedirs t q = Some t' ->
  tree_get t' p = Some (File c) <-> tree_get t p = Some (File c).
Proof.
  revert t t' p. induction q as [|n q IH]; intros t t' p H.
  - destruct t as [c0|es]; simpl in H; [done|]. injection H as <-. reflexivity.
  - destruct t as [c0|es]; [done|].
    apply tree_makedirs_cases in H as (child & child' & Hl & Hc & ->).
    destruct p as [|m p]; simpl; [split; discriminate|].
    destruct (decide (m = n)) as [->|Hne].
    + rewrite lookup_set_eq, (IH _ _ p Hc).
      destruct Hl as [-> | [-> ->]]; [reflexivity|].
      split; [intros H%tree_get_empty; destruct H; discriminate|done].
    + rewrite lookup_set_ne by done. reflexivity.
Qed.

Lemma makedirs_keeps_dir t q t' p :
  tree_makedirs t q = Some t' -> is_dir_at t p -> is_dir_at t' p.
Proof.
  revert t t' p. induction q as [|n q IH]; intros t t' p H.
  - destruct t as [c0|es]; simpl in H; [done|]. injection H as <-. done.
  - destruct t as [c0|es]; [done|].
    apply tree_makedirs_cases in H as (child & child' & Hl & Hc & ->).
    destruct p as [|m p]; [intros _; eexists; reflexivity|].
    unfold is_dir_at. simpl.
    destruct (decide (m = n)) as [->|Hne].
    + rewrite lookup_set_eq.
      destruct Hl as [-> | [-> ->]]; [apply (IH _ _ p Hc)|].
      intros [es' H]. discriminate H.
    + rewrite lookup_set_ne by done. done.
Qed.

Lemma makedirs_new_dir t q t' p :
  tree_makedirs t q = Some t' -> is_dir_at t' p -> is_dir_at t p \/ p `prefix_of` q.
Proof.
  revert t t' p. induction q as [|n q IH]; intros t t' p H.
  - destruct t as [c0|es]; simpl in H; [done|]. injection H as <-. auto.
  - destruct t as [c0|es]; [done|].
    apply tree_makedirs_cases in H as (child & child' & Hl & Hc & ->).
    destruct p as [|m p]; [intros _; right; apply prefix_nil|].
    unfold is_dir_at. simpl.
    destruct (decide (m = n)) as [->|Hne].
    + rewrite lookup_set_eq. intros Hd.
      destruct (IH _ _ p Hc Hd) as [[es' Hes]|Hp].
      * destruct Hl as [-> | [-> ->]]; [left; eexists; exact Hes|].
        apply tree_get_empty in Hes as [-> _]. right. apply prefix_cons, prefix_nil.
      * right. apply prefix_cons, Hp.
    + rewrite lookup_set_ne by done. auto.
Qed.

Lemma makedirs_total t q :
  (forall p, p `prefix_of` q -> ~ is_file_at t p) -> exists t', tree_makedirs t q = Some t'.
Proof.
  revert t. induction q as [|n q IH]; intros t Hfree.
  - destruct t as [c|es]; [|eexists; reflexivity].
    exfalso. apply (Hfree []); [done|]. eexists. reflexivity.
  - destruct t as [c|es].
    { exfalso. apply (Hfree []); [apply prefix_nil|]. eexists. reflexivity. }
    simpl. destruct (lookup_entry n es) as [child|] eqn:E.
    + destruct (IH child) as [child' ->]; [|eexists; reflexivity].
      intros p Hp Hf. apply (Hfree (n :: p)); [apply prefix_cons, Hp|].
      unfold is_file_at. simpl. rewrite E. exact Hf.
    + destruct (IH (Dir [])) as [child' ->]; [|eexists; reflexivity].
      intros p _ [c Hc]. apply tree_get_empty in Hc as [_ Hc]. discriminate Hc.
Qed.

Lemma makedirs_blocked t q p :
  p `prefix_of` q -> is_file_at t p -> tree_makedirs t q = None.
Proof.
  revert t p. induction q as [|n q IH]; intros t p Hp [c Hc].
  - apply prefix_nil_inv in Hp as ->. simpl in Hc. injection Hc as ->. reflexivity.
  - destruct t as [c0|es]; [reflexivity|].
    destruct p as [|m p]; [discriminate Hc|].
    pose proof (prefix_cons_inv_1 _ _ _ _ Hp) as ->.
    apply prefix_cons_inv_2 in Hp. simpl in Hc |- *.
    destruct (lookup_entry n es) as [child|]; [|done].
    rewrite (IH child p Hp); [reflexivity|]. eexists. exact Hc.
Qed.

Lemma makedirs_wf t q t' :
  wf_tree t = true -> Forall (fun n => wf_name n = true) q ->
  tree_makedirs t q = Some t' -> wf_tree t' = true.
Proof.
  revert t t'. induction q as [|n q IH]; intros t t' Hwf Hq H.
  - destruct t as [c0|es]; simpl in H; [done|]. injection H as <-. exact Hwf.
  - destruct t as [c0|es]; [done|].
    apply tree_makedirs_cases in H as (child & child' & Hl & Hc & ->).
    apply Forall_cons in Hq as [Hn Hq].
    apply wf_set_entry; [exact Hwf|exact Hn|].
    apply (IH child child'); [|exact Hq|exact Hc].
    destruct Hl as [Hl | [_ ->]]; [|reflexivity].
    apply lookup_entry_elem in Hl.
    destruct (wf_tree_dir es Hwf) as [_ Hall]. apply (Hall _ Hl).
Qed.

(** *** Writing a file *)

Lemma tree_write_cases t q c t' :
  tree_write t q c = Some t' ->
  exists es n rest,
    t = Dir es /\ q = n :: rest /\
    ((rest = [] /\ (forall es', lookup_entry n es <> Some (Dir es')) /\
      t' = Dir (set_entry n (File c) es))
     \/ (rest <> [] /\ exists child child',
           lookup_entry n es = Some child /\ tree_write child rest c = Some child' /\
           t' = Dir (set_entry n child' es))).
Proof.
  destruct t as [c0|es]; [destruct q; done|].
  destruct q as [|n rest]; [done|]. intros H. exists es, n, rest.
  split; [done|]. split; [done|].
  destruct rest as [|m rest].
  - left. simpl in H. split; [done|].
    destruct (lookup_entry n es) as [[c1|es1]|]; try done;
      injection H as <-; (split; [congruence|reflexivity]).
  - right. split; [done|]. simpl in H.
    destruct (lookup_entry n es) as [child|]; [|done].
    destruct child as [c1|es1]; [done|].
    match type of H with
    | match ?w with _ => _ end = _ => destruct w as [child'|] eqn:E; [|done]
    end.
    injection H as <-. exists (Dir es1), child'. done.
Qed.

Lemma write_get_same t q c t' :
  tree_write t q c = Some t' -> tree_get t' q = Some (File c).
Proof.
  revert t t'. induction q as [|n q IH]; intros t t' H;
    apply tree_write_cases in H as (es & n' & rest & -> & Hq & Hcase); [done|].
  injection Hq as <- <-.
  destruct Hcase as [(-> & _ & ->)|(_ & child & child' & _ & Hw & ->)]; simpl;
    rewrite lookup_set_eq; [reflexivity|apply (IH _ _ Hw)].
Qed.

Lemma write_get_other t q c t' p x :
  tree_write t q c = Some t' -> p <> q ->
  tree_get t' p = Some (File x) <-> tree_get t p = Some (File x).
Proof.
  revert t t' p. induction q as [|n q IH]; intros t t' p H Hne;
    apply tree_write_cases in H as (es & n' & rest & -> & Hq & Hcase); [done|].
  injection Hq as <- <-.
  destruct p as [|m p].
  { destruct Hcase as [(_ & _ & ->)|(_ & ? & ? & _ & _ & ->)]; simpl; split; discriminate. }
  destruct (decide (m = n)) as [->|Hmn].
  - destruct Hcase as [(-> & Hnd & ->)|(_ & child & child' & Hl & Hw & ->)]; simpl;
      rewrite lookup_set_eq.
    + destruct p as [|k p]; [done|]. simpl.
      destruct (lookup_entry n es) as [[c1|es1]|]; [done| |done].
      exfalso. apply (Hnd es1). reflexivity.
    + rewrite Hl. apply (IH _ _ _ Hw). congruence.
  - destruct Hcase as [(-> & Hnd & ->)|(_ & child & child' & Hl & Hw & ->)]; simpl;
      rewrite lookup_set_ne by done; reflexivity.
Qed.

Lemma write_dir_iff t q c t' p :
  tree_write t q c = Some t' -> is_dir_at t' p <-> is_dir_at t p.
Proof.
  revert t t' p. induction q as [|n q IH]; intros t t' p H;
    apply tree_write_cases in H as (es & n' & rest & -> & Hq & Hcase); [done|].
  injection Hq as <- <-.
  destruct p as [|m p].
  { destruct Hcase as [(_ & _ & ->)|(_ & ? & ? & _ & _ & ->)];
      split; intros _; eexists; reflexivity. }
  unfold is_dir_at.
  destruct (decide (m = n)) as [->|Hmn].
  - destruct Hcase as [(-> & Hnd & ->)|(_ & child & child' & Hl & Hw & ->)]; simpl;
      rewrite lookup_set_eq.
    + rewrite tree_get_file_app.
      destruct (lookup_entry n es) as [[c1|es1]|].
      * rewrite tree_get_file_app. destruct p; split; intros [? ?]; done.
      * exfalso. apply (Hnd es1). reflexivity.
      * destruct p; split; intros [? ?]; done.
    + rewrite Hl. apply (IH _ _ _ Hw).
  - destruct Hcase as [(-> & Hnd & ->)|(_ & child & child' & Hl & Hw & ->)]; simpl;
      rewrite lookup_set_ne by done; reflexivity.
Qed.

Lemma write_total t rel n c :
  is_dir_at t rel -> ~ is_dir_at t (rel ++ [n]) ->
  exists t', tree_write t (rel ++ [n]) c = Some t'.
Proof.
  revert t. induction rel as [|m rel IH]; intros t [es Hes] Hnd.
  - simpl in Hes. injection Hes as ->. simpl.
    destruct (lookup_entry n es) as [[c1|es1]|] eqn:E; try (eexists; reflexivity).
    exfalso. apply Hnd. exists es1. simpl. rewrite E. reflexivity.
  - destruct t as [c0|es0]; [done|]. simpl in Hes.
    destruct (lookup_entry m es0) as [child|] eqn:E; [|done].
    destruct (IH child) as [child' Hw].
    + eexists. exact Hes.
    + intros [es1 H1]. apply Hnd. exists es1. simpl. rewrite E. exact H1.
    + exists (Dir (set_entry m child' es0)).
      change ((m :: rel) ++ [n]) with (m :: (rel ++ [n])).
      destruct (rel ++ [n]) as [|k r] eqn:Er; [destruct rel; done|].
      simpl. rewrite E. simpl in Hw. rewrite Hw. reflexivity.
Qed.

Lemma write_wf t q c t' :
  wf_tree t = true -> Forall (fun n => wf_name n = true) q ->
  tree_write t q c = Some t' -> wf_tree t' = true.
Proof.
  revert t t'. induction q as [|n q IH]; intros t t' Hwf Hq H;
    apply tree_write_cases in H as (es & n' & rest & -> & Hq' & Hcase); [done|].
  injection Hq' as <- <-. apply Forall_cons in Hq as [Hn Hq].
  destruct Hcase as [(-> & Hnd & ->)|(_ & child & child' & Hl & Hw & ->)];
    apply wf_set_entry; try done.
  apply (IH child child'); [|exact Hq|exact Hw].
  apply lookup_entry_elem in Hl.
  destruct (wf_tree_dir es Hwf) as [_ Hall]. apply (Hall _ Hl).
Qed.

(** ** [_write_dirs], lines 161-173 *)

Lemma tree_isdir_spec t d : tree_isdir t d = true <-> is_dir_at t (split_path d).
Proof.
  unfold tree_isdir, is_dir_at.
  destruct (tree_get t (split_path d)) as [[c|es]|]; split; try done.
  - intros [es H]. discriminate H.
  - intros _. eexists. reflexivity.
  - intros [es H]. discriminate H.
Qed.

Lemma makedirs_none t q :
  tree_makedirs t q = None -> exists p, p `prefix_of` q /\ is_file_at t p.
Proof.
  revert t. induction q as [|n q IH]; intros t H.
  - destruct t as [c|es]; [|discriminate H].
    exists []. split; [done|]. eexists. reflexivity.
  - destruct t as [c|es].
    { exists []. split; [apply prefix_nil|]. eexists. reflexivity. }
    simpl in H. destruct (lookup_entry n es) as [child|] eqn:E.
    + destruct (tree_makedirs child q) as [child'|] eqn:E'; [discriminate H|].
      destruct (IH child E') as (p & Hp & c & Hc).
      exists (n :: p). split; [apply prefix_cons, Hp|].
      exists c. simpl. rewrite E. exact Hc.
    + destruct (tree_makedirs (Dir []) q) as [child'|] eqn:E'; [discriminate H|].
      destruct (IH (Dir []) E') as (p & _ & c & Hc).
      apply tree_get_empty in Hc as [_ Hc]. discriminate Hc.
Qed.

Lemma empty_not_blocked d : ~ blocked (Dir []) d.
Proof. intros (p & _ & c & Hc). apply tree_get_empty in Hc as [_ Hc]. discriminate Hc. Qed.

Lemma blocked_same_files out out' d :
  (forall p c, tree_get out' p = Some (File c) <-> tree_get out p = Some (File c)) ->
  blocked out' d <-> blocked out d.
Proof.
  intros Hsame. unfold blocked, is_file_at.
  split; intros (p & Hp & c & Hc); exists p; (split; [exact Hp|]); exists c; apply Hsame, Hc.
Qed.

(** One pass of the loop of [_write_dirs]. *)
Lemma write_dir_cases out d :
  (blocked out d /\ write_dir out d = Raise (OSError d)) \/
  (~ blocked out d /\ exists out',
     write_dir out d = Ok out' /\
     is_dir_at out' (split_path d) /\
     (forall p c, tree_get out' p = Some (File c) <-> tree_get out p = Some (File c)) /\
     (forall p, is_dir_at out p -> is_dir_at out' p) /\
     (forall p, is_dir_at out' p -> is_dir_at out p \/ p `prefix_of` split_path d) /\
     (wf_tree out = true -> Forall (fun n => wf_name n = true) (split_path d) ->
      wf_tree out' = true)).
Proof.
  unfold write_dir. destruct (tree_isdir out d) eqn:Ed.
  - right. apply tree_isdir_spec in Ed. split.
    + intros (p & [k Hk] & Hf). rewrite Hk in Ed. apply (file_on_path _ _ _ Hf Ed).
    + exists out. repeat split; auto.
  - destruct (tree_makedirs out (split_path d)) as [out'|] eqn:Em.
    + right. split.
      * intros (p & Hp & Hf). rewrite (makedirs_blocked _ _ _ Hp Hf) in Em. discriminate Em.
      * exists out'. split; [reflexivity|]. split; [apply (makedirs_dir_at _ _ _ Em)|].
        split; [intros p c; apply (makedirs_get_file _ _ _ _ _ Em)|].
        split; [intros p; apply (makedirs_keeps_dir _ _ _ _ Em)|].
        split; [intros p; apply (makedirs_new_dir _ _ _ _ Em)|].
        intros Hwf Hq. apply (makedirs_wf _ _ _ Hwf Hq Em).
    + left. split; [|reflexivity]. apply makedirs_none in Em. exact Em.
Qed.

Lemma write_dirs_spec ds out :
  (forall d, d ∈ ds -> ~ blocked out d) ->
  exists out',
    for_each write_dir ds out = Ok out' /\
    (forall d, d ∈ ds -> is_dir_at out' (split_path d)) /\
    (forall p c, tree_get out' p = Some (File c) <-> tree_get out p = Some (File c)) /\
    (forall p, is_dir_at out p -> is_dir_at out' p) /\
    (forall p, is_dir_at out' p ->
       is_dir_at out p \/ exists d, d ∈ ds /\ p `prefix_of` split_path d) /\
    (wf_tree out = true ->
     (forall d, d ∈ ds -> Forall (fun n => wf_name n = true) (split_path d)) ->
     wf_tree out' = true).
Proof.
  revert out. induction ds as [|d ds IH]; intros out Hfree.
  - exists out. simpl. repeat split; auto.
    intros d Hd. apply elem_of_nil in Hd. done.
  - destruct (write_dir_cases out d)
      as [[Hb _]|(_ & out1 & Hw & Hd1 & Hf1 & Hk1 & Hn1 & Hwf1)].
    { exfalso. apply (Hfree d); [left|exact Hb]. }
    destruct (IH out1) as (out' & Hloop & Hd & Hf & Hk & Hn & Hwf).
    { intros d' Hd' Hb. apply (Hfree d'); [right; exact Hd'|].
      apply (blocked_same_files out out1 d' Hf1), Hb. }
    exists out'. simpl. rewrite Hw. simpl. split; [exact Hloop|].
    split; [|split; [|split; [|split]]].
    + intros d' Hd'. apply elem_of_cons in Hd' as [->|Hd']; [apply Hk, Hd1|apply Hd, Hd'].
    + intros p c. rewrite Hf. apply Hf1.
    + intros p Hp. apply Hk, Hk1, Hp.
    + intros p Hp. destruct (Hn p Hp) as [Hp1|(d' & Hd' & Hpre)].
      * destruct (Hn1 p Hp1) as [Hp0|Hpre]; [left; exact Hp0|].
        right. exists d. split; [left|exact Hpre].
      * right. exists d'. split; [right; exact Hd'|exact Hpre].
    + intros Hwf0 Hnames. apply Hwf.
      * apply Hwf1; [exact Hwf0|]. apply Hnames. left.
      * intros d' Hd'. apply Hnames. right. exact Hd'.
Qed.

(** X12: when no file of the output tree lies on the path of a
    directory to make, [_write_dirs] returns; afterwards every directory
    of [_subdirs] exists, together with the directories above it, the
    directories that were there before are still there, and every path
    reads as it did before: no file is created, changed or removed. *)
Theorem X12_write_dirs_makes_directories self out :
  (forall d, d ∈ _subdirs self -> ~ blocked out d) ->
  exists out',
    _write_dirs self out = Ok out' /\
    (forall d, d ∈ _subdirs self -> tree_isdir out' d = true) /\
    (forall d, tree_isdir out d = true -> tree_isdir out' d = true) /\
    (forall p, read_file (Some out') p = read_file (Some out) p).
Proof.
  intros Hfree.
  destruct (write_dirs_spec (_subdirs self) out Hfree) as (out' & Hloop & Hd & Hf & Hk & _).
  exists out'. split; [exact Hloop|]. split; [|split].
  - intros d Hin. apply tree_isdir_spec, Hd, Hin.
  - intros d Hin. apply tree_isdir_spec, Hk, tree_isdir_spec, Hin.
  - intros p. apply read_file_same. intros c. apply Hf.
Qed.

Lemma X12_witness :
  exists out',
    _write_dirs (_index_source_dir (example_optimizer []) nested_site) (Dir []) = Ok out' /\
    tree_isdir out' (lit "b") = true.
Proof.
  destruct (X12_write_dirs_makes_directories
              (_index_source_dir (example_optimizer []) nested_site) (Dir []))
    as (out' & Hrun & Hdirs & _).
  - intros d _. apply empty_not_blocked.
  - exists out'. split; [exact Hrun|]. apply Hdirs. vm_compute. left.
Defined.

(** X13: when a file of the output tree lies on the path of one of the
    directories to make (a file where the site has a directory, or above
    it), [_write_dirs] raises the [OSError] of [os.makedirs] for the first
    such directory of [_subdirs]. *)
Theorem X13_write_dirs_blocked_by_file self out d :
  d ∈ _subdirs self -> blocked out d ->
  exists ds1 d' ds2,
    _subdirs self = ds1 ++ d' :: ds2 /\
    (forall d0, d0 ∈ ds1 -> ~ blocked out d0) /\ blocked out d' /\
    _write_dirs self out = Raise (OSError d').
Proof.
  unfold _write_dirs. generalize (_subdirs self). intros ds. revert out.
  induction ds as [|d0 ds IH]; intros out Hin Hb; [apply elem_of_nil in Hin; done|].
  destruct (write_dir_cases out d0) as [[Hb0 Hr]|(Hnb & out1 & Hw & _ & Hf1 & _)].
  - exists [], d0, ds. split; [reflexivity|]. split.
    + intros d1 Hd1. apply elem_of_nil in Hd1. done.
    + split; [exact Hb0|]. simpl. rewrite Hr. reflexivity.
  - apply elem_of_cons in Hin as [->|Hin]; [done|].
    destruct (IH out1 Hin) as (ds1 & d' & ds2 & -> & Hfree & Hb' & Hr).
    { apply (blocked_same_files out out1 d Hf1), Hb. }
    exists (d0 :: ds1), d', ds2. split; [reflexivity|]. split; [|split].
    + intros d1 Hd1 Hb1. apply elem_of_cons in Hd1 as [->|Hd1]; [done|].
      apply (Hfree d1 Hd1). apply (blocked_same_files out out1 d1 Hf1), Hb1.
    + apply (blocked_same_files out out1 d' Hf1), Hb'.
    + simpl. rewrite Hw. simpl. exact Hr.
Qed.

Lemma X13_witness :
  _write_dirs (_index_source_dir (example_optimizer []) nested_site)
              (Dir [(lit "b", File (lit "old"))])
  = Raise (OSError (lit "b")).
Proof.
  destruct (X13_write_dirs_blocked_by_file
              (_index_source_dir (example_optimizer []) nested_site)
              (Dir [(lit "b", File (lit "old"))]) (lit "b"))
    as (ds1 & d' & ds2 & Hsplit & _ & _ & Hraise).
  - vm_compute. left.
  - exists [lit "b"]. split; [exists []; reflexivity|]. exists (lit "old"). reflexivity.
  - destruct ds1 as [|x ds1]; [|destruct ds1; vm_compute in Hsplit; discriminate Hsplit].
    vm_compute in Hsplit. injection Hsplit as <- <-. exact Hraise.
Defined.

(** ** [_write_files], lines 175-213 *)

(** One pass of the loop of [_write_files]: the destination holds what
    was to be written, every other file and every directory is as before. *)
Lemma write_file_spec self source out f out' :
  write_file self source out f = Ok out' ->
  exists d content,
    destination self f = Ok d /\ written_content self source f = Ok content /\
    tree_get out' (split_path d) = Some (File content) /\
    (forall q x, q <> split_path d ->
       tree_get out' q = Some (File x) <-> tree_get out q = Some (File x)) /\
    (forall q, is_dir_at out' q <-> is_dir_at out q) /\
    (wf_tree out = true -> Forall (fun n => wf_name n = true) (split_path d) ->
     wf_tree out' = true).
Proof.
  unfold write_file, written_content.
  destruct (destination self f) as [d|e]; [|discriminate]. simpl.
  case_bool_decide; simpl.
  - destruct (read_file source f) as [bytes|e]; [|discriminate]. simpl.
    unfold write_to at 1.
    destruct (tree_write out (split_path d) []) as [o1|] eqn:E1; [|discriminate]. simpl.
    destruct (text_read f bytes) as [text|e]; [|discriminate]. simpl.
    destruct (rewrite_text self text) as [text'|e]; [|discriminate]. simpl.
    unfold write_to.
    destruct (tree_write o1 (split_path d) text') as [o2|] eqn:E2; [|discriminate].
    intros [= <-]. exists d, text'. split; [reflexivity|]. split; [reflexivity|].
    split; [apply (write_get_same _ _ _ _ E2)|]. split; [|split].
    + intros q x Hq.
      rewrite (write_get_other _ _ _ _ _ _ E2 Hq). apply (write_get_other _ _ _ _ _ _ E1 Hq).
    + intros q. rewrite (write_dir_iff _ _ _ _ _ E2). apply (write_dir_iff _ _ _ _ _ E1).
    + intros Hwf Hnames.
      apply (write_wf _ _ _ _ (write_wf _ _ _ _ Hwf Hnames E1) Hnames E2).
  - destruct (read_file source f) as [text|e]; [|discriminate]. simpl.
    unfold write_to.
    destruct (tree_write out (split_path d) text) as [o1|] eqn:E1; [|discriminate].
    intros [= <-]. exists d, text. split; [reflexivity|]. split; [reflexivity|].
    split; [apply (write_get_same _ _ _ _ E1)|]. split; [|split].
    + intros q x Hq. apply (write_get_other _ _ _ _ _ _ E1 Hq).
    + intros q. apply (write_dir_iff _ _ _ _ _ E1).
    + intros Hwf Hnames. apply (write_wf _ _ _ _ Hwf Hnames E1).
Qed.

Lemma write_files_loop self source fs out out' :
  for_each (write_file self source) fs out = Ok out' ->
  (forall q x, (forall f d, f ∈ fs -> destination self f = Ok d -> split_path d <> q) ->
     tree_get out' q = Some (File x) <-> tree_get out q = Some (File x)) /\
  (forall q, is_dir_at out' q <-> is_dir_at out q) /\
  (forall q, is_file_at out q -> is_file_at out' q) /\
  (forall q, is_file_at out' q ->
     is_file_at out q \/
     exists f d, f ∈ fs /\ destination self f = Ok d /\ split_path d = q) /\
  ((forall f g d, f ∈ fs -> g ∈ fs ->
      destination self f = Ok d -> destination self g = Ok d -> f = g) ->
   forall f, f ∈ fs ->
     exists d content,
       destination self f = Ok d /\ written_content self source f = Ok content /\
       tree_get out' (split_path d) = Some (File content)) /\
  (wf_tree out = true ->
   (forall f d, f ∈ fs -> destination self f = Ok d ->
      Forall (fun n => wf_name n = true) (split_path d)) ->
   wf_tree out' = true).
Proof.
  revert out. induction fs as [|f0 fs IH]; intros out; simpl.
  - intros [= <-]. split; [done|]. split; [done|]. split; [done|].
    split; [auto|]. split; [|done].
    intros _ f Hf. apply elem_of_nil in Hf. done.
  - destruct (write_file self source out f0) as [out1|e] eqn:E0; [|discriminate].
    simpl. intros Hloop.
    destruct (write_file_spec _ _ _ _ _ E0) as (d0 & c0 & Hd0 & Hc0 & Hg0 & Ho0 & Hdir0 & Hwf0).
    destruct (IH out1 Hloop) as (Ho & Hdir & Hkeep & Hnew & Hall & Hwf).
    split; [|split; [|split; [|split; [|split]]]].
    + intros q x Hq. rewrite Ho.
      * apply Ho0. intros ->. apply (Hq f0 d0); [left|exact Hd0|reflexivity].
      * intros f d Hf Hd. apply (Hq f d); [right; exact Hf|exact Hd].
    + intros q. rewrite Hdir. apply Hdir0.
    + intros q [x Hx]. apply Hkeep.
      destruct (decide (q = split_path d0)) as [->|Hne]; [eexists; exact Hg0|].
      exists x. apply Ho0; done.
    + intros q Hq. destruct (Hnew q Hq) as [[x Hx]|(f & d & Hf & Hd & Hqd)].
      * destruct (decide (q = split_path d0)) as [->|Hne].
        -- right. exists f0, d0. split; [left|done].
        -- left. exists x. apply (Ho0 q x Hne), Hx.
      * right. exists f, d. split; [right; exact Hf|done].
    + intros Hinj f Hf.
      destruct (decide (f ∈ fs)) as [Hin|Hnin].
      * apply Hall; [|exact Hin].
        intros f1 f2 d H1 H2. apply Hinj; right; assumption.
      * apply elem_of_cons in Hf as [->|Hf]; [|done].
        exists d0, c0. split; [exact Hd0|]. split; [exact Hc0|].
        apply Ho; [|exact Hg0].
        intros g d Hg Hd Heq. apply split_path_inj in Heq as ->.
        apply Hnin. rewrite (Hinj f0 g d0); [exact Hg|left|right; exact Hg|done|done].
    + intros Hwfo Hnames. apply Hwf.
      * apply Hwf0; [exact Hwfo|]. apply (Hnames f0 d0); [left|exact Hd0].
      * intros f d Hf Hd. apply (Hnames f d); [right; exact Hf|exact Hd].
Qed.

Lemma write_dirs_ok ds out out' :
  for_each write_dir ds out = Ok out' ->
  (forall p c, tree_get out' p = Some (File c) <-> tree_get out p = Some (File c)) /\
  (forall p, is_dir_at out p -> is_dir_at out' p).
Proof.
  revert out. induction ds as [|d ds IH]; intros out; simpl.
  - intros [= <-]. done.
  - destruct (write_dir_cases out d) as [[_ ->]|(_ & out1 & -> & _ & Hf1 & Hk1 & _)];
      [discriminate|].
    simpl. intros H. destruct (IH out1 H) as [Hf Hk]. split.
    + intros p c. rewrite Hf. apply Hf1.
    + intros p Hp. apply Hk, Hk1, Hp.
Qed.

(** What [run] leaves at the output directory. *)
Lemma run_output self w self' w' :
  run self w = Ok (self', w') ->
  exists self1 out1,
    self1 = _index_source_dir self (w_source w) /\
    _calculate_fingerprints self1 (w_source w) = Ok self' /\
    _write_dirs self' (w_output w) = Ok out1 /\
    _write_files self' (w_source w) out1 = Ok (w_output w') /\
    w_source w' = w_source w /\
    (if _skip_s3_upload self' then w_remote w' = w_remote w
     else exists bucket, _upload_to_bucket self' (w_output w') (w_remote w) = Ok bucket /\
                         w_remote w' = Some bucket).
Proof.
  unfold run.
  destruct (_calculate_fingerprints _ _) as [s|e] eqn:Efp; [|discriminate]. simpl.
  destruct (_write_dirs s (w_output w)) as [out1|e] eqn:Ed; [|discriminate]. simpl.
  destruct (_write_files s (w_source w) out1) as [out2|e] eqn:Ef; [|discriminate]. simpl.
  destruct (_skip_s3_upload s) eqn:Es; simpl.
  - intros [= <- <-]. exists (_index_source_dir self (w_source w)), out1. rewrite Es. done.
  - destruct (_upload_to_bucket s out2 (w_remote w)) as [b|e] eqn:Eu; [|discriminate].
    simpl. intros [= <- <-]. exists (_index_source_dir self (w_source w)), out1.
    rewrite Es. simpl. repeat (split; [done|]). exists b. done.
Qed.

(** X14: a run never removes anything from the output directory: a path
    that was a file before the run is a file after it (with the same
    bytes, unless the run wrote to it), and a directory stays a directory.
    What an earlier run left there and the site no longer has is kept. *)
Theorem X14_run_keeps_output_files self w self' w' :
  run self w = Ok (self', w') ->
  (forall p c, read_file (Some (w_output w)) p = Ok c ->
     exists c', read_file (Some (w_output w')) p = Ok c' /\
                ((forall f, f ∈ _files self' -> destination self' f <> Ok p) -> c' = c)) /\
  (forall d, tree_isdir (w_output w) d = true -> tree_isdir (w_output w') d = true).
Proof.
  intros Hrun.
  destruct (run_output _ _ _ _ Hrun) as (self1 & out1 & _ & _ & Hd & Hf & _).
  destruct (write_dirs_ok _ _ _ Hd) as [Hfiles1 Hdirs1].
  destruct (write_files_loop _ _ _ _ _ Hf) as (Ho & Hdir & Hkeep & _).
  split.
  - intros p c Hp. apply read_file_ok in Hp.
    destruct (Hkeep (split_path p)) as [c' Hc'].
    { exists c. apply Hfiles1, Hp. }
    exists c'. split; [apply read_file_ok, Hc'|].
    intros Hother. apply Hfiles1 in Hp.
    apply (Ho (split_path p) c) in Hp; [congruence|].
    intros f d Hin Hdest Heq. apply split_path_inj in Heq as ->.
    apply (Hother f Hin Hdest).
  - intros d Hd0. apply tree_isdir_spec. apply Hdir, Hdirs1, tree_isdir_spec, Hd0.
Qed.

Lemma X14_witness :
  exists self' w',
    run (example_optimizer [])
        (World app_site (Dir [(lit "app.0000.css", File (lit "old"))]) (Some (S3Bucket ∅ [])))
    = Ok (self', w') /\
    read_file (Some (w_output w')) (lit "app.0000.css") = Ok (lit "old").
Proof.
  destruct (run (example_optimizer [])
              (World app_site (Dir [(lit "app.0000.css", File (lit "old"))])
                 (Some (S3Bucket ∅ [])))) as [[self' w']|e] eqn:Hrun;
    [|vm_compute in Hrun; discriminate Hrun].
  exists self', w'. split; [reflexivity|].
  destruct (X14_run_keeps_output_files _ _ _ _ Hrun) as [Hkeep _].
  destruct (Hkeep (lit "app.0000.css") (lit "old")) as (c' & Hc' & Hsame);
    [vm_compute; reflexivity|].
  rewrite Hc'. f_equal. apply Hsame.
  vm_compute in Hrun. injection Hrun as <- <-.
  vm_compute. intros f Hf. apply list_elem_of_singleton in Hf as ->. discriminate.
Defined.

(** ** The destinations of the indexed files *)

Lemma assets_ext_nonempty : [] ∉ assets_ext.
Proof. decide_by_compute. Qed.

Section fingerprinted_object.
Variables source_dir bucket output_dir : str.
Variable exclude : list str.
Variables ak sk : option str.
Variable skip : bool.
Variable source : option node.
Variable self' : Optimizer.

Local Abbreviation self0 := (new_optimizer source_dir bucket exclude output_dir ak sk skip).
Local Abbreviation self1 := (_index_source_dir self0 source).

Hypothesis Hfp : _calculate_fingerprints self1 source = Ok self'.

Lemma fp_fields :
  _files self' = _files self1 /\ _subdirs self' = _subdirs self1 /\
  _rewritables self' = _rewritables self1 /\
  dict_keys (_assets_map self') = dict_keys (_assets_map self1) /\
  _assets_ext self' = assets_ext /\ _skip_s3_upload self' = skip.
Proof.
  destruct (fingerprint_loop_fields _ _ _ _ Hfp) as (H1 & H2 & H3 & _ & H5 & H6).
  rewrite H1, H2, H3, H5, H6, (fingerprints_keys _ _ _ Hfp).
  destruct (index_source_dir_extends self0 source) as (_ & -> & _).
  repeat (split; [reflexivity|]).
  unfold _index_source_dir. generalize (os_walk source). intros es.
  assert (forall s, _skip_s3_upload (fold_left index_entry es s) = _skip_s3_upload s) as H.
  { induction es as [|[[d ds] fs] es IH]; intros s; [reflexivity|].
    simpl. rewrite IH. unfold index_entry.
    assert (forall s0, _skip_s3_upload (fold_left (index_file d) fs s0) = _skip_s3_upload s0)
      as Hfs.
    { induction fs as [|x fs IHf]; intros s0; [reflexivity|].
      simpl. rewrite IHf. unfold index_file.
      destruct (excluded _ _); [reflexivity|]. simpl.
      repeat case_bool_decide; reflexivity. }
    rewrite Hfs. clear.
    revert s. induction ds as [|x ds IHd]; intros s; [reflexivity|].
    simpl. rewrite IHd. unfold index_dir. destruct (excluded _ _); reflexivity. }
  apply H.
Qed.

Lemma fp_key_spec f :
  f ∈ dict_keys (_assets_map self') <-> f ∈ _files self' /\ snd (splitext f) ∈ assets_ext.
Proof.
  destruct fp_fields as (-> & _ & _ & -> & _). apply indexed_key_spec.
Qed.

Lemma destination_asset f :
  f ∈ dict_keys (_assets_map self') ->
  exists c, read_file source f = Ok c /\
            destination self' f = Ok (convert_filename f (SHA256.hexdigest c)).
Proof.
  intros Hf. unfold destination. rewrite bool_decide_eq_true_2 by done.
  destruct fp_fields as (_ & _ & _ & Hk & _). rewrite Hk in Hf.
  apply (fingerprints_new_filename _ _ _ _ Hfp Hf).
Qed.

Lemma destination_plain f :
  f ∉ dict_keys (_assets_map self') -> destination self' f = Ok f.
Proof. intros Hf. unfold destination. rewrite bool_decide_eq_false_2 by done. reflexivity. Qed.

Lemma destination_total f : f ∈ _files self' -> exists d, destination self' f = Ok d.
Proof.
  intros Hf. destruct (decide (f ∈ dict_keys (_assets_map self'))) as [Hk|Hk].
  - destruct (destination_asset f Hk) as (c & _ & ->). eauto.
  - rewrite (destination_plain f Hk). eauto.
Qed.

Lemma destination_ext f d :
  destination self' f = Ok d -> snd (splitext d) = snd (splitext f).
Proof.
  destruct (decide (f ∈ dict_keys (_assets_map self'))) as [Hk|Hk].
  - destruct (destination_asset f Hk) as (c & _ & ->). intros [= <-].
    destruct (convert_filename_splitext f (SHA256.hexdigest c)) as [Hext _].
    { apply hex_no_sep, hexdigest_hex. }
    rewrite Hext; [reflexivity|].
    apply fp_key_spec in Hk as [_ Hk]. intros E. rewrite E in Hk.
    apply (assets_ext_nonempty Hk).
  - rewrite (destination_plain f Hk). intros [= <-]. reflexivity.
Qed.

Lemma destination_inj f g d :
  f ∈ _files self' -> g ∈ _files self' ->
  destination self' f = Ok d -> destination self' g = Ok d -> f = g.
Proof.
  intros Hf Hg Hdf Hdg.
  pose proof (destination_ext f d Hdf) as Ef.
  pose proof (destination_ext g d Hdg) as Eg.
  destruct (decide (f ∈ dict_keys (_assets_map self'))) as [Hkf|Hkf].
  - assert (g ∈ dict_keys (_assets_map self')) as Hkg.
    { apply fp_key_spec. split; [exact Hg|]. rewrite <- Eg, Ef. apply fp_key_spec, Hkf. }
    destruct (destination_asset f Hkf) as (cf & _ & Hf').
    destruct (destination_asset g Hkg) as (cg & _ & Hg').
    rewrite Hf' in Hdf. rewrite Hg' in Hdg. injection Hdf as <-. injection Hdg as Hdg.
    apply convert_filename_inj in Hdg as [-> _];
      auto using hex_no_dot, hex_no_sep, hexdigest_hex.
  - assert (g ∉ dict_keys (_assets_map self')) as Hkg.
    { intros Hkg. apply Hkf. apply fp_key_spec. split; [exact Hf|].
      rewrite <- Ef, Eg. apply fp_key_spec, Hkg. }
    rewrite (destination_plain f Hkf) in Hdf. rewrite (destination_plain g Hkg) in Hdg.
    congruence.
Qed.

End fingerprinted_object.

(** X15: after indexing and fingerprinting, the name under which a file
    is written has the extension of the file itself, so that an asset is
    written under the name of an asset; and no two indexed files are
    written to the same path: no file of the site overwrites another in
    the output directory. *)
Theorem X15_destinations_distinct
    source_dir bucket exclude output_dir ak sk skip source self' f d :
  _calculate_fingerprints
    (_index_source_dir (new_optimizer source_dir bucket exclude output_dir ak sk skip) source)
    source = Ok self' ->
  f ∈ _files self' -> destination self' f = Ok d ->
  snd (splitext d) = snd (splitext f) /\
  forall g, g ∈ _files self' -> destination self' g = Ok d -> g = f.
Proof.
  intros Hfp Hf Hd. split.
  - apply (destination_ext _ _ _ _ _ _ _ _ _ Hfp f d Hd).
  - intros g Hg Hdg.
    apply (destination_inj _ _ _ _ _ _ _ _ _ Hfp g f d Hg Hf Hdg Hd).
Qed.

Lemma X15_witness :
  snd (splitext (lit "a.559aead08264d5795d3909718cdd05abd49572e84fe55590eef31a88a08fdffd.css"))
  = snd (splitext (lit "a.css")) /\
  (forall g, g ∈ _files twin_fingerprinted ->
     destination twin_fingerprinted g
     = Ok (lit "a.559aead08264d5795d3909718cdd05abd49572e84fe55590eef31a88a08fdffd.css") ->
     g = lit "a.css").
Proof.
  apply (X15_destinations_distinct (lit "site") (lit "example.org") [] (lit "out")
           None None false twin_site twin_fingerprinted (lit "a.css")).
  - vm_compute. reflexivity.
  - vm_compute. left.
  - vm_compute. reflexivity.
Defined.

(** X16: when [_write_files] returns, the output tree holds for every
    indexed file, at its destination, what was to be written: the bytes
    of the source for a file that is not rewritable; for a rewritable one
    the text read from the source (decoded, [CR LF] and [CR] read as
    [LF]) with its lines rewritten; and every path that is the
    destination of no indexed file reads as it did before. *)
Theorem X16_write_files_contents
    source_dir bucket exclude output_dir ak sk skip source self' out out' :
  _calculate_fingerprints
    (_index_source_dir (new_optimizer source_dir bucket exclude output_dir ak sk skip) source)
    source = Ok self' ->
  _write_files self' source out = Ok out' ->
  (forall f, f ∈ _files self' ->
     exists d content,
       destination self' f = Ok d /\ written_content self' source f = Ok content /\
       read_file (Some out') d = Ok content) /\
  (forall f, f ∈ _files self' -> (f ∉ _rewritables self') ->
     exists d, destination self' f = Ok d /\
               read_file (Some out') d = read_file source f) /\
  (forall p, (forall f, f ∈ _files self' -> destination self' f <> Ok p) ->
     read_file (Some out') p = read_file (Some out) p).
Proof.
  intros Hfp Hw.
  destruct (write_files_loop _ _ _ _ _ Hw) as (Ho & _ & _ & _ & Hall & _).
  assert (forall f, f ∈ _files self' ->
            exists d content,
              destination self' f = Ok d /\ written_content self' source f = Ok content /\
              read_file (Some out') d = Ok content) as Hfiles.
  { intros f Hf. destruct (Hall (destination_inj _ _ _ _ _ _ _ _ _ Hfp) f Hf)
      as (d & content & Hd & Hc & Hg).
    exists d, content. split; [exact Hd|]. split; [exact Hc|]. apply read_file_ok, Hg. }
  split; [exact Hfiles|]. split.
  - intros f Hf Hnr. destruct (Hfiles f Hf) as (d & content & Hd & Hc & Hr).
    exists d. split; [exact Hd|]. rewrite Hr. unfold written_content in Hc.
    destruct (read_file source f) as [text|e]; [|discriminate Hc]. simpl in Hc.
    rewrite bool_decide_eq_false_2 in Hc by done. congruence.
  - intros p Hp. apply read_file_same. intros c. apply Ho.
    intros f d Hf Hd Heq. apply split_path_inj in Heq as ->. apply (Hp f Hf Hd).
Qed.

Lemma X16_witness :
  exists out',
    _write_files page_fingerprinted page_site (Dir []) = Ok out' /\
    read_file (Some out')
      (lit "app.559aead08264d5795d3909718cdd05abd49572e84fe55590eef31a88a08fdffd.css")
    = Ok (lit "A").
Proof.
  destruct (_write_files page_fingerprinted page_site (Dir [])) as [out'|e] eqn:Hw;
    [|vm_compute in Hw; discriminate Hw].
  exists out'. split; [reflexivity|].
  destruct (X16_write_files_contents (lit "site") (lit "example.org") [] (lit "out")
              None None false page_site page_fingerprinted (Dir []) out')
    as (Hfiles & _); [vm_compute; reflexivity|exact Hw|].
  destruct (Hfiles (lit "app.css")) as (d & content & Hd & Hc & Hr).
  - vm_compute. right. left.
  - vm_compute in Hd. injection Hd as <-.
    vm_compute in Hc. injection Hc as <-. exact Hr.
Defined.

(** ** What a walk finds *)

Lemma fnames_of_intro f c es : (f, File c) ∈ es -> f ∈ fnames_of es.
Proof.
  intros Hin. unfold fnames_of. apply list_elem_of_fmap. exists (f, File c).
  split; [reflexivity|]. apply list_elem_of_In, filter_In. split; [|reflexivity].
  apply list_elem_of_In, Hin.
Qed.

Lemma dirnames_of_intro n es' es : (n, Dir es') ∈ es -> n ∈ dirnames_of es.
Proof.
  intros Hin. unfold dirnames_of. apply list_elem_of_fmap. exists (n, Dir es').
  split; [reflexivity|]. apply list_elem_of_In, filter_In. split; [|reflexivity].
  apply list_elem_of_In, Hin.
Qed.

Lemma dirnames_of_elem n es : n ∈ dirnames_of es -> exists es', (n, Dir es') ∈ es.
Proof.
  unfold dirnames_of. rewrite list_elem_of_fmap.
  intros ([m t] & -> & Hin). apply list_elem_of_In, filter_In in Hin as [Hin Hd].
  destruct t as [|es']; [done|]. exists es'. apply list_elem_of_In. exact Hin.
Qed.

Lemma walk_child dp es n child e :
  (n, child) ∈ es -> e ∈ walk (rel_join dp n) child -> e ∈ walk dp (Dir es).
Proof.
  intros Hin He. simpl. right. apply elem_of_flat_map. exists (n, child).
  split; [exact Hin|]. destruct child as [c|es']; [simpl in He; done|exact He].
Qed.

(** Every file of a well-formed tree is listed by the walk, in the
    triple of the directory it lies in. *)
Lemma walk_complete t dp rel f c :
  wf_tree t = true -> tree_get t (rel ++ [f]) = Some (File c) ->
  exists d ds fs, (d, ds, fs) ∈ walk dp t /\ f ∈ fs /\ comps d = comps dp ++ rel.
Proof.
  revert t dp. induction rel as [|n rel IH]; intros t dp Hwf Hget.
  - destruct t as [c0|es]; [done|]. simpl in Hget.
    destruct (lookup_entry f es) as [child|] eqn:E; [|done]. injection Hget as ->.
    exists dp, (dirnames_of es), (fnames_of es). split; [left|].
    split; [|rewrite app_nil_r; reflexivity].
    apply (fnames_of_intro f c), lookup_entry_elem, E.
  - destruct t as [c0|es]; [done|].
    change ((n :: rel) ++ [f]) with (n :: (rel ++ [f])) in Hget. simpl in Hget.
    destruct (lookup_entry n es) as [child|] eqn:E; [|done].
    apply lookup_entry_elem in E.
    destruct (wf_tree_dir es Hwf) as [_ Hall]. destruct (Hall _ E) as [Hn Hc].
    simpl in Hn, Hc.
    destruct (IH child (rel_join dp n) Hc Hget) as (d & ds & fs & He & Hf & Hcomps).
    exists d, ds, fs. split; [apply (walk_child dp es n child _ E He)|].
    split; [exact Hf|]. rewrite Hcomps, comps_rel_join, <- app_assoc by done. reflexivity.
Qed.

Lemma split_last {A} (l : list A) : l <> [] -> exists l' x, l = l' ++ [x].
Proof.
  intros Hne. destruct (exists_last Hne) as (l' & x & ->). eauto.
Qed.

Lemma comps_inj d d' : comps d = comps d' -> d = d'.
Proof.
  destruct d as [|c d]; destruct d' as [|c' d']; simpl; intros H.
  - reflexivity.
  - exfalso. apply (split_path_nonempty (c' :: d')). symmetry. exact H.
  - exfalso. apply (split_path_nonempty (c :: d)). exact H.
  - apply split_path_inj. exact H.
Qed.

(** The keys of a well-formed tree are the paths under which a file can
    be read. *)
Lemma local_keys_spec t p :
  wf_tree t = true -> p ∈ local_keys t <-> exists c, read_file (Some t) p = Ok c.
Proof.
  intros Hwf. split.
  - intros Hp. apply (source_files_readable t p Hwf Hp).
  - intros [c Hc]. apply read_file_ok in Hc.
    destruct (split_last (split_path p) (split_path_nonempty p)) as (rel & f & Hsplit).
    rewrite Hsplit in Hc.
    destruct (walk_complete t [] rel f c Hwf Hc) as (d & ds & fs & He & Hf & Hcomps).
    simpl in Hcomps.
    assert (wf_name f = true) as Hname.
    { destruct (tree_get_wf _ _ _ Hwf Hc) as [_ Hall].
      apply Forall_app in Hall as [_ Hall]. apply Forall_cons in Hall as [Hall _]. exact Hall. }
    assert (rel_join d f = p) as <-.
    { apply split_path_inj. rewrite split_path_rel_join, Hcomps, Hsplit by done. reflexivity. }
    apply (local_keys_elem t d ds fs f He Hf).
Qed.

(** The directory of a triple of a walk is the top, or is listed in the
    triple of the directory above it. *)
Lemma walk_dirpath t dp e :
  e ∈ walk dp t ->
  fst (fst e) = dp \/
  fst (fst e) ∈ flat_map (fun e' => List.map (rel_join (fst (fst e'))) (snd (fst e')))
                         (walk dp t).
Proof.
  revert dp e. induction t as [c|es IH] using node_ind'; intros dp e He.
  - simpl in He. apply elem_of_nil in He. done.
  - simpl in He. apply elem_of_cons in He as [->|He]; [left; reflexivity|].
    right. apply elem_of_flat_map in He as ([n child] & Hin & He).
    destruct child as [c|es']; [apply elem_of_nil in He; done|]. simpl in He.
    rewrite Forall_forall in IH.
    pose proof (IH (n, Dir es') Hin (rel_join dp n) e He) as Hd. cbn [snd] in Hd.
    destruct Hd as [Hd|Hd].
    + apply elem_of_flat_map. exists (dp, dirnames_of es, fnames_of es).
      split; [left|]. simpl. rewrite Hd. apply list_elem_of_fmap. exists n.
      split; [reflexivity|]. apply (dirnames_of_intro n es' es Hin).
    + apply elem_of_flat_map in Hd as (e' & He' & Hd).
      apply elem_of_flat_map. exists e'. split; [|exact Hd].
      apply (walk_child dp es n (Dir es') e' Hin He').
Qed.

Lemma walk_dirs_spec t d :
  wf_tree t = true -> d ∈ walk_dirs t ->
  d <> [] /\ split_path d = comps d /\ is_dir_at t (comps d) /\
  Forall (fun n => wf_name n = true) (comps d).
Proof.
  intros Hwf Hd. unfold walk_dirs in Hd.
  apply elem_of_flat_map in Hd as ([[dp ds] fs] & He & Hd). simpl in Hd.
  apply list_elem_of_fmap in Hd as (n & -> & Hn).
  destruct (walk_spec t Hwf _ _ He) as (rel & es & Hc & Hget & Hwf' & Hds & _).
  simpl in Hc, Hds. subst ds. apply dirnames_of_elem in Hn as [es' Hin].
  destruct (wf_tree_dir es Hwf') as [Hnd Hall].
  destruct (Hall _ Hin) as [Hname _]. simpl in Hname.
  assert (rel_join dp n <> []) as Hne.
  { apply wf_name_spec in Hname as [Hne _].
    destruct dp; simpl; [exact Hne|discriminate]. }
  assert (tree_get t (comps (rel_join dp n)) = Some (Dir es')) as Hdir.
  { rewrite comps_rel_join, Hc by done.
    rewrite (tree_get_app _ _ _ _ Hget). simpl.
    rewrite (lookup_entry_nodup n (Dir es')) by done. reflexivity. }
  split; [exact Hne|]. split; [|split].
  - destruct (rel_join dp n); [done|reflexivity].
  - eexists. exact Hdir.
  - apply (tree_get_wf _ _ _ Hwf Hdir).
Qed.

Lemma plain_dirs_spec t q n es :
  plain_dirs t = true -> tree_get t (q ++ [n]) = Some (Dir es) ->
  snd (splitext n) ∉ assets_ext.
Proof.
  revert t. induction q as [|m q IH]; intros t Hplain Hget.
  - destruct t as [c|es0]; [done|]. simpl in Hget, Hplain.
    destruct (lookup_entry n es0) as [child|] eqn:E; [|done]. injection Hget as ->.
    apply lookup_entry_elem in E.
    rewrite forallb_forall in Hplain. apply list_elem_of_In, Hplain in E. simpl in E.
    apply andb_true_iff in E as [E _]. apply negb_true_iff, bool_decide_eq_false in E.
    exact E.
  - destruct t as [c|es0]; [done|].
    change ((m :: q) ++ [n]) with (m :: (q ++ [n])) in Hget. simpl in Hget, Hplain.
    destruct (lookup_entry m es0) as [child|] eqn:E; [|done].
    apply lookup_entry_elem in E.
    rewrite forallb_forall in Hplain. apply list_elem_of_In, Hplain in E. simpl in E.
    destruct child as [c|es1]; [destruct (q ++ [n]); done|].
    apply andb_true_iff in E as [_ E]. apply (IH (Dir es1) E Hget).
Qed.

(** ** The whole run on a well-formed site *)

Lemma wf_name_convert f h :
  wf_name f = true -> (chr_sep ∉ h) -> wf_name (convert_filename f h) = true.
Proof.
  intros [Hne Hs]%wf_name_spec Hh. apply wf_name_spec.
  rewrite convert_filename_eq. split.
  - destruct (fst (splitext f)); discriminate.
  - pose proof (splitext_app f) as Hf.
    intros Hin. apply elem_of_app in Hin as [Hin|Hin].
    { apply Hs. rewrite <- Hf. apply elem_of_app. left. exact Hin. }
    apply elem_of_cons in Hin as [Hin|Hin]; [discriminate Hin|].
    apply elem_of_app in Hin as [Hin|Hin]; [done|].
    apply Hs. rewrite <- Hf. apply elem_of_app. right. exact Hin.
Qed.

Section site_run.
Variables source_dir bucket output_dir : str.
Variable exclude : list str.
Variables ak sk : option str.
Variable skip : bool.
Variable t : node.
Variable self' : Optimizer.

Local Abbreviation self0 := (new_optimizer source_dir bucket exclude output_dir ak sk skip).
Local Abbreviation self1 := (_index_source_dir self0 (Some t)).

Hypothesis Hwf : wf_tree t = true.
Hypothesis Hfp : _calculate_fingerprints self1 (Some t) = Ok self'.

Lemma site_files p :
  p ∈ _files self' <-> p ∈ local_keys t /\ excluded exclude p = false.
Proof.
  destruct (fp_fields _ _ _ _ _ _ _ _ _ Hfp) as (-> & _).
  destruct (index_new_fields source_dir bucket exclude output_dir ak sk skip (Some t))
    as (_ & -> & _).
  apply not_excluded_elem.
Qed.

Lemma site_subdirs d :
  d ∈ _subdirs self' <-> d ∈ walk_dirs t /\ excluded exclude d = false.
Proof.
  destruct (fp_fields _ _ _ _ _ _ _ _ _ Hfp) as (_ & -> & _).
  destruct (index_new_fields source_dir bucket exclude output_dir ak sk skip (Some t))
    as (_ & _ & -> & _).
  apply not_excluded_elem.
Qed.

(** Where an indexed file lies in the source tree. *)
Lemma site_file_path p :
  p ∈ _files self' ->
  exists d f c,
    p = rel_join d f /\ wf_name f = true /\
    tree_get t (comps d ++ [f]) = Some (File c) /\
    is_dir_at t (comps d) /\ (d = [] \/ d ∈ walk_dirs t).
Proof.
  intros Hp. apply site_files in Hp as [Hp _]. unfold local_keys in Hp.
  apply list_elem_of_fmap in Hp as ([d f] & -> & Hdf). simpl.
  unfold walk_files in Hdf. apply elem_of_flat_map in Hdf as ([[d' ds] fs] & He & Hf).
  simpl in Hf. apply list_elem_of_fmap in Hf as (f' & [= -> ->] & Hf).
  destruct (walk_spec t Hwf _ _ He) as (rel & es & Hc & Hget & Hwf' & _ & Hfs).
  simpl in Hc, Hfs. subst fs. apply fnames_of_elem in Hf as [c Hin].
  destruct (wf_tree_dir es Hwf') as [Hnd Hall].
  destruct (Hall _ Hin) as [Hname _]. simpl in Hname.
  exists d', f', c. split; [reflexivity|]. split; [exact Hname|]. split; [|split].
  - rewrite Hc, (tree_get_app _ _ _ _ Hget). simpl.
    rewrite (lookup_entry_nodup f' (File c)) by done. reflexivity.
  - rewrite Hc. eexists. exact Hget.
  - destruct (walk_dirpath t [] _ He) as [Hd|Hd]; [left; exact Hd|right; exact Hd].
Qed.

(** The destination of an indexed file lies in the same directory; its
    name is well formed and has the extension of the file. *)
Lemma site_destination d f k :
  rel_join d f ∈ _files self' -> wf_name f = true ->
  destination self' (rel_join d f) = Ok k ->
  exists n', k = rel_join d n' /\ wf_name n' = true /\
             snd (splitext n') = snd (splitext f) /\
             (rel_join d f ∈ dict_keys (_assets_map self') \/ n' = f).
Proof.
  intros Hp Hname Hk.
  destruct (decide (rel_join d f ∈ dict_keys (_assets_map self'))) as [Hkey|Hkey].
  - destruct (destination_asset _ _ _ _ _ _ _ _ _ Hfp _ Hkey) as (c & _ & Hd).
    rewrite Hd in Hk. injection Hk as <-.
    pose proof (wf_name_spec f) as [Hspec _]. destruct (Hspec Hname) as [_ Hsep].
    exists (convert_filename f (SHA256.hexdigest c)).
    split; [apply convert_filename_rel_join, Hsep|].
    split; [apply wf_name_convert; [exact Hname|apply hex_no_sep, hexdigest_hex]|].
    split; [|left; exact Hkey].
    destruct (convert_filename_splitext f (SHA256.hexdigest c)) as [Hext _].
    { apply hex_no_sep, hexdigest_hex. }
    rewrite Hext; [reflexivity|].
    apply (fp_key_spec _ _ _ _ _ _ _ _ _ Hfp) in Hkey as [_ Hkey].
    rewrite splitext_ext_rel_join in Hkey.
    intros E. rewrite E in Hkey. apply (assets_ext_nonempty Hkey).
  - rewrite (destination_plain _ _ Hkey) in Hk. injection Hk as <-.
    exists f. split; [reflexivity|]. split; [exact Hname|]. split; [reflexivity|].
    right. reflexivity.
Qed.

Lemma site_destination_names p k :
  p ∈ _files self' -> destination self' p = Ok k ->
  Forall (fun n => wf_name n = true) (split_path k).
Proof.
  intros Hp Hk.
  destruct (site_file_path p Hp) as (d & f & c & -> & Hname & Hget & [es Hdir] & _).
  destruct (site_destination d f k Hp Hname Hk) as (n' & -> & Hn' & _).
  rewrite split_path_rel_join by done. apply Forall_app. split.
  - apply (tree_get_wf _ _ _ Hwf Hdir).
  - apply Forall_cons. split; [exact Hn'|constructor].
Qed.

Lemma site_subdir_names d :
  d ∈ _subdirs self' -> Forall (fun n => wf_name n = true) (split_path d).
Proof.
  intros Hd. apply site_subdirs in Hd as [Hd _].
  destruct (walk_dirs_spec t d Hwf Hd) as (_ & -> & _ & Hall). exact Hall.
Qed.

Lemma ready_after_write_dirs :
  exists out1,
    _write_dirs self' (Dir []) = Ok out1 /\ ready self' t out1 /\ wf_tree out1 = true /\
    (forall q, ~ is_file_at out1 q).
Proof.
  destruct (write_dirs_spec (_subdirs self') (Dir []))
    as (out1 & Hloop & Hd & Hf & Hk & Hn & Hwf1).
  { intros d _. apply empty_not_blocked. }
  exists out1. split; [exact Hloop|]. split; [|split].
  - split; [apply Hk; eexists; reflexivity|]. split; [exact Hd|].
    intros q Hq. destruct (Hn q Hq) as [[es Hes]|(d & Hin & [k Hpre])].
    + apply tree_get_empty in Hes as [-> _]. left. reflexivity.
    + right. apply site_subdirs in Hin as [Hin _].
      destruct (walk_dirs_spec t d Hwf Hin) as (_ & Hsplit & [es Hdir] & _).
      rewrite <- Hsplit, Hpre in Hdir.
      destruct (tree_get_prefix _ _ _ _ Hdir) as [Hq'|[_ Hq']]; [exact Hq'|].
      eexists. exact Hq'.
  - apply Hwf1; [reflexivity|]. intros d Hin. apply site_subdir_names, Hin.
  - intros q [c Hc]. apply Hf in Hc. apply tree_get_empty in Hc as [_ Hc]. discriminate Hc.
Qed.

Lemma site_rewritable p :
  p ∈ _rewritables self' -> snd (splitext p) ∈ rewriteables_ext.
Proof.
  destruct (fp_fields _ _ _ _ _ _ _ _ _ Hfp) as (_ & _ & -> & _).
  destruct (index_new_fields source_dir bucket exclude output_dir ak sk skip (Some t))
    as (_ & _ & _ & ->).
  apply with_ext_elem.
Qed.

Hypothesis Hparents : parents_made exclude t = true.
Hypothesis Htexts : texts_decode exclude t = true.
Hypothesis Hplain : plain_dirs t = true.

(** The directory of an indexed file is there once the indexed
    directories are. *)
Lemma site_parent_made out d f :
  rel_join d f ∈ _files self' -> wf_name f = true -> ready self' t out ->
  is_dir_at out (comps d).
Proof.
  intros Hp Hname (Htop & Hsub & _).
  apply site_files in Hp as [Hkey Hex].
  unfold parents_made in Hparents. rewrite forallb_forall in Hparents.
  apply list_elem_of_In, Hparents in Hkey.
  rewrite Hex, split_path_rel_join, removelast_last in Hkey by exact Hname.
  cbn [orb] in Hkey. apply orb_true_iff in Hkey as [Hnil|Hmade].
  - apply bool_decide_eq_true in Hnil. rewrite Hnil. exact Htop.
  - apply existsb_exists in Hmade as (d' & Hd' & Hc).
    apply andb_true_iff in Hc as [Hne Hpre].
    apply negb_true_iff in Hne. apply bool_decide_eq_true in Hpre as [k Hk].
    assert (is_dir_at out (split_path d')) as [es Hes].
    { apply Hsub, site_subdirs. split; [apply list_elem_of_In, Hd'|exact Hne]. }
    rewrite Hk in Hes.
    destruct (tree_get_prefix _ _ _ _ Hes) as [H|[_ H]]; [exact H|eexists; exact H].
Qed.

(** An indexed rewritable file decodes. *)
Lemma site_text_decodes p c :
  p ∈ _files self' -> p ∈ _rewritables self' -> read_file (Some t) p = Ok c ->
  exists text, text_read p c = Ok text.
Proof.
  intros Hp Hr Hread. apply site_files in Hp as [Hkey Hex].
  unfold texts_decode in Htexts. rewrite forallb_forall in Htexts.
  apply list_elem_of_In, Htexts in Hkey.
  rewrite Hex, Hread, (bool_decide_eq_true_2 _ (site_rewritable p Hr)) in Hkey.
  cbn [orb negb] in Hkey. unfold text_read. rewrite Hkey. eauto.
Qed.

Lemma write_file_total out p :
  p ∈ _files self' -> ready self' t out ->
  exists out', write_file self' (Some t) out p = Ok out'.
Proof.
  intros Hp (Htop & Hsub & Hdirs).
  destruct (site_file_path p Hp) as (d & f & c & -> & Hname & Hget & Hdir & Hd).
  destruct (destination_total _ _ _ _ _ _ _ _ _ Hfp _ Hp) as [k Hk].
  destruct (site_destination d f k Hp Hname Hk) as (n' & -> & Hn' & Hext & Hcase).
  assert (is_dir_at out (comps d)) as Hparent.
  { apply (site_parent_made out d f Hp Hname). split; [exact Htop|]. split; assumption. }
  assert (~ is_dir_at out (comps d ++ [n'])) as Hfree.
  { intros Hq. destruct (Hdirs _ Hq) as [Hnil|[es Hes]].
    { destruct (comps d); discriminate Hnil. }
    destruct Hcase as [Hkey| ->]; [|congruence].
    apply (plain_dirs_spec t _ _ _ Hplain Hes). rewrite Hext.
    apply (fp_key_spec _ _ _ _ _ _ _ _ _ Hfp) in Hkey as [_ Hkey].
    rewrite splitext_ext_rel_join in Hkey. exact Hkey. }
  assert (read_file (Some t) (rel_join d f) = Ok c) as Hread.
  { apply read_file_ok. rewrite split_path_rel_join by done. exact Hget. }
  unfold write_file. rewrite Hk, Hread. simpl. unfold write_to.
  rewrite split_path_rel_join by done.
  case_bool_decide; simpl.
  - destruct (write_total out (comps d) n' [] Hparent Hfree) as [o1 Ho1].
    rewrite Ho1. simpl.
    destruct (site_text_decodes _ c Hp ltac:(assumption) Hread) as [text ->]. simpl.
    destruct (fingerprints_substitutions _ _ _ Hfp) as (subs & Hsubs & _).
    rewrite (rewrite_text_spec _ _ _ Hsubs). simpl.
    destruct (write_total o1 (comps d) n'
                (concat (List.map (replace_all subs) (file_lines text)))) as [o2 Ho2].
    + apply (write_dir_iff _ _ _ _ _ Ho1), Hparent.
    + intros Hq. apply Hfree, (write_dir_iff _ _ _ _ _ Ho1), Hq.
    + rewrite Ho2. eauto.
  - destruct (write_total out (comps d) n' c Hparent Hfree) as [o1 Ho1].
    rewrite Ho1. eauto.
Qed.

Lemma write_files_total fs out :
  (forall p, p ∈ fs -> p ∈ _files self') -> ready self' t out ->
  exists out', for_each (write_file self' (Some t)) fs out = Ok out'.
Proof.
  revert out. induction fs as [|p fs IH]; intros out Hfs Hready; simpl; [eauto|].
  destruct (write_file_total out p) as [out1 Hw]; [apply Hfs; left|exact Hready|].
  rewrite Hw. simpl. apply IH.
  - intros q Hq. apply Hfs. right. exact Hq.
  - destruct (write_file_spec _ _ _ _ _ Hw) as (_ & _ & _ & _ & _ & _ & Hdir & _).
    destruct Hready as (Htop & Hsub & Hdirs). split; [|split].
    + apply Hdir, Htop.
    + intros d Hd. apply Hdir, Hsub, Hd.
    + intros q Hq. apply Hdirs, Hdir, Hq.
Qed.

(** The output of the two writing stages on an empty directory. *)
Lemma site_output :
  exists out1 out,
    _write_dirs self' (Dir []) = Ok out1 /\
    _write_files self' (Some t) out1 = Ok out /\
    wf_tree out = true /\
    (forall k, k ∈ local_keys out <->
               exists f, f ∈ _files self' /\ destination self' f = Ok k) /\
    (forall f, f ∈ _files self' ->
       exists k content,
         destination self' f = Ok k /\ written_content self' (Some t) f = Ok content /\
         read_file (Some out) k = Ok content).
Proof.
  destruct ready_after_write_dirs as (out1 & Hd & Hready & Hwf1 & Hnone).
  destruct (write_files_total (_files self') out1) as [out Hw]; [auto|exact Hready|].
  exists out1, out. split; [exact Hd|]. split; [exact Hw|].
  destruct (write_files_loop _ _ _ _ _ Hw) as (_ & _ & _ & Hnew & Hall & Hwfo).
  assert (wf_tree out = true) as Hwfout.
  { apply Hwfo; [exact Hwf1|]. intros f d Hf Hdest. apply (site_destination_names f d Hf Hdest). }
  assert (forall f, f ∈ _files self' ->
            exists k content,
              destination self' f = Ok k /\ written_content self' (Some t) f = Ok content /\
              read_file (Some out) k = Ok content) as Hfiles.
  { intros f Hf.
    destruct (Hall (destination_inj _ _ _ _ _ _ _ _ _ Hfp) f Hf) as (k & content & H1 & H2 & H3).
    exists k, content. split; [exact H1|]. split; [exact H2|]. apply read_file_ok, H3. }
  split; [exact Hwfout|]. split; [|exact Hfiles].
  intros k. rewrite (local_keys_spec out k Hwfout). split.
  - intros [c Hc]. apply read_file_ok in Hc.
    destruct (Hnew (split_path k)) as [Hold|(f & d & Hf & Hdest & Heq)].
    + exists c. exact Hc.
    + exfalso. apply (Hnone _ Hold).
    + apply split_path_inj in Heq as ->. exists f. done.
  - intros (f & Hf & Hdest).
    destruct (Hfiles f Hf) as (k' & content & Hk' & _ & Hr).
    rewrite Hdest in Hk'. injection Hk' as <-. exists content. exact Hr.
Qed.

End site_run.

Lemma run_steps self w self' out1 out2 :
  _calculate_fingerprints (_index_source_dir self (w_source w)) (w_source w) = Ok self' ->
  _write_dirs self' (w_output w) = Ok out1 ->
  _write_files self' (w_source w) out1 = Ok out2 ->
  run self w
  = if negb (_skip_s3_upload self') then
      do bucket <- _upload_to_bucket self' out2 (w_remote w);
      Ok (self', World (w_source w) out2 (Some bucket))
    else Ok (self', World (w_source w) out2 (w_remote w)).
Proof.
  intros H1 H2 H3. unfold run. rewrite H1. simpl. rewrite H2. simpl. rewrite H3.
  reflexivity.
Qed.



Lemma write_dirs_ok_wf ds out out' :
  for_each write_dir ds out = Ok out' -> wf_tree out = true ->
  (forall d, d ∈ ds -> Forall (fun n => wf_name n = true) (split_path d)) ->
  wf_tree out' = true.
Proof.
  revert out. induction ds as [|d ds IH]; intros out; simpl.
  - intros [= <-]. done.
  - destruct (write_dir_cases out d) as [[_ ->]|(_ & out1 & -> & _ & _ & _ & _ & Hwf1)];
      [discriminate|].
    simpl. intros H Hwf Hnames. apply (IH out1 H).
    + apply Hwf1; [exact Hwf|]. apply Hnames. left.
    + intros d' Hd'. apply Hnames. right. exact Hd'.
Qed.

(** X18: when an output directory is used again, whatever file an
    earlier run left in it is a key of the bucket after the run: the files
    of the output directory are never removed, and the upload keeps every
    key that is a file there.  The fingerprinted assets of old versions of
    the site are not deleted from the bucket. *)
Theorem X18_old_output_files_stay_in_bucket
    source_dir bucket exclude output_dir ak sk t out0 b0 self' w' :
  wf_tree t = true -> wf_tree out0 = true ->
  run (new_optimizer source_dir bucket exclude output_dir ak sk false)
      (World (Some t) out0 (Some b0)) = Ok (self', w') ->
  exists b1,
    w_remote w' = Some b1 /\
    forall p c, read_file (Some out0) p = Ok c ->
      (exists c', read_file (Some (w_output w')) p = Ok c') /\ is_Some (get_key b1 p).
Proof.
  intros Hwf Hwf0 Hrun.
  destruct (run_output _ _ _ _ Hrun) as (self1 & out1 & -> & Hfp & Hd & Hw & _ & Hup).
  cbn [w_source w_output w_remote] in Hfp, Hd, Hw, Hup.
  destruct (fp_fields _ _ _ _ _ _ _ _ _ Hfp) as (_ & _ & _ & _ & _ & Hskip).
  rewrite Hskip in Hup. destruct Hup as (b1 & Hup & Hremote).
  exists b1. split; [exact Hremote|].
  assert (wf_tree out1 = true) as Hwf1.
  { apply (write_dirs_ok_wf _ _ _ Hd Hwf0). intros d Hin.
    apply (site_subdir_names _ _ _ _ _ _ _ _ _ Hwf Hfp d Hin). }
  destruct (write_files_loop _ _ _ _ _ Hw) as (_ & _ & Hkeep & _ & _ & Hwfo).
  assert (wf_tree (w_output w') = true) as Hwf2.
  { apply Hwfo; [exact Hwf1|]. intros f d Hf Hdest.
    apply (site_destination_names _ _ _ _ _ _ _ _ _ Hwf Hfp f d Hf Hdest). }
  destruct (write_dirs_ok _ _ _ Hd) as [Hfiles1 _].
  destruct (upload_spec self' (w_output w') b0 Hwf2)
    as (b1' & puts & D & Hup' & _ & _ & _ & _ & Hin & _).
  rewrite Hup in Hup'. injection Hup' as <-.
  intros p c Hp. apply read_file_ok in Hp.
  assert (exists c', read_file (Some (w_output w')) p = Ok c') as Hread.
  { destruct (Hkeep (split_path p)) as [c' Hc'].
    - exists c. apply Hfiles1, Hp.
    - exists c'. apply read_file_ok, Hc'. }
  split; [exact Hread|]. apply Hin, (local_keys_spec _ _ Hwf2), Hread.
Qed.

Lemma X18_witness :
  exists self' w' b1,
    run (example_optimizer [])
        (World app_site (Dir [(lit "app.0000.css", File (lit "old"))]) (Some (S3Bucket ∅ [])))
    = Ok (self', w') /\
    w_remote w' = Some b1 /\ is_Some (get_key b1 (lit "app.0000.css")).
Proof.
  destruct (run (example_optimizer [])
              (World app_site (Dir [(lit "app.0000.css", File (lit "old"))])
                 (Some (S3Bucket ∅ [])))) as [[self' w']|e] eqn:Hrun;
    [|vm_compute in Hrun; discriminate Hrun].
  destruct (X18_old_output_files_stay_in_bucket (lit "site") (lit "example.org") []
              (lit "out") None None (Dir [(lit "app.css", File (lit "A"))])
              (Dir [(lit "app.0000.css", File (lit "old"))]) (S3Bucket ∅ []) self' w')
    as (b1 & Hremote & Hkeep).
  - vm_compute. reflexivity.
  - vm_compute. reflexivity.
  - exact Hrun.
  - exists self', w', b1. split; [reflexivity|]. split; [exact Hremote|].
    apply (Hkeep (lit "app.0000.css") (lit "old")). vm_compute. reflexivity.
Defined.

(** ** [_upload_to_bucket], lines 215-269: the objects of the bucket *)

(** The objects the loop leaves under the keys of the files it met. *)
Lemma upload_loop_objects self out fl b tbd b' tbd' :
  for_each (upload_step self out) fl (b, tbd) = Ok (b', tbd') ->
  (forall key, key ∈ keys_of fl -> should_upload self b key = false ->
     objects b' !! key = objects b !! key) /\
  (forall key body, key ∈ keys_of fl -> should_upload self b key = true ->
     read_file (Some out) key = Ok body ->
     objects b' !! key = Some (S3Obj body (cache_control_of self key))).
Proof.
  revert b tbd. induction fl as [|[d f] fl IH]; intros b tbd.
  - simpl. intros _. split; intros key; [|intros body]; intros Hk; apply elem_of_nil in Hk; done.
  - cbn [for_each]. rewrite upload_step_eq. set (key0 := rel_join d f).
    change (keys_of ((d, f) :: fl)) with (key0 :: keys_of fl). clearbody key0.
    destruct (should_upload self b key0) eqn:Hsu.
    + destruct (read_file (Some out) key0) as [body0|e] eqn:Hread; cbn [rbind]; [|done].
      intros Hrest.
      destruct (IH _ _ Hrest) as [A1 A2].
      apply upload_loop_spec in Hrest as (_ & _ & _ & _ & _ & _ & Hout & _).
      split.
      * intros key Hk Hs. destruct (decide (key = key0)) as [->|Hne]; [congruence|].
        apply elem_of_cons in Hk as [?|Hk]; [done|].
        rewrite A1; [|exact Hk|rewrite should_upload_put_ne by done; exact Hs].
        simpl. rewrite lookup_insert_ne by done. reflexivity.
      * intros key body Hk Hs Hbody. destruct (decide (key = key0)) as [->|Hne].
        -- rewrite Hread in Hbody. injection Hbody as <-.
           destruct (decide (key0 ∈ keys_of fl)) as [Hin|Hnin].
           ++ destruct (should_upload self
                          (s3_put b key0 (S3Obj body0 (cache_control_of self key0))) key0)
                eqn:Hs1.
              ** apply A2; done.
              ** rewrite A1 by done. simpl. apply lookup_insert_eq.
           ++ rewrite Hout by done. simpl. apply lookup_insert_eq.
        -- apply elem_of_cons in Hk as [?|Hk]; [done|].
           apply A2; [exact Hk| |exact Hbody].
           rewrite should_upload_put_ne by done. exact Hs.
    + cbn [rbind]. intros Hrest.
      destruct (IH _ _ Hrest) as [A1 A2].
      apply upload_loop_spec in Hrest as (_ & _ & _ & _ & _ & _ & Hout & _).
      split.
      * intros key Hk Hs. destruct (decide (key ∈ keys_of fl)) as [Hin|Hnin]; [auto|].
        apply Hout, Hnin.
      * intros key body Hk Hs Hbody.
        apply elem_of_cons in Hk as [->|Hk]; [congruence|]. apply A2; done.
Qed.

Lemma upload_objects self out b0 b1 :
  _upload_to_bucket self out (Some b0) = Ok b1 ->
  forall key body, read_file (Some out) key = Ok body -> key ∈ local_keys out ->
    get_key b1 key
    = if should_upload self b0 key then Some (S3Obj body (cache_control_of self key))
      else get_key b0 key.
Proof.
  unfold _upload_to_bucket. rewrite upload_loops_flat. fold (walk_files out).
  destruct (for_each (upload_step self out) (walk_files out) (b0, bucket_list b0))
    as [[b' tbd']|e] eqn:Hloop; [|discriminate].
  simpl. intros [= <-] key body Hbody Hkey.
  destruct (upload_loop_objects _ _ _ _ _ _ _ Hloop) as [A1 A2].
  apply upload_loop_spec in Hloop as (-> & _).
  unfold get_key at 1. simpl.
  rewrite lookup_foldr_delete_not_elem_of.
  - destruct (should_upload self b0 key) eqn:Hs; [apply A2; done|apply A1; done].
  - rewrite remove_all_spec by apply NoDup_fst_map_to_list. tauto.
Qed.

(** X19: what the bucket holds after the upload, for every file of a
    well-formed output tree: under the key of a file that is no asset, the
    bytes of the file with [no-cache, max-age=0]; under the key of an
    asset, the object that was there before, whatever its bytes, and the
    bytes of the file with [public, max-age=31556926] only when there was
    none. *)
Theorem X19_bucket_objects_after_upload self out b0 :
  wf_tree out = true ->
  exists b1,
    _upload_to_bucket self out (Some b0) = Ok b1 /\
    forall key body, read_file (Some out) key = Ok body ->
      (is_asset_key self key = false ->
       get_key b1 key = Some (S3Obj body cache_never)) /\
      (is_asset_key self key = true ->
       get_key b1 key = match get_key b0 key with
                        | Some old => Some old
                        | None => Some (S3Obj body cache_forever)
                        end).
Proof.
  intros Hwf.
  destruct (upload_spec self out b0 Hwf) as (b1 & _ & _ & Hup & _).
  exists b1. split; [exact Hup|].
  intros key body Hbody.
  assert (key ∈ local_keys out) as Hkey by (apply (local_keys_spec _ _ Hwf); eauto).
  rewrite (upload_objects _ _ _ _ Hup key body Hbody Hkey).
  unfold should_upload, cache_control_of. split; intros ->; simpl.
  - rewrite orb_true_r. reflexivity.
  - rewrite orb_false_r. destruct (get_key b0 key) as [old|] eqn:E.
    + rewrite bool_decide_eq_false_2 by done. reflexivity.
    + rewrite bool_decide_eq_true_2 by done. reflexivity.
Qed.

Lemma X19_witness :
  exists b1,
    _upload_to_bucket (example_optimizer []) stale_out
      (Some (S3Bucket {[ lit "old.2222.css" := S3Obj (lit "other") cache_never ]} []))
    = Ok b1 /\
    get_key b1 (lit "old.2222.css") = Some (S3Obj (lit "other") cache_never).
Proof.
  destruct (X19_bucket_objects_after_upload (example_optimizer []) stale_out
              (S3Bucket {[ lit "old.2222.css" := S3Obj (lit "other") cache_never ]} []))
    as (b1 & Hup & Hobj).
  - vm_compute. reflexivity.
  - exists b1. split; [exact Hup|].
    destruct (Hobj (lit "old.2222.css") (lit "new")) as [_ Hasset]; [vm_compute; reflexivity|].
    rewrite Hasset; [|vm_compute; reflexivity].
    unfold get_key. simpl. rewrite lookup_singleton_eq. reflexivity.
Defined.

Lemma list_empty_nil {A} (l : list A) : (forall x, x ∉ l) -> l = [].
Proof. destruct l as [|x l]; [done|]. intros H. exfalso. apply (H x). left. Qed.

(** A second upload of the same output tree. *)
Lemma upload_twice self out b0 b1 :
  wf_tree out = true ->
  _upload_to_bucket self out (Some b0) = Ok b1 ->
  exists b2 puts,
    _upload_to_bucket self out (Some b1) = Ok b2 /\
    objects b2 = objects b1 /\
    requests b2 = requests b1 ++ puts ++ [S3DeleteKeys []] /\
    (forall r, r ∈ puts -> exists key obj,
        r = S3Put key obj /\ is_asset_key self key = false) /\
    (forall key, key ∈ local_keys out -> is_asset_key self key = false ->
       exists obj, S3Put key obj ∈ puts).
Proof.
  intros Hwf Hup1.
  destruct (upload_spec self out b0 Hwf) as (b1' & _ & _ & Hup1' & _ & _ & _ & _ & Hin1 & Hout1).
  rewrite Hup1 in Hup1'. injection Hup1' as <-.
  destruct (upload_spec self out b1 Hwf)
    as (b2 & puts & D & Hup2 & Hreq & Hputs & Hall & HD & Hin2 & Hout2).
  assert (D = []) as ->.
  { apply list_empty_nil. intros k Hk. apply HD in Hk as [[o Ho] Hk].
    rewrite (Hout1 k Hk) in Ho. discriminate Ho. }
  exists b2, puts. split; [exact Hup2|]. split; [|split; [exact Hreq|split]].
  - apply map_eq. intros key. fold (get_key b2 key). fold (get_key b1 key).
    destruct (decide (key ∈ local_keys out)) as [Hk|Hk].
    + pose proof Hk as Hread. apply (local_keys_spec _ _ Hwf) in Hread as [body Hbody].
      rewrite (upload_objects _ _ _ _ Hup2 key body Hbody Hk).
      destruct (is_asset_key self key) eqn:Ha.
      * assert (should_upload self b1 key = false) as ->; [|reflexivity].
        unfold should_upload. rewrite Ha, orb_false_r. apply bool_decide_eq_false_2.
        destruct (Hin1 key Hk) as [o Ho]. rewrite Ho. done.
      * assert (should_upload self b1 key = true) as ->
          by (unfold should_upload; rewrite Ha; apply orb_true_r).
        rewrite (upload_objects _ _ _ _ Hup1 key body Hbody Hk).
        assert (should_upload self b0 key = true) as ->
          by (unfold should_upload; rewrite Ha; apply orb_true_r).
        reflexivity.
    + rewrite (Hout1 key Hk), (Hout2 key Hk). reflexivity.
  - intros r Hr. destruct (Hputs r Hr) as (key & body & -> & Hk & Hs & _).
    exists key, (S3Obj body (cache_control_of self key)). split; [reflexivity|].
    destruct (Hin1 key Hk) as [o Ho].
    unfold should_upload in Hs. rewrite Ho, bool_decide_eq_false_2 in Hs by done.
    simpl in Hs. apply negb_true_iff in Hs. exact Hs.
  - intros key Hk Ha. apply Hall; [exact Hk|].
    unfold should_upload. rewrite Ha. apply orb_true_r.
Qed.

(** X20: the upload is idempotent on the bucket.  A second upload of
    the same output tree leaves the objects of the bucket as the first
    left them; it sends again every file that is no asset, sends no
    asset, and its [delete_keys] request names no key. *)
Theorem X20_upload_twice self out b0 b1 :
  wf_tree out = true ->
  _upload_to_bucket self out (Some b0) = Ok b1 ->
  exists b2 puts,
    _upload_to_bucket self out (Some b1) = Ok b2 /\
    objects b2 = objects b1 /\
    requests b2 = requests b1 ++ puts ++ [S3DeleteKeys []] /\
    (forall r, r ∈ puts -> exists key obj,
        r = S3Put key obj /\ is_asset_key self key = false) /\
    (forall key, key ∈ local_keys out -> is_asset_key self key = false ->
       exists obj, S3Put key obj ∈ puts).
Proof. apply upload_twice. Qed.

Lemma X20_witness :
  exists b1 b2,
    _upload_to_bucket (example_optimizer []) synced_out (Some synced_remote) = Ok b1 /\
    _upload_to_bucket (example_optimizer []) synced_out (Some b1) = Ok b2 /\
    objects b2 = objects b1.
Proof.
  destruct (_upload_to_bucket (example_optimizer []) synced_out (Some synced_remote))
    as [b1|e] eqn:Hup; [|vm_compute in Hup; discriminate Hup].
  destruct (X20_upload_twice (example_optimizer []) synced_out synced_remote b1)
    as (b2 & puts & Hup2 & Hobj & _).
  - vm_compute. reflexivity.
  - exact Hup.
  - exists b1, b2. done.
Defined.

(** ** The constructor, lines 67-107: the output directory and the logger *)

Lemma env_get_app_some n e e' v : env_get n e = Some v -> env_get n (e ++ e') = Some v.
Proof.
  induction e as [|[m w] e IH]; simpl; [discriminate|].
  destruct (String.eqb m n); [done|exact IH].
Qed.

Lemma env_get_snoc n e v : env_get n e = None -> env_get n (e ++ [(n, v)]) = Some v.
Proof.
  induction e as [|[m w] e IH]; simpl.
  - rewrite String.eqb_refl. reflexivity.
  - destruct (String.eqb m n); [discriminate|exact IH].
Qed.

Lemma bind_default_spec e p e' :
  bind_default e p = Ok e' ->
  is_Some (env_get (fst p) e') /\
  forall n, is_Some (env_get n e) -> is_Some (env_get n e').
Proof.
  unfold bind_default. destruct (env_get (fst p) e) as [v|] eqn:E.
  - intros [= <-]. split; [eauto|auto].
  - destruct (snd p) as [v|]; [|discriminate]. intros [= <-]. split.
    + rewrite (env_get_snoc _ _ _ E). eauto.
    + intros n [w Hw]. rewrite (env_get_app_some _ _ _ _ Hw). eauto.
Qed.

Lemma bind_defaults_spec ps e e' :
  for_each bind_default ps e = Ok e' ->
  (forall n, is_Some (env_get n e) -> is_Some (env_get n e')) /\
  (forall p, p ∈ ps -> is_Some (env_get (fst p) e')).
Proof.
  revert e. induction ps as [|p ps IH]; intros e; simpl.
  - intros [= <-]. split; [auto|]. intros p Hp. apply elem_of_nil in Hp. done.
  - destruct (bind_default e p) as [e1|x] eqn:E; [|discriminate]. simpl. intros Hrest.
    destruct (bind_default_spec _ _ _ E) as [Hp Hkeep].
    destruct (IH _ Hrest) as [Hkeep' Hall]. split.
    + intros n Hn. apply Hkeep', Hkeep, Hn.
    + intros q Hq. apply elem_of_cons in Hq as [->|Hq]; [apply Hkeep', Hp|apply Hall, Hq].
Qed.

(** After the binding of the arguments every parameter of [__init__] has
    a value. *)
Lemma bind_args_bound pos kw locals n :
  bind_args init_params pos kw = Ok locals -> n ∈ List.map fst init_params ->
  is_Some (env_get n locals).
Proof.
  unfold bind_args.
  destruct (bind_positional init_params pos) as [e0|x]; [|discriminate]. cbn [rbind].
  destruct (for_each (bind_keyword init_params) kw e0) as [e1|x]; [|discriminate]. cbn [rbind].
  intros Hd Hn. apply bind_defaults_spec in Hd as [_ Hall].
  apply list_elem_of_fmap in Hn as (p & -> & Hp). apply Hall, Hp.
Qed.

Lemma load_parameter logger locals n v :
  n ∈ List.map fst init_params -> env_get n locals = Some v ->
  load_name (module_globals logger) locals n = Ok v.
Proof.
  intros Hn Hv. unfold load_name.
  rewrite bool_decide_eq_true_2.
  - rewrite Hv. reflexivity.
  - unfold init_local_names. right. apply elem_of_app. left. exact Hn.
Qed.

(** Lines 92-107 once the directories are settled: the attributes are
    assigned up to line 104, and line 105 raises. *)
Lemma init_rest_after_output_dir `{OSModel} logger pos kw locals st p v :
  bind_args init_params pos kw = Ok locals ->
  env_get "output_dir" locals = Some v ->
  init_rest (module_globals logger) locals st p
  = do od <- init_output_dir st v; Raise (NameError (lit "skip_s3_upload")).
Proof.
  intros Hbind Hv. unfold init_rest.
  rewrite (load_parameter logger locals "output_dir" v) by (try exact Hv; decide_by_compute).
  cbn [rbind]. destruct (init_output_dir st v) as [od|e]; cbn [rbind]; [|reflexivity].
  destruct (bind_args_bound pos kw locals "destination_bucket" Hbind) as [v1 H1];
    [decide_by_compute|].
  destruct (bind_args_bound pos kw locals "exclude" Hbind) as [v2 H2]; [decide_by_compute|].
  destruct (bind_args_bound pos kw locals "aws_access_key_id" Hbind) as [v3 H3];
    [decide_by_compute|].
  destruct (bind_args_bound pos kw locals "aws_secret_access_key" Hbind) as [v4 H4];
    [decide_by_compute|].
  rewrite (load_parameter logger locals _ v1) by (try exact H1; decide_by_compute). cbn [rbind].
  rewrite (load_parameter logger locals _ v2) by (try exact H2; decide_by_compute). cbn [rbind].
  rewrite (load_parameter logger locals _ v3) by (try exact H3; decide_by_compute). cbn [rbind].
  rewrite (load_parameter logger locals _ v4) by (try exact H4; decide_by_compute). cbn [rbind].
  rewrite skip_s3_upload_unbound. reflexivity.
Qed.

(** X21: the output directory given to the constructor (lines 80-90),
    for a call made after [main] has set the logger, with a readable source
    directory.  A path that is no directory and cannot be created is
    refused with "... is not a directory and cannot be created"; a
    directory, found or just created, that cannot be written to is refused
    with "... is not a writable dir"; and when the directory is writable
    (having been created by the call if it did not exist), or when no path
    is given and [mkdtemp] makes one, the call still fails, with the
    [NameError] of line 105. *)
Theorem X21_output_directory_check `{OSModel} pos kw st locals p v :
  bind_args init_params pos kw = Ok locals ->
  env_get "source_dir" locals = Some (VStr p) ->
  env_get "output_dir" locals = Some v ->
  os_isdir st p = true -> os_access st p R_OK = true ->
  let r := construct (module_globals (VObj "Logger")) pos kw st in
  (forall q, v = VStr q -> os_isdir st q = false -> os_makedirs st q = None ->
     r = Raise (OptimizerError (q ++ lit " is not a directory and cannot be created"))) /\
  (forall q st', v = VStr q ->
     os_isdir st q = true /\ st' = st \/ os_isdir st q = false /\ os_makedirs st q = Some st' ->
     r = if os_access st' q W_OK then Raise (NameError (lit "skip_s3_upload"))
         else Raise (OptimizerError (q ++ lit " is not a writable dir"))) /\
  (forall tmp, v = VNone -> os_mkdtemp st = Some tmp ->
     r = Raise (NameError (lit "skip_s3_upload"))).
Proof.
  intros Hbind Hsrc Hout Hdir Hread r.
  assert (r = (do od <- init_output_dir st v; Raise (NameError (lit "skip_s3_upload")))) as ->.
  { unfold r, construct, __init__. rewrite Hbind. cbn [rbind].
    change (logger_debug (module_globals (VObj "Logger"))) with (Ok tt : result unit).
    rewrite (load_source_dir _ _ _ Hsrc). cbn [rbind].
    unfold check_source_dir. rewrite Hdir, Hread. cbn [negb rbind].
    apply (init_rest_after_output_dir _ pos kw locals st p v Hbind Hout). }
  split; [|split].
  - intros q -> Hq Hmk. unfold init_output_dir. cbn [rbind].
    rewrite Hq, Hmk. reflexivity.
  - intros q st' -> Hst. unfold init_output_dir. cbn [rbind].
    destruct Hst as [[Hq Hst]|[Hq Hmk]]; rewrite Hq; [rewrite Hst|rewrite Hmk];
      cbn [negb rbind]; destruct (os_access _ q W_OK); reflexivity.
  - intros tmp -> Htmp. unfold init_output_dir. rewrite Htmp. reflexivity.
Qed.

Lemma X21_witness :
  construct (module_globals (VObj "Logger")) [VStr (lit "site"); VStr (lit "b")]
            [("output_dir"%string, VStr (lit "out"))]
            ([(lit "site", (true, true)); (lit "out", (true, false))] : @os_state list_os)
  = Raise (OptimizerError (lit "out is not a writable dir")).
Proof.
  destruct (X21_output_directory_check
              [VStr (lit "site"); VStr (lit "b")] [("output_dir"%string, VStr (lit "out"))]
              ([(lit "site", (true, true)); (lit "out", (true, false))] : @os_state list_os)
              [("source_dir"%string, VStr (lit "site"));
               ("destination_bucket"%string, VStr (lit "b"));
               ("output_dir"%string, VStr (lit "out"));
               ("exclude"%string, VList []);
               ("aws_access_key_id"%string, VNone);
               ("aws_secret_access_key"%string, VNone)]
              (lit "site") (VStr (lit "out"))) as (_ & Hfound & _).
  - vm_compute. reflexivity.
  - vm_compute. reflexivity.
  - vm_compute. reflexivity.
  - vm_compute. reflexivity.
  - vm_compute. reflexivity.
  - rewrite (Hfound (lit "out") [(lit "site", (true, true)); (lit "out", (true, false))]).
    + vm_compute. reflexivity.
    + reflexivity.
    + left. split; vm_compute; reflexivity.
Defined.

(** X22: [logger] is [None] until [main] has run (line 29), and the
    first statement of the constructor uses it (line 72).  So a call of
    [Optimizer(...)] from a program that imports the module, with arguments
    that fit the signature, raises [AttributeError], whatever the
    arguments are and whatever is on the disk: none of the checks of the
    directories is reached. *)
Theorem X22_constructor_needs_main `{OSModel} pos kw st locals :
  bind_args init_params pos kw = Ok locals ->
  construct (module_globals VNone) pos kw st
  = Raise (AttributeError (lit "'NoneType' object has no attribute 'debug'")).
Proof. intros Hbind. unfold construct. rewrite Hbind. reflexivity. Qed.

Lemma X22_witness :
  construct (module_globals VNone) [VStr (lit "site"); VStr (lit "b")] []
            ([(lit "site", (true, true))] : @os_state list_os)
  = Raise (AttributeError (lit "'NoneType' object has no attribute 'debug'")).
Proof.
  apply (X22_constructor_needs_main
           [VStr (lit "site"); VStr (lit "b")] []
           ([(lit "site", (true, true))] : @os_state list_os)
           [("source_dir"%string, VStr (lit "site"));
            ("destination_bucket"%string, VStr (lit "b"));
            ("exclude"%string, VList []); ("output_dir"%string, VNone);
            ("aws_access_key_id"%string, VNone);
            ("aws_secret_access_key"%string, VNone)]).
  vm_compute. reflexivity.
Defined.

(** ** [_write_files], lines 193-206: a text that names no asset *)

Lemma occurs_in_line a text line : line ∈ file_lines text -> occurs a line -> occurs a text.
Proof.
  intros Hin (u & v & ->).
  apply list_elem_of_split in Hin as (l1 & l2 & Hl).
  exists (concat l1 ++ u), (v ++ concat l2).
  rewrite <- (file_lines_concat text), Hl, concat_app. simpl.
  rewrite <- !app_assoc. reflexivity.
Qed.

Lemma rewrite_text_no_occurrence self subs text :
  substitutions self = Some subs ->
  (forall a, a ∈ dict_keys subs -> ~ occurs a text) ->
  rewrite_text self text = Ok text.
Proof.
  intros Hs Hno. rewrite (rewrite_text_spec _ _ _ Hs). f_equal.
  rewrite <- (file_lines_concat text) at 2. f_equal.
  rewrite <- (map_id (file_lines text)) at 2. apply map_ext_in. intros line Hline.
  apply replace_all_no_occurrence. intros a Ha Hocc.
  apply (Hno a Ha). apply (occurs_in_line a text line); [apply list_elem_of_In, Hline|exact Hocc].
Qed.



(** ** A second run *)

Lemma set_entry_same n v es : lookup_entry n es = Some v -> set_entry n v es = es.
Proof.
  induction es as [|[m x] es IH]; simpl; [discriminate|].
  destruct (str_eqb m n); [intros [= ->]; reflexivity|].
  intros H. rewrite IH by exact H. reflexivity.
Qed.

Lemma set_entry_twice n v1 v2 es : set_entry n v2 (set_entry n v1 es) = set_entry n v2 es.
Proof.
  induction es as [|[m x] es IH]; simpl.
  - unfold str_eqb. rewrite bool_decide_eq_true_2 by done. reflexivity.
  - destruct (str_eqb m n) eqn:E; simpl; rewrite E; [reflexivity|rewrite IH; reflexivity].
Qed.

Lemma tree_write_last es n c :
  tree_write (Dir es) [n] c
  = match lookup_entry n es with
    | Some (Dir _) => None
    | _ => Some (Dir (set_entry n (File c) es))
    end.
Proof. reflexivity. Qed.

Lemma tree_write_cons es n m rest c :
  tree_write (Dir es) (n :: m :: rest) c
  = match lookup_entry n es with
    | Some child =>
        match tree_write child (m :: rest) c with
        | Some child' => Some (Dir (set_entry n child' es))
        | None => None
        end
    | None => None
    end.
Proof. reflexivity. Qed.

(** Writing to a file what it holds changes nothing. *)
Lemma tree_write_same p t c :
  p <> [] -> tree_get t p = Some (File c) -> tree_write t p c = Some t.
Proof.
  revert t. induction p as [|n rest IH]; intros t Hne; [done|].
  destruct t as [c0|es]; [discriminate|]. cbn [tree_get].
  destruct (lookup_entry n es) as [child|] eqn:E; [|discriminate].
  destruct rest as [|m rest].
  - cbn [tree_get]. intros [= ->]. rewrite tree_write_last, E, (set_entry_same _ _ _ E).
    reflexivity.
  - intros Hget. rewrite tree_write_cons, E, (IH child) by done.
    rewrite (set_entry_same _ _ _ E). reflexivity.
Qed.

(** Only the last of two writes to one path counts. *)
Lemma tree_write_twice p t c1 c2 t1 :
  tree_write t p c1 = Some t1 -> tree_write t1 p c2 = tree_write t p c2.
Proof.
  revert t t1. induction p as [|n rest IH]; intros t t1.
  - destruct t; discriminate.
  - destruct t as [c0|es]; [discriminate|]. destruct rest as [|m rest].
    + rewrite !tree_write_last.
      destruct (lookup_entry n es) as [[c|es']|] eqn:E; try discriminate.
      all: intros [= <-]; rewrite tree_write_last, lookup_set_eq, set_entry_twice;
        reflexivity.
    + rewrite !tree_write_cons.
      destruct (lookup_entry n es) as [child|] eqn:E; [|discriminate].
      destruct (tree_write child (m :: rest) c1) as [child1|] eqn:E1; [|discriminate].
      intros [= <-]. rewrite tree_write_cons, lookup_set_eq, (IH _ _ E1).
      destruct (tree_write child (m :: rest) c2); [rewrite set_entry_twice|]; reflexivity.
Qed.

Lemma tree_write_over p t c c' :
  p <> [] -> tree_get t p = Some (File c) -> exists t1, tree_write t p c' = Some t1.
Proof.
  revert t. induction p as [|n rest IH]; intros t Hne; [done|].
  destruct t as [c0|es]; [discriminate|]. cbn [tree_get].
  destruct (lookup_entry n es) as [child|] eqn:E; [|discriminate].
  destruct rest as [|m rest].
  - cbn [tree_get]. intros [= ->]. rewrite tree_write_last, E. eauto.
  - intros Hget. rewrite tree_write_cons, E.
    destruct (IH child) as [t1 ->]; [done|exact Hget|]. eauto.
Qed.

(** A file that is already at its destination with the content that is
    to be written: the pass of the loop leaves the tree as it is. *)
Lemma write_file_noop self source out f d content :
  destination self f = Ok d -> written_content self source f = Ok content ->
  tree_get out (split_path d) = Some (File content) ->
  write_file self source out f = Ok out.
Proof.
  intros Hd Hc Hg. unfold write_file. unfold written_content in Hc.
  rewrite Hd. cbn [rbind].
  destruct (read_file source f) as [bytes|e]; [|discriminate Hc]. cbn [rbind] in Hc |- *.
  case_bool_decide.
  - cbn [rbind].
    destruct (tree_write_over _ _ _ [] (split_path_nonempty d) Hg) as [t1 E1].
    unfold write_to. rewrite E1. cbn [rbind].
    destruct (text_read f bytes) as [text|e]; [|discriminate Hc]. cbn [rbind] in Hc |- *.
    rewrite Hc. cbn [rbind].
    rewrite (tree_write_twice _ _ _ _ _ E1), (tree_write_same _ _ _ (split_path_nonempty d) Hg).
    reflexivity.
  - injection Hc as ->. cbn [rbind]. unfold write_to.
    rewrite (tree_write_same _ _ _ (split_path_nonempty d) Hg). reflexivity.
Qed.

Lemma write_files_noop self source fs out :
  (forall f, f ∈ fs -> exists d content,
     destination self f = Ok d /\ written_content self source f = Ok content /\
     tree_get out (split_path d) = Some (File content)) ->
  for_each (write_file self source) fs out = Ok out.
Proof.
  induction fs as [|f fs IH]; intros H; [reflexivity|]. cbn [for_each].
  destruct (H f) as (d & content & Hd & Hc & Hg); [left|].
  rewrite (write_file_noop _ _ _ _ _ _ Hd Hc Hg). cbn [rbind].
  apply IH. intros g Hg'. apply H. right. exact Hg'.
Qed.

Lemma write_dirs_made ds out out' :
  for_each write_dir ds out = Ok out' -> forall d, d ∈ ds -> is_dir_at out' (split_path d).
Proof.
  revert out. induction ds as [|d0 ds IH]; intros out; cbn [for_each].
  - intros _ d Hd. apply elem_of_nil in Hd. done.
  - destruct (write_dir_cases out d0) as [[_ ->]|(_ & out1 & -> & Hdir & _)]; [discriminate|].
    cbn [rbind]. intros Hrest d Hd.
    apply elem_of_cons in Hd as [->|Hd]; [|apply (IH _ Hrest d Hd)].
    destruct (write_dirs_ok _ _ _ Hrest) as [_ Hkeep]. apply Hkeep, Hdir.
Qed.

Lemma write_dirs_noop ds out :
  (forall d, d ∈ ds -> is_dir_at out (split_path d)) -> for_each write_dir ds out = Ok out.
Proof.
  induction ds as [|d ds IH]; intros H; [reflexivity|]. cbn [for_each].
  unfold write_dir at 1.
  assert (tree_isdir out d = true) as -> by (apply tree_isdir_spec, H; left).
  cbn [rbind]. apply IH. intros d' Hd'. apply H. right. exact Hd'.
Qed.

(** The output tree of a run on well-formed trees is well-formed. *)
Lemma run_output_wf source_dir bucket exclude output_dir ak sk skip t out0 self' out1 out2 :
  wf_tree t = true -> wf_tree out0 = true ->
  _calculate_fingerprints
    (_index_source_dir (new_optimizer source_dir bucket exclude output_dir ak sk skip) (Some t))
    (Some t) = Ok self' ->
  _write_dirs self' out0 = Ok out1 -> _write_files self' (Some t) out1 = Ok out2 ->
  wf_tree out2 = true.
Proof.
  intros Hwf Hwf0 Hfp Hd Hw.
  assert (wf_tree out1 = true) as Hwf1.
  { apply (write_dirs_ok_wf _ _ _ Hd Hwf0). intros d Hin.
    apply (site_subdir_names _ _ _ _ _ _ _ _ _ Hwf Hfp d Hin). }
  destruct (write_files_loop _ _ _ _ _ Hw) as (_ & _ & _ & _ & _ & Hwfo).
  apply Hwfo; [exact Hwf1|]. intros f d Hf Hdest.
  apply (site_destination_names _ _ _ _ _ _ _ _ _ Hwf Hfp f d Hf Hdest).
Qed.

(** X24: running again on what a run has left, with the same site and
    the same arguments, changes nothing: the run returns, the output
    directory is as it was, and the bucket holds the same objects; the only
    files sent again are those that are no assets, and nothing is deleted.
    With [_skip_s3_upload] set the world is left exactly as it was. *)
Theorem X24_second_run_changes_nothing
    source_dir bucket exclude output_dir ak sk skip t out0 remote self' w' :
  wf_tree t = true -> wf_tree out0 = true ->
  run (new_optimizer source_dir bucket exclude output_dir ak sk skip)
      (World (Some t) out0 remote) = Ok (self', w') ->
  exists w'',
    run (new_optimizer source_dir bucket exclude output_dir ak sk skip) w' = Ok (self', w'') /\
    w_source w'' = w_source w' /\ w_output w'' = w_output w' /\
    (skip = true -> w_remote w'' = w_remote w') /\
    (skip = false ->
     exists b1 b2 puts,
       w_remote w' = Some b1 /\ w_remote w'' = Some b2 /\
       objects b2 = objects b1 /\
       requests b2 = requests b1 ++ puts ++ [S3DeleteKeys []] /\
       forall r, r ∈ puts -> exists key obj,
         r = S3Put key obj /\ is_asset_key self' key = false).
Proof.
  intros Hwf Hwf0 Hrun.
  destruct (run_output _ _ _ _ Hrun) as (self1 & out1 & -> & Hfp & Hd & Hw & Hsrc & Hup).
  cbn [w_source w_output w_remote] in Hfp, Hd, Hw, Hsrc, Hup.
  destruct (fp_fields _ _ _ _ _ _ _ _ _ Hfp) as (_ & _ & _ & _ & _ & Hskip).
  pose proof (run_output_wf _ _ _ _ _ _ _ _ _ _ _ _ Hwf Hwf0 Hfp Hd Hw) as Hwf2.
  destruct (write_files_loop _ _ _ _ _ Hw) as (_ & Hdirs & _ & _ & Hall & _).
  assert (_write_dirs self' (w_output w') = Ok (w_output w')) as Hd2.
  { apply write_dirs_noop. intros d Hin. apply Hdirs. apply (write_dirs_made _ _ _ Hd d Hin). }
  assert (_write_files self' (Some t) (w_output w') = Ok (w_output w')) as Hw2.
  { apply write_files_noop.
    apply (Hall (destination_inj _ _ _ _ _ _ _ _ _ Hfp)). }
  assert (forall w2, w_source w2 = Some t -> w_output w2 = w_output w' ->
            run (new_optimizer source_dir bucket exclude output_dir ak sk skip) w2
            = if negb skip then
                do b <- _upload_to_bucket self' (w_output w') (w_remote w2);
                Ok (self', World (Some t) (w_output w') (Some b))
              else Ok (self', World (Some t) (w_output w') (w_remote w2))) as Hsteps.
  { intros w2 Hs2 Ho2.
    rewrite (run_steps _ w2 self' (w_output w') (w_output w')), Hskip, Hs2;
      rewrite ?Hs2, ?Ho2; done. }
  rewrite (Hsteps w' Hsrc eq_refl). rewrite Hskip in Hup.
  destruct skip; cbn [negb].
  - eexists. split; [reflexivity|]. cbn [w_source w_output w_remote].
    split; [congruence|]. split; [reflexivity|]. split; [reflexivity|discriminate].
  - destruct Hup as (b1 & Hup & Hremote).
    destruct remote as [b0|]; [|discriminate Hup].
    destruct (upload_twice _ _ _ _ Hwf2 Hup) as (b2 & puts & Hup2 & Hobj & Hreq & Hputs & _).
    rewrite Hremote, Hup2. cbn [rbind].
    eexists. split; [reflexivity|]. cbn [w_source w_output w_remote].
    split; [congruence|]. split; [reflexivity|]. split; [discriminate|].
    intros _. exists b1, b2, puts. done.
Qed.

Lemma X24_witness :
  exists self' w' w'',
    run (example_optimizer []) (World page_site (Dir []) (Some (S3Bucket ∅ []))) = Ok (self', w') /\
    run (example_optimizer []) w' = Ok (self', w'') /\
    w_output w'' = w_output w'.
Proof.
  destruct (run (example_optimizer []) (World page_site (Dir []) (Some (S3Bucket ∅ []))))
    as [[self' w']|e] eqn:Hrun; [|vm_compute in Hrun; discriminate Hrun].
  destruct (X24_second_run_changes_nothing (lit "site") (lit "example.org") [] (lit "out")
              None None false
              (Dir [(lit "index.html", File page_text); (lit "app.css", File (lit "A"))])
              (Dir []) (Some (S3Bucket ∅ [])) self' w')
    as (w'' & Hrun2 & _ & Hout & _).
  - vm_compute. reflexivity.
  - vm_compute. reflexivity.
  - exact Hrun.
  - exists self', w', w''. split; [reflexivity|]. split; [exact Hrun2|exact Hout].
Defined.
